(** * matrix-react-sdk view components: RoomDirectory, VideoFeed,
      SpaceCreateMenu and LeftPanelLiveShareWarning

    A shallow embedding of the component logic (state updates, timers,
    listener bookkeeping, string helpers) with the properties the
    specification states about it.  React state is updated in place
    ([setState] is applied immediately), promises are split into the
    part that runs when the call is made and the handler that runs when
    the promise settles, and everything outside the components
    (translations, the Matrix client, Unicode case tables) is a
    parameter. *)

From Stdlib Require Import NArith Ascii String.
From stdpp Require Import base numbers list option gmap.

Set Default Goal Selector "!".
Local Open Scope N_scope.

(* ================================================================== *)
(** ** JavaScript strings and nullable values *)
(* ================================================================== *)

Module JS.

(** A JS string is a sequence of UTF-16 code units. *)
Abbreviation jsstring := (list N).

Definition lit (s : string) : jsstring :=
  N_of_ascii <$> list_ascii_of_string s.

(** A value of type [string | null | undefined]. *)
Inductive nullable : Type :=
| JNull
| JUndefined
| JStr (s : jsstring).

#[global] Instance nullable_eq_dec : EqDecision nullable.
Proof. solve_decision. Defined.

(** [Boolean(v)]: null, undefined and the empty string are falsy. *)
Definition truthy (v : nullable) : bool :=
  match v with
  | JStr (_ :: _) => true
  | _ => false
  end.

(** [a != b] on such values: null and undefined are loosely equal to
    each other and to nothing else; two strings compare by content. *)
Definition loose_neq (a b : nullable) : bool :=
  match a, b with
  | JStr s, JStr t => negb (bool_decide (s = t))
  | JStr _, _ | _, JStr _ => true
  | _, _ => false
  end.


(** [a || b] where [b] is a string. *)
Definition or_str (a : nullable) (b : jsstring) : jsstring :=
  match a with
  | JStr (c :: s) => c :: s
  | _ => b
  end.

(** [a || b]. *)
Definition or_else (a b : nullable) : nullable :=
  if truthy a then a else b.

(** String conversion, as done by [+] and by [localStorage.setItem]. *)
Definition toString (v : nullable) : jsstring :=
  match v with
  | JNull => lit "null"
  | JUndefined => lit "undefined"
  | JStr s => s
  end.

(** WhiteSpace and LineTerminator code units: what [trim] strips and
    what [\s] matches. *)
Definition isWhiteSpace (c : N) : bool :=
  (9 <=? c) && (c <=? 13)
  || (c =? 32) || (c =? 160) || (c =? 5760)
  || (8192 <=? c) && (c <=? 8202)
  || (c =? 8232) || (c =? 8233) || (c =? 8239) || (c =? 8287)
  || (c =? 12288) || (c =? 65279).

Fixpoint trimStart (s : jsstring) : jsstring :=
  match s with
  | c :: s' => if isWhiteSpace c then trimStart s' else s
  | [] => []
  end.

Definition trimEnd (s : jsstring) : jsstring :=
  reverse (trimStart (reverse s)).

Definition trim (s : jsstring) : jsstring := trimEnd (trimStart s).

(** [s.substring(0, n)]. *)
Definition substring0 (n : nat) (s : jsstring) : jsstring := take n s.

(** [s.replace(/C+/g, r)] for a character class [C]: every maximal run
    of code units in the class is replaced by [r]. *)
Fixpoint skipRun (cls : N → bool) (s : jsstring) : jsstring :=
  match s with
  | c :: s' => if cls c then skipRun cls s' else s
  | [] => []
  end.

Fixpoint replaceRuns_fuel (fuel : nat) (cls : N → bool) (r : jsstring)
    (s : jsstring) : jsstring :=
  match fuel with
  | O => s
  | S fuel' =>
    match s with
    | [] => []
    | c :: s' =>
      if cls c
      then r ++ replaceRuns_fuel fuel' cls r (skipRun cls s')
      else c :: replaceRuns_fuel fuel' cls r s'
    end
  end.

Definition replaceRuns (cls : N → bool) (r : jsstring) (s : jsstring)
    : jsstring :=
  replaceRuns_fuel (length s) cls r s.

End JS.

(* ================================================================== *)
(** ** RoomDirectory: data *)
(* ================================================================== *)

Module RoomDirectory.
Import JS.

Definition MAX_NAME_LENGTH : nat := 80.
Definition MAX_TOPIC_LENGTH : nat := 800.

Definition LAST_SERVER_KEY : jsstring := lit "mx_last_room_directory_server".
Definition LAST_INSTANCE_KEY : jsstring := lit "mx_last_room_directory_instance".

(** [IPublicRoomsChunkRoom]. *)
Record Room : Type := mkRoom {
  room_id : jsstring;
  name : nullable;
  topic : nullable;
  canonical_alias : nullable;
  aliases : option (list jsstring);
  avatar_url : nullable;
  world_readable : bool;
  guest_can_join : bool;
  num_joined_members : N
}.

(** [IProtocol] and [IInstance], as far as the directory reads them. *)
Record IProtocol : Type := mkProtocol {
  location_fields : option (list jsstring)
}.

Record IInstance : Type := mkInstance {
  instance_id : jsstring;
  fields : gmap (list N) (list N)
}.

(** What the component imports from the rest of the application. *)
Class Env : Type := {
  (** [languageHandler._t], with its substitution variables. *)
  _t : jsstring → list (jsstring * jsstring) → jsstring;
  (** [Rooms.getDisplayAliasForAliasSet]. *)
  getDisplayAliasForAliasSet : nullable → option (list jsstring) → nullable;
  (** [HtmlUtils.linkifyAndSanitizeHtml]. *)
  linkifyAndSanitizeHtml : jsstring → jsstring;
  (** [NetworkDropdown.ALL_ROOMS]. *)
  ALL_ROOMS : jsstring;
  (** [SdkConfig.get().brand]. *)
  brand : jsstring;
  (** [mediaFromMxc(url).getSquareThumbnailHttp(size)]. *)
  getSquareThumbnailHttp : jsstring → N → nullable
}.

(** The part of [MatrixClientPeg] the directory consults. *)
Record Client : Type := mkClient {
  homeserverName : jsstring;
  isGuest : bool;
  (** [getRoom(id)?.getMyMembership() === "join"]. *)
  hasJoined : jsstring → bool
}.

Record IState : Type := mkState {
  publicRooms : list Room;
  loading : bool;
  protocolsLoading : bool;
  error : nullable;
  instanceId : nullable;
  roomServer : nullable;
  filterString : jsstring
}.

(** The instance: React state plus the private fields.  A timer handle
    is a positive integer, so [filterTimeout] is falsy exactly when it
    holds no handle ([undefined] at first, [null] after the timer ran). *)
Record Component : Type := mkComponent {
  state : IState;
  unmounted : bool;
  nextBatch : nullable;
  filterTimeout : option positive
}.

(** [IRoomDirectoryOptions]. *)
Record IRoomDirectoryOptions : Type := mkOpts {
  limit : N;
  server : option nullable;
  include_all_networks : bool;
  third_party_instance_id : option jsstring;
  since : option nullable;
  filter : option jsstring    (* generic_search_term *)
}.

(** A [publicRooms] call that has been sent: its options and the three
    constants its handlers close over. *)
Record Request : Type := mkRequest {
  opts : IRoomDirectoryOptions;
  sentFilterString : jsstring;
  sentRoomServer : nullable;
  sentNextBatch : nullable
}.

Record PublicRoomsData : Type := mkData {
  chunk : option (list Room);
  next_batch : nullable
}.

Record MatrixError : Type := mkError { message : nullable }.

Inductive Response : Type :=
| Fulfilled (data : PublicRoomsData)
| Rejected (err : MatrixError).

(** Value a promise handler returns: a boolean, or nothing. *)
Inductive Completion : Type :=
| RetBool (b : bool)
| RetUndefined.

(** What [getMoreRooms] hands back: a promise already resolved, or the
    promise of the request with the given sequence number. *)
Inductive Promise : Type :=
| Resolved (b : bool)
| Pending (rid : nat).

(** Who called [refreshRoomList] (bookkeeping only). *)
Inductive Caller : Type :=
| ByMount
| ByDebounce
| ByOptionChange
| ByFilterClear.

(** Bookkeeping of calls, in the order they happened, with the clock
    (in milliseconds) at the call. *)
Inductive Occurrence : Type :=
| FilterChanged (at_ms : N)
| Refreshed (at_ms : N) (by_whom : Caller).

(** The component together with everything it acts on. *)
Record World : Type := mkWorld {
  this : Component;
  peg : option Client;                  (* MatrixClientPeg.get() *)
  localStorage : gmap (list N) (list N);
  clock : N;
  timers : list (positive * N);         (* pending setTimeout: handle, due *)
  timerSeq : positive;                  (* next handle *)
  inflight : list (nat * Request);      (* requests awaiting a response *)
  requestSeq : nat;
  settled : list (nat * Completion);    (* what each request's promise resolved to *)
  tracked : list jsstring;              (* Analytics.trackEvent actions *)
  history : list Occurrence
}.

(* ---------------------------------------------------------------- *)
(** *** Field updates *)

Definition updThis (f : Component → Component) (w : World) : World :=
  mkWorld (f (this w)) (peg w) (localStorage w) (clock w) (timers w)
          (timerSeq w) (inflight w) (requestSeq w) (settled w) (tracked w)
          (history w).

Definition updStorage (f : gmap (list N) (list N) → gmap (list N) (list N))
    (w : World) : World :=
  mkWorld (this w) (peg w) (f (localStorage w)) (clock w) (timers w)
          (timerSeq w) (inflight w) (requestSeq w) (settled w) (tracked w)
          (history w).

Definition updTimers (f : list (positive * N) → list (positive * N))
    (w : World) : World :=
  mkWorld (this w) (peg w) (localStorage w) (clock w) (f (timers w))
          (timerSeq w) (inflight w) (requestSeq w) (settled w) (tracked w)
          (history w).

Definition updInflight (f : list (nat * Request) → list (nat * Request))
    (w : World) : World :=
  mkWorld (this w) (peg w) (localStorage w) (clock w) (timers w)
          (timerSeq w) (f (inflight w)) (requestSeq w) (settled w)
          (tracked w) (history w).

Definition note (o : Occurrence) (w : World) : World :=
  mkWorld (this w) (peg w) (localStorage w) (clock w) (timers w)
          (timerSeq w) (inflight w) (requestSeq w) (settled w) (tracked w)
          (history w ++ [o]).

(** [Analytics.trackEvent('RoomDirectory', action)]. *)
Definition track (action : jsstring) (w : World) : World :=
  mkWorld (this w) (peg w) (localStorage w) (clock w) (timers w)
          (timerSeq w) (inflight w) (requestSeq w) (settled w)
          (tracked w ++ [action]) (history w).

Definition setState (f : IState → IState) : World → World :=
  updThis (λ c, mkComponent (f (state c)) (unmounted c) (nextBatch c)
                            (filterTimeout c)).

Definition set_nextBatch (v : nullable) : World → World :=
  updThis (λ c, mkComponent (state c) (unmounted c) v (filterTimeout c)).

Definition set_filterTimeout (v : option positive) : World → World :=
  updThis (λ c, mkComponent (state c) (unmounted c) (nextBatch c) v).

Definition set_unmounted (v : bool) : World → World :=
  updThis (λ c, mkComponent (state c) v (nextBatch c) (filterTimeout c)).

(* ---------------------------------------------------------------- *)
(** *** Browser facilities *)

(** [localStorage.getItem]: the stored string, or null. *)
Definition getItem (k : jsstring) (w : World) : nullable :=
  match localStorage w !! k with
  | Some v => JStr v
  | None => JNull
  end.

(** [localStorage.setItem]: the value is converted to a string. *)
Definition setItem (k : jsstring) (v : nullable) : World → World :=
  updStorage (λ m, <[k := toString v]> m).

Definition removeItem (k : jsstring) : World → World :=
  updStorage (λ m, delete k m).

(** [setTimeout(cb, delay)]: a new handle, due [delay] ms from now.  The
    component has a single timer callback, so a pending timer is its
    handle and its due time. *)
Definition setTimeout (delay : N) (w : World) : World * positive :=
  let h := timerSeq w in
  (mkWorld (this w) (peg w) (localStorage w) (clock w)
           (timers w ++ [(h, clock w + delay)]) (Pos.succ h) (inflight w)
           (requestSeq w) (settled w) (tracked w) (history w), h).

(** [clearTimeout(handle)]: nothing happens if the handle is not pending. *)
Definition clearTimeout (h : positive) : World → World :=
  updTimers (List.filter (λ t, negb (Pos.eqb (fst t) h))).

(* ---------------------------------------------------------------- *)
(** *** The component's methods *)

Section Methods.
Context `{Env}.

(** The request options [getMoreRooms] builds from the current state. *)
Definition buildOpts (cli : Client) (w : World) : IRoomDirectoryOptions :=
  let st := state (this w) in
  {| limit := 20;
     server :=
       if loose_neq (roomServer st) (JStr (homeserverName cli))
       then Some (roomServer st) else None;
     include_all_networks :=
       bool_decide (instanceId st = JStr ALL_ROOMS);
     third_party_instance_id :=
       if bool_decide (instanceId st = JStr ALL_ROOMS) then None
       else if truthy (instanceId st) then Some (toString (instanceId st))
       else None;
     since :=
       if truthy (nextBatch (this w)) then Some (nextBatch (this w))
       else None;
     filter :=
       match filterString st with
       | [] => None
       | _ :: _ => Some (filterString st)
       end |}.

(** [getMoreRooms], up to the point where the request is on the wire. *)
Definition getMoreRooms (w : World) : World * Promise :=
  match peg w with
  | None => (w, Resolved false)
  | Some cli =>
    let w := setState (λ s, mkState (publicRooms s) true
                 (protocolsLoading s) (error s) (instanceId s)
                 (roomServer s) (filterString s)) w in
    let req := {| opts := buildOpts cli w;
                  sentFilterString := filterString (state (this w));
                  sentRoomServer := roomServer (state (this w));
                  sentNextBatch := nextBatch (this w) |} in
    let rid := requestSeq w in
    (mkWorld (this w) (peg w) (localStorage w) (clock w) (timers w)
             (timerSeq w) (inflight w ++ [(rid, req)]) (S rid)
             (settled w) (tracked w) (history w),
     Pending rid)
  end.

(** The test both handlers start with: has the filter, the server or
    the batch token changed since the request was sent? *)
Definition changedSince (r : Request) (w : World) : bool :=
  negb (bool_decide (sentFilterString r = filterString (state (this w))))
  || loose_neq (sentRoomServer r) (roomServer (state (this w)))
  || loose_neq (sentNextBatch r) (nextBatch (this w)).

(** The [then] handler of the [publicRooms] promise. *)
Definition onPublicRooms (r : Request) (data : PublicRoomsData)
    (w : World) : World * Completion :=
  if changedSince r w then (w, RetBool false)
  else if unmounted (this w) then (w, RetBool false)
  else
    let w := set_nextBatch (next_batch data) w in
    let w := setState (λ s, mkState
                 (publicRooms s ++ default [] (chunk data)) false
                 (protocolsLoading s) (error s) (instanceId s)
                 (roomServer s) (filterString s)) w in
    (w, RetBool (truthy (next_batch data))).

(** The rejection handler.  In the source the conditional's test is
    the whole concatenation [_t(...) + (err && err.message)]. *)
Definition onPublicRoomsError (r : Request) (err : MatrixError)
    (w : World) : World * Completion :=
  if changedSince r w then (w, RetBool false)
  else if unmounted (this w) then (w, RetBool false)
  else
    let w := track (lit "Failed to get public room list") w in
    let test :=
      _t (lit "%(brand)s failed to get the public room list.")
         [(lit "brand", brand)] ++ toString (message err) in
    let e :=
      match test with
      | _ :: _ => message err
      | [] => JStr (_t (lit "The homeserver may be unavailable or overloaded.") [])
      end in
    let w := setState (λ s, mkState (publicRooms s) false
                 (protocolsLoading s) e (instanceId s)
                 (roomServer s) (filterString s)) w in
    (w, RetUndefined).

Definition refreshRoomList (who : Caller) (w : World) : World :=
  let w := note (Refreshed (clock w) who) w in
  let w := set_nextBatch JNull w in
  let w := setState (λ s, mkState [] true (protocolsLoading s) (error s)
               (instanceId s) (roomServer s) (filterString s)) w in
  fst (getMoreRooms w).

(** The state-update callback [refreshRoomList] runs once the handler
    that called [setState] has finished, hence after the storage
    writes. *)
Definition onOptionChange (server : jsstring) (instanceId : nullable)
    (w : World) : World :=
  let w := set_nextBatch JNull w in
  let w := setState (λ s, mkState [] (loading s) (protocolsLoading s)
               JNull instanceId (JStr server) (filterString s)) w in
  let w := setItem LAST_SERVER_KEY (JStr server) w in
  let w :=
    if truthy instanceId then setItem LAST_INSTANCE_KEY instanceId w
    else removeItem LAST_INSTANCE_KEY w in
  refreshRoomList ByOptionChange w.

Definition onFillRequest (backwards : bool) (w : World) : World * Promise :=
  if backwards || negb (truthy (nextBatch (this w)))
  then (w, Resolved false)
  else getMoreRooms w.

(** The callback handed to [setTimeout] by [onFilterChange]. *)
Definition filterTimeoutCallback (w : World) : World :=
  let w := set_filterTimeout None w in
  refreshRoomList ByDebounce w.

Definition onFilterChange (alias : nullable) (w : World) : World :=
  let w := note (FilterChanged (clock w)) w in
  let w := setState (λ s, mkState (publicRooms s) (loading s)
               (protocolsLoading s) (error s) (instanceId s) (roomServer s)
               match alias with JStr a => trim a | _ => [] end) w in
  let w :=
    match filterTimeout (this w) with
    | Some h => clearTimeout h w
    | None => w
    end in
  let (w, h) := setTimeout 700 w in
  set_filterTimeout (Some h) w.

(** As in [onOptionChange], the callback [refreshRoomList] runs after
    the rest of the handler. *)
Definition onFilterClear (w : World) : World :=
  let w := setState (λ s, mkState (publicRooms s) (loading s)
               (protocolsLoading s) (error s) (instanceId s) (roomServer s)
               []) w in
  let w :=
    match filterTimeout (this w) with
    | Some h => clearTimeout h w
    | None => w
    end in
  refreshRoomList ByFilterClear w.

Definition componentWillUnmount (w : World) : World :=
  let w :=
    match filterTimeout (this w) with
    | Some h => clearTimeout h w
    | None => w
    end in
  set_unmounted true w.

(** The constructor's synchronous part; the third-party protocol list
    it also asks for is not followed here. *)
Definition construct (initialText : nullable) (cli : option Client)
    (storage : gmap (list N) (list N)) : World :=
  let w0 := mkWorld (mkComponent (mkState [] true false JNull JNull JNull [])
                       false JNull None)
              cli storage 0 [] 1%positive [] 0%nat [] [] [] in
  setState (λ _, mkState [] true (bool_decide (is_Some cli)) JNull
              (getItem LAST_INSTANCE_KEY w0) (getItem LAST_SERVER_KEY w0)
              (or_str initialText [])) w0.

Definition componentDidMount (w : World) : World :=
  refreshRoomList ByMount w.

Definition mount (initialText : nullable) (cli : option Client)
    (storage : gmap (list N) (list N)) : World :=
  componentDidMount (construct initialText cli storage).

(* -------------------------------------------------------------- *)
(** *** Rendering one room *)

Definition getDisplayAliasForRoom (room : Room) : nullable :=
  getDisplayAliasForAliasSet (canonical_alias room) (aliases room).

Inductive JoinOrView : Type := ViewButton | JoinButton.

(** What [createRoomCells] puts into the list item. *)
Record RoomCells : Type := mkCells {
  key : jsstring;
  avatarName : jsstring;
  avatarUrl : nullable;
  cellName : jsstring;                 (* mx_RoomDirectory_name *)
  sanitizerInput : jsstring;           (* argument of linkifyAndSanitizeHtml *)
  cellTopic : jsstring;                (* mx_RoomDirectory_topic *)
  cellAlias : nullable;
  memberCount : N;
  previewButton : bool;
  joinOrViewButton : option JoinOrView
}.

Definition createRoomCells (client : Client) (room : Room) : RoomCells :=
  let hasJoinedRoom := hasJoined client (room_id room) in
  let previewButton :=
    negb hasJoinedRoom && (world_readable room || isGuest client) in
  let joinOrViewButton :=
    if hasJoinedRoom then Some ViewButton
    else if negb (isGuest client) then Some JoinButton
    else None in
  let name :=
    or_str (or_else (name room) (getDisplayAliasForRoom room))
           (_t (lit "Unnamed room") []) in
  let name :=
    if decide (MAX_NAME_LENGTH < length name)%nat
    then substring0 MAX_NAME_LENGTH name ++ lit "..."
    else name in
  let topic := or_str (topic room) [] in
  let topic :=
    if decide (MAX_TOPIC_LENGTH < length topic)%nat
    then substring0 MAX_TOPIC_LENGTH topic ++ lit "..."
    else topic in
  let avatarUrl :=
    if truthy (avatar_url room)
    then getSquareThumbnailHttp (toString (avatar_url room)) 32
    else JNull in
  {| key := room_id room;
     avatarName := name;
     avatarUrl := avatarUrl;
     cellName := name;
     sanitizerInput := topic;
     cellTopic := linkifyAndSanitizeHtml topic;
     cellAlias := getDisplayAliasForRoom room;
     memberCount := num_joined_members room;
     previewButton := previewButton;
     joinOrViewButton := joinOrViewButton |}.

(* -------------------------------------------------------------- *)
(** *** Third-party locations *)

(** [instance.fields] and the object the function builds are plain
    objects: [o[k]] also finds what [Object.prototype] has under [k],
    and [o[k] = v] goes through the [__proto__] setter when [k] is
    ["__proto__"].  The names are those the language gives
    [Object.prototype]. *)
Definition objectPrototypeNames : list jsstring :=
  [lit "constructor"; lit "hasOwnProperty"; lit "isPrototypeOf";
   lit "propertyIsEnumerable"; lit "toLocaleString"; lit "toString";
   lit "valueOf"; lit "__proto__"; lit "__defineGetter__";
   lit "__defineSetter__"; lit "__lookupGetter__"; lit "__lookupSetter__"].

(** What [o[k]] can be: a string the object holds itself, or what
    [Object.prototype] has under that name (a function, or for
    ["__proto__"] the prototype itself). *)
Inductive PropertyValue : Type :=
| StringValue (s : jsstring)
| PrototypeValue (name : jsstring).

#[global] Instance PropertyValue_eq_dec : EqDecision PropertyValue.
Proof. solve_decision. Defined.

(** [o[k]] for an object with the own properties [o], all strings;
    [None] is [undefined]. *)
Definition getProperty (o : gmap (list N) (list N)) (k : jsstring)
    : option PropertyValue :=
  match o !! k with
  | Some v => Some (StringValue v)
  | None =>
    if bool_decide (k ∈ objectPrototypeNames) then Some (PrototypeValue k)
    else None
  end.

(** [o[k] = v] for an object made by [{}].  Under ["__proto__"] nothing
    is stored: the setter ignores a string, and given [Object.prototype]
    it sets the prototype the object has already.  Every other name
    becomes an own property. *)
Definition setProperty (k : jsstring) (v : PropertyValue)
    (o : gmap (list N) PropertyValue) : gmap (list N) PropertyValue :=
  if bool_decide (k = lit "__proto__") then o else <[k := v]> o.

(** The loop over all required fields but the last; [None] is the
    early [return null]. *)
Fixpoint copyInstanceFields (requiredFields : list jsstring)
    (instance : IInstance) (acc : gmap (list N) PropertyValue)
    : option (gmap (list N) PropertyValue) :=
  match requiredFields with
  | [] => Some acc
  | thisField :: rest =>
    match rest with
    | [] => Some acc
    | _ :: _ =>
      match getProperty (fields instance) thisField with
      | None => None
      | Some v => copyInstanceFields rest instance (setProperty thisField v acc)
      end
    end
  end.

(** [requiredFields[requiredFields.length - 1]] used as a property
    name: the name of the last field, or ["undefined"] for an empty
    array. *)
Definition lastFieldKey (requiredFields : list jsstring) : jsstring :=
  match last requiredFields with
  | Some f => f
  | None => lit "undefined"
  end.

Definition getFieldsForThirdPartyLocation (userInput : jsstring)
    (protocol : IProtocol) (instance : IInstance)
    : option (gmap (list N) PropertyValue) :=
  match location_fields protocol with
  | None => None
  | Some requiredFields =>
    match copyInstanceFields requiredFields instance ∅ with
    | None => None
    | Some acc =>
      Some (setProperty (lastFieldKey requiredFields) (StringValue userInput)
              acc)
    end
  end.

(* -------------------------------------------------------------- *)
(** *** Events *)

Inductive Event : Type :=
| EvFilterChange (alias : nullable)
| EvFilterClear
| EvOptionChange (server : jsstring) (instanceId : nullable)
| EvFillRequest (backwards : bool)
| EvSettle (rid : nat) (resp : Response)   (* a request's promise settles *)
| EvElapse (ms : N)                        (* time passes *)
| EvTimer                                  (* the event loop runs a due timer *)
| EvClient (cli : option Client)           (* the application logs in or out *)
| EvUnmount.

Definition dueTimer (w : World) : option (positive * N) :=
  head (List.filter (λ t, snd t <=? clock w) (timers w)).

Definition findRequest (rid : nat) (w : World) : option Request :=
  snd <$> head (List.filter (λ p, Nat.eqb (fst p) rid) (inflight w)).

Definition settle (rid : nat) (c : Completion) (w : World) : World :=
  mkWorld (this w) (peg w) (localStorage w) (clock w) (timers w)
          (timerSeq w) (inflight w) (requestSeq w)
          (settled w ++ [(rid, c)]) (tracked w) (history w).

Definition handle (r : Request) (resp : Response) (w : World)
    : World * Completion :=
  match resp with
  | Fulfilled data => onPublicRooms r data w
  | Rejected err => onPublicRoomsError r err w
  end.

Definition step (w : World) (e : Event) : World :=
  match e with
  | EvFilterChange alias => onFilterChange alias w
  | EvFilterClear => onFilterClear w
  | EvOptionChange server instanceId => onOptionChange server instanceId w
  | EvFillRequest backwards => fst (onFillRequest backwards w)
  | EvSettle rid resp =>
    match findRequest rid w with
    | None => w
    | Some r =>
      let w := updInflight (List.filter (λ p, negb (Nat.eqb (fst p) rid))) w in
      let (w, c) := handle r resp w in
      settle rid c w
    end
  | EvElapse ms =>
    mkWorld (this w) (peg w) (localStorage w) (clock w + ms) (timers w)
            (timerSeq w) (inflight w) (requestSeq w) (settled w)
            (tracked w) (history w)
  | EvTimer =>
    match dueTimer w with
    | None => w
    | Some (h, _) => filterTimeoutCallback (clearTimeout h w)
    end
  | EvClient cli =>
    mkWorld (this w) cli (localStorage w) (clock w) (timers w)
            (timerSeq w) (inflight w) (requestSeq w) (settled w)
            (tracked w) (history w)
  | EvUnmount => componentWillUnmount w
  end.

Definition run (w : World) (evs : list Event) : World :=
  fold_left step evs w.

End Methods.

(* ---------------------------------------------------------------- *)
(** *** Vocabulary for the properties *)

(** The required fields before the last one. *)
Abbreviation nonLast l := (take (length l - 1) l).

(** A stretch of the call record with no [onFilterChange] call and no
    refresh made by the debounce timer. *)
Definition quiet (os : list Occurrence) : Prop :=
  Forall (λ o, match o with
               | FilterChanged _ => False
               | Refreshed _ ByDebounce => False
               | Refreshed _ _ => True
               end) os.

(** The latest [onFilterChange] call in the record was made at [c], and
    the debounce timer has not refreshed since. *)
Definition lastCall (c : N) (os : list Occurrence) : Prop :=
  ∃ pre1 pre2, os = pre1 ++ FilterChanged c :: pre2 ∧ quiet pre2.

(** Every refresh made by the debounce timer comes at least 700 ms after
    the latest [onFilterChange] call, with no other debounce refresh in
    between. *)
Definition debounced (os : list Occurrence) : Prop :=
  ∀ pre post t, os = pre ++ Refreshed t ByDebounce :: post →
    ∃ c, lastCall c pre ∧ c + 700 ≤ t.

(** What holds of the timers in every reachable world. *)
Definition timerInv (w : World) : Prop :=
  (timers w = []
   ∨ ∃ h c, timers w = [(h, c + 700)]
            ∧ filterTimeout (this w) = Some h
            ∧ lastCall c (history w))
  ∧ debounced (history w).

(* ---------------------------------------------------------------- *)
(** *** Sample data *)

(** An environment whose translations are the source strings, whose
    display alias is the canonical alias or else the first alias, and
    whose sanitizer changes nothing. *)
Definition sampleEnv : Env :=
  {| _t := λ k _, k;
     getDisplayAliasForAliasSet := λ canonical al,
       or_else canonical
         match al with
         | Some (a :: _) => JStr a
         | _ => JUndefined
         end;
     linkifyAndSanitizeHtml := λ t, t;
     ALL_ROOMS := lit "ALL_ROOMS";
     brand := lit "Element";
     getSquareThumbnailHttp := λ url _, JStr url |}.

(** An empty [localStorage]. *)
Abbreviation noStorage := (∅ : gmap (list N) (list N)).

(** What a result of [getFieldsForThirdPartyLocation] holds under the
    given names, and how many entries it has. *)
Definition entries (names : list jsstring)
    (r : option (gmap (list N) PropertyValue))
    : option (list (option PropertyValue) * nat) :=
  (λ m : gmap (list N) PropertyValue, ((λ k, m !! k) <$> names, size m)) <$> r.

Definition sampleClient : Client :=
  {| homeserverName := lit "example.org";
     isGuest := false;
     hasJoined := λ _, false |}.

Definition sampleRoom (id : string) : Room :=
  {| room_id := lit id;
     name := JStr (lit id);
     topic := JUndefined;
     canonical_alias := JUndefined;
     aliases := None;
     avatar_url := JUndefined;
     world_readable := true;
     guest_can_join := false;
     num_joined_members := 1 |}.

End RoomDirectory.

(* ================================================================== *)
(** ** VideoFeed: listener bookkeeping on call feeds *)
(* ================================================================== *)

Module VideoFeed.

Inductive CallFeedEvent : Type :=
| NewStream
| MuteStateChanged
| VolumeChanged
| Speaking.

Inductive SDPStreamMetadataPurpose : Type := Usermedia | Screenshare.

(** The bound methods of the one component instance. *)
Inductive Listener : Type := onNewStream | onMuteStateChanged.

#[global] Instance CallFeedEvent_eq_dec : EqDecision CallFeedEvent.
Proof. solve_decision. Defined.
#[global] Instance Listener_eq_dec : EqDecision Listener.
Proof. solve_decision. Defined.
#[global] Instance Purpose_eq_dec : EqDecision SDPStreamMetadataPurpose.
Proof. solve_decision. Defined.

(** A [CallFeed] object of the SDK: an event emitter with a stream. *)
Record CallFeed : Type := mkFeed {
  purpose : SDPStreamMetadataPurpose;
  stream : nat;
  isAudioMuted : bool;
  isVideoMuted : bool;
  listeners : list (CallFeedEvent * Listener);
  measuringVolumeActivity : bool
}.

(** The [<video>] element, as far as the component drives it. *)
Record HTMLVideoElement : Type := mkElement {
  muted : bool;
  autoplay : bool;
  srcObject : option nat;
  srcNulled : bool;
  playCalls : nat;
  pauseCalls : nat
}.

Record IState : Type := mkState { audioMuted : bool; videoMuted : bool }.

(** Feeds are shared objects: the heap maps a feed's identity to its
    current contents, and props hold identities. *)
Record World : Type := mkWorld {
  heap : gmap nat CallFeed;
  props_feed : nat;
  element : option HTMLVideoElement;
  state : IState
}.

Definition updFeed (id : nat) (f : CallFeed → CallFeed) (w : World) : World :=
  mkWorld (alter f id (heap w)) (props_feed w) (element w) (state w).

Definition updElement (f : HTMLVideoElement → HTMLVideoElement)
    (w : World) : World :=
  mkWorld (heap w) (props_feed w) (f <$> element w) (state w).

(** [EventEmitter.addListener]: appended, duplicates allowed. *)
Definition addListener (ev : CallFeedEvent) (l : Listener) (feed : nat)
    : World → World :=
  updFeed feed (λ f, mkFeed (purpose f) (stream f) (isAudioMuted f)
                       (isVideoMuted f) (listeners f ++ [(ev, l)])
                       (measuringVolumeActivity f)).

Fixpoint removeFirst (x : CallFeedEvent * Listener)
    (l : list (CallFeedEvent * Listener)) : list (CallFeedEvent * Listener) :=
  match l with
  | [] => []
  | y :: l' => if decide (x = y) then l' else y :: removeFirst x l'
  end.

(** [EventEmitter.removeListener]: at most one instance goes, the most
    recently added one. *)
Definition removeListener (ev : CallFeedEvent) (l : Listener) (feed : nat)
    : World → World :=
  updFeed feed (λ f, mkFeed (purpose f) (stream f) (isAudioMuted f)
                       (isVideoMuted f)
                       (reverse (removeFirst (ev, l) (reverse (listeners f))))
                       (measuringVolumeActivity f)).

Definition measureVolumeActivity (enabled : bool) (feed : nat)
    : World → World :=
  updFeed feed (λ f, mkFeed (purpose f) (stream f) (isAudioMuted f)
                       (isVideoMuted f) (listeners f) enabled).

Definition purposeOf (feed : nat) (w : World) : option SDPStreamMetadataPurpose :=
  purpose <$> heap w !! feed.

Definition playMedia (w : World) : World :=
  updElement (λ e, mkElement true true (stream <$> heap w !! props_feed w)
                     (srcNulled e) (S (playCalls e)) (pauseCalls e)) w.

Definition stopMedia (w : World) : World :=
  updElement (λ e, mkElement (muted e) (autoplay e) (srcObject e) true
                     (playCalls e) (S (pauseCalls e))) w.

(** [updateFeed(oldFeed, newFeed)]; [None] is [null].  Every call on a
    feed goes through [this.props.feed]. *)
Definition updateFeed (oldFeed newFeed : option nat) (w : World) : World :=
  if decide (oldFeed = newFeed) then w
  else
    let w :=
      match oldFeed with
      | Some _ =>
        let w := removeListener NewStream onNewStream (props_feed w) w in
        let w := removeListener MuteStateChanged onMuteStateChanged (props_feed w) w in
        let w :=
          if decide (purposeOf (props_feed w) w = Some Usermedia)
          then measureVolumeActivity false (props_feed w) w
          else w in
        stopMedia w
      | None => w
      end in
    match newFeed with
    | Some _ =>
      let w := addListener NewStream onNewStream (props_feed w) w in
      let w := addListener MuteStateChanged onMuteStateChanged (props_feed w) w in
      let w :=
        if decide (purposeOf (props_feed w) w = Some Usermedia)
        then measureVolumeActivity true (props_feed w) w
        else w in
      playMedia w
    | None => w
    end.

Definition getDerivedStateFromProps (w : World) : IState :=
  match heap w !! props_feed w with
  | Some f => mkState (isAudioMuted f) (isVideoMuted f)
  | None => state w
  end.

Definition componentDidMount (w : World) : World :=
  playMedia (updateFeed None (Some (props_feed w)) w).

Definition componentWillUnmount (w : World) : World :=
  updateFeed (Some (props_feed w)) None w.

Definition componentDidUpdate (prevFeed : nat) (prevState : IState)
    (w : World) : World :=
  let w := updateFeed (Some prevFeed) (Some (props_feed w)) w in
  if bool_decide (videoMuted prevState ≠ videoMuted (state w))
     || bool_decide (stream <$> heap w !! prevFeed
                     ≠ stream <$> heap w !! props_feed w)
  then playMedia w else w.

(** The parent re-renders the component with a new [feed] prop: the
    props are replaced, the state is derived from them, and then
    [componentDidUpdate] runs with the previous props and state. *)
Definition receiveProps (newFeed : nat) (w : World) : World :=
  let prevFeed := props_feed w in
  let prevState := state w in
  let w := mkWorld (heap w) newFeed (element w) (state w) in
  let w := mkWorld (heap w) (props_feed w) (element w)
                   (getDerivedStateFromProps w) in
  componentDidUpdate prevFeed prevState w.

(** The component's listener pair is registered on a feed. *)
Definition carriesListeners (feed : nat) (w : World) : bool :=
  match heap w !! feed with
  | Some f =>
    bool_decide ((NewStream, onNewStream) ∈ listeners f)
    && bool_decide ((MuteStateChanged, onMuteStateChanged) ∈ listeners f)
  | None => false
  end.

(** A freshly constructed component showing [feed]. *)
Definition construct (heap : gmap nat CallFeed) (feed : nat)
    (el : option HTMLVideoElement) : World :=
  let w := mkWorld heap feed el (mkState false false) in
  mkWorld heap feed el (getDerivedStateFromProps w).

(** Two user-media feeds with nothing registered on them yet. *)
Definition sampleHeap : gmap nat CallFeed :=
  {[ 1%nat := mkFeed Usermedia 10 false false [] false;
     2%nat := mkFeed Usermedia 20 false false [] false ]}.

Definition sampleElement : HTMLVideoElement :=
  mkElement false false None false 0 0.

End VideoFeed.

(* ================================================================== *)
(** ** SpaceCreateMenu: alias derivation and the create button *)
(* ================================================================== *)

Module SpaceCreateMenu.
Import JS.

Inductive Visibility : Type := Public | Private.

#[global] Instance Visibility_eq_dec : EqDecision Visibility.
Proof. solve_decision. Defined.

Definition isAsciiUpper (c : N) : bool := (65 <=? c) && (c <=? 90).
Definition isAsciiLower (c : N) : bool := (97 <=? c) && (c <=? 122).
Definition isAsciiDigit (c : N) : bool := (48 <=? c) && (c <=? 57).

(** The class [a-z0-9_-] under the [i] flag: without the [u] flag a
    code unit above 127 never folds onto an ASCII letter, so the class
    matches the ASCII letters of both cases, the digits, [_] and [-]. *)
Definition inAliasClass (c : N) : bool :=
  isAsciiLower c || isAsciiUpper c || isAsciiDigit c
  || (c =? 95) || (c =? 45).

(** [String.prototype.toLowerCase] on ASCII-only input. *)
Definition asciiToLowerCase (s : jsstring) : jsstring :=
  (λ c, if isAsciiUpper c then c + 32 else c) <$> s.

Section NameToAlias.
(** [String.prototype.toLowerCase] follows the Unicode case tables,
    which are not reproduced here. *)
Variable toLowerCase : jsstring → jsstring.

Definition nameToAlias (name domain : jsstring) : jsstring :=
  let localpart :=
    replaceRuns (λ c, negb (inAliasClass c)) []
      (replaceRuns isWhiteSpace (lit "-") (toLowerCase (trim name))) in
  lit "#" ++ localpart ++ lit ":" ++ domain.
End NameToAlias.

(** Replacing every run of white space by one hyphen, written as a
    single left-to-right pass that remembers whether the previous code
    unit was white space. *)
Fixpoint hyphenate (inRun : bool) (s : jsstring) : jsstring :=
  match s with
  | [] => []
  | c :: s' =>
    if isWhiteSpace c
    then (if inRun then [] else lit "-") ++ hyphenate true s'
    else c :: hyphenate false s'
  end.

(* ---------------------------------------------------------------- *)
(** *** The create button *)

(** [alias.indexOf(":")] *)
Fixpoint indexOfColon (s : jsstring) : option nat :=
  match s with
  | [] => None
  | c :: s' => if c =? 58 then Some O else S <$> indexOfColon s'
  end.

(** [alias.substr(1, alias.indexOf(":") - 1)]: a length that is not
    positive gives the empty string. *)
Definition aliasLocalpart (alias : jsstring) : jsstring :=
  match indexOfColon alias with
  | None => []
  | Some i => take (i - 1) (drop 1 alias)
  end.

Inductive Preset : Type := PublicChat | PrivateChat.
Inductive HistoryVisibility : Type := WorldReadable | Invited.

(** The argument of [createRoom], without its constant fields. *)
Record CreateRoomOpts : Type := mkCreate {
  preset : Preset;
  createName : jsstring;
  events_default : N;
  invite : option N;
  room_alias_name : nullable;
  createTopic : jsstring;
  historyVisibility : HistoryVisibility
}.

(** The hook state of the menu. *)
Record Menu : Type := mkMenu {
  visibility : option Visibility;
  busy : bool;
  name : jsstring;
  alias : jsstring;
  topic : jsstring
}.

(** Where a running [onSpaceCreateClick] is suspended. *)
Inductive Await : Type :=
| AwaitNameValidation
| AwaitAliasValidation
| AwaitCreateRoom.

(** One running call of [onSpaceCreateClick]: the render values it
    closed over and the [await] it is suspended at. *)
Record Activation : Type := mkActivation {
  closure : Menu;
  suspended : Await
}.

Record World : Type := mkWorld {
  menu : Menu;
  running : list Activation;
  validateCalls : nat;                 (* calls of a field's validate *)
  createRoomCalls : list CreateRoomOpts;
  finishedCalls : nat;                 (* calls of onFinished *)
  loggedErrors : nat
}.

Definition setBusy (b : bool) (w : World) : World :=
  mkWorld (mkMenu (visibility (menu w)) b (name (menu w)) (alias (menu w))
                  (topic (menu w)))
          (running w) (validateCalls w) (createRoomCalls w)
          (finishedCalls w) (loggedErrors w).

Definition setVisibility (v : option Visibility) (w : World) : World :=
  mkWorld (mkMenu v (busy (menu w)) (name (menu w)) (alias (menu w))
                  (topic (menu w)))
          (running w) (validateCalls w) (createRoomCalls w)
          (finishedCalls w) (loggedErrors w).

Definition validate (w : World) : World :=
  mkWorld (menu w) (running w) (S (validateCalls w)) (createRoomCalls w)
          (finishedCalls w) (loggedErrors w).

Definition setRunning (r : list Activation) (w : World) : World :=
  mkWorld (menu w) r (validateCalls w) (createRoomCalls w)
          (finishedCalls w) (loggedErrors w).

Definition createOpts (m : Menu) : CreateRoomOpts :=
  let public := bool_decide (visibility m = Some Public) in
  {| preset := if public then PublicChat else PrivateChat;
     createName := name m;
     events_default := 100;
     invite := if public then Some 0 else None;
     room_alias_name :=
       match alias m with
       | _ :: _ => if public then JStr (aliasLocalpart (alias m)) else JUndefined
       | [] => JUndefined
       end;
     createTopic := topic m;
     historyVisibility := if public then WorldReadable else Invited |}.

Definition createRoom (m : Menu) (w : World) : World :=
  mkWorld (menu w) (running w) (validateCalls w)
          (createRoomCalls w ++ [createOpts m])
          (finishedCalls w) (loggedErrors w).

(** [onSpaceCreateClick] from its start to its first [await].  The
    handler reads the [busy] of the latest render. *)
Definition onSpaceCreateClick (w : World) : World :=
  if busy (menu w) then w
  else
    let m := menu w in
    let w := setBusy true w in
    let w := validate w in
    setRunning (running w ++ [mkActivation m AwaitNameValidation]) w.

(** The continuation of activation [i] when the promise it waits for
    settles with [ok], for the case that the refs it uses hold their
    fields. *)
Definition resume (i : nat) (ok : bool) (w : World) : World :=
  match running w !! i with
  | None => w
  | Some a =>
    let others := delete i (running w) in
    let suspend at_ w :=
      setRunning (others ++ [mkActivation (closure a) at_]) w in
    let callCreateRoom w := suspend AwaitCreateRoom (createRoom (closure a) w) in
    match suspended a with
    | AwaitNameValidation =>
      if ok then
        if bool_decide (visibility (closure a) = Some Public)
        then suspend AwaitAliasValidation (validate w)
        else callCreateRoom w
      else setBusy false (validate (setRunning others w))
    | AwaitAliasValidation =>
      if ok then callCreateRoom w
      else setBusy false (validate (setRunning others w))
    | AwaitCreateRoom =>
      let w := setRunning others w in
      if ok
      then mkWorld (menu w) (running w) (validateCalls w) (createRoomCalls w)
                   (S (finishedCalls w)) (loggedErrors w)
      else mkWorld (menu w) (running w) (validateCalls w) (createRoomCalls w)
                   (finishedCalls w) (S (loggedErrors w))
    end
  end.

(** The form, with its name field, is rendered once a visibility has
    been chosen; the address field only for a public space.  The ref of
    a field that is not rendered holds [null]. *)
Definition formMounted (w : World) : bool :=
  match visibility (menu w) with Some _ => true | None => false end.

Definition aliasFieldMounted (w : World) : bool :=
  bool_decide (visibility (menu w) = Some Public).

(** Whether the continuation of activation [i] calls a method on a ref
    that holds [null]: [spaceNameField.current.focus()] after a failed
    name validation, [spaceAliasField.current.validate(..)] after a
    successful one for a public space, and
    [spaceAliasField.current.focus()] after a failed address
    validation. *)
Definition throws (i : nat) (ok : bool) (w : World) : bool :=
  match running w !! i with
  | None => false
  | Some a =>
    match suspended a with
    | AwaitNameValidation =>
      if ok
      then bool_decide (visibility (closure a) = Some Public)
           && negb (aliasFieldMounted w)
      else negb (formMounted w)
    | AwaitAliasValidation => if ok then false else negb (aliasFieldMounted w)
    | AwaitCreateRoom => false
    end
  end.

(** An awaited promise settles.  A continuation that throws outside the
    [try] ends its call there, before it has done anything else. *)
Definition settle (i : nat) (ok : bool) (w : World) : World :=
  if throws i ok w then setRunning (delete i (running w)) w
  else resume i ok w.

Inductive Event : Type :=
| EvClick                                   (* submit or the Create button *)
| EvSettle (i : nat) (ok : bool)            (* an awaited promise settles *)
| EvSetVisibility (v : option Visibility).  (* Public, Private or back *)

(** The form and the Create button exist only while the form is
    rendered; the back button is not disabled while the menu is busy. *)
Definition step (w : World) (e : Event) : World :=
  match e with
  | EvClick => if formMounted w then onSpaceCreateClick w else w
  | EvSettle i ok => settle i ok w
  | EvSetVisibility v => setVisibility v w
  end.

Definition run (w : World) (evs : list Event) : World := fold_left step evs w.

Definition initial : World :=
  mkWorld (mkMenu None false [] [] []) [] 0 [] 0 0.

(** [createRoom] calls that have been made and have not settled yet. *)
Definition createRoomInFlight (w : World) : nat :=
  length (List.filter (λ a, match suspended a with
                            | AwaitCreateRoom => true
                            | _ => false
                            end) (running w)).

(** What holds in every reachable world: no call of the handler is
    running, or the menu is busy and exactly one is. *)
Definition oneRunning (w : World) : Prop :=
  running w = [] ∨ (busy (menu w) = true ∧ ∃ a, running w = [a]).

End SpaceCreateMenu.

(* ================================================================== *)
(** ** LeftPanelLiveShareWarning *)
(* ================================================================== *)

Module LeftPanelLiveShareWarning.
Import JS.

Record OwnBeaconStore : Type := mkStore { isMonitoringLiveLocation : bool }.

Inductive Child : Type :=
| LiveLocationIcon (height : N)
| Text (s : jsstring).

Record Div : Type := mkDiv {
  className : list jsstring;
  title : nullable;
  child : Child
}.

Section Render.
(** [languageHandler._t]. *)
Variable _t : jsstring → jsstring.

(** The function component; [isMinimized] is an optional prop and
    [None] is the [null] React renders nothing for. *)
Definition LeftPanelLiveShareWarning (store : OwnBeaconStore)
    (isMinimized : option bool) : option Div :=
  let isMonitoringLiveLocation := isMonitoringLiveLocation store in
  if negb isMonitoringLiveLocation then None
  else
    let minimized := default false isMinimized in
    Some {| className :=
              lit "mx_LeftPanelLiveShareWarning" ::
              (if minimized
               then [lit "mx_LeftPanelLiveShareWarning__minimized"]
               else []);
            title :=
              if minimized
              then JStr (_t (lit "You are sharing your live location"))
              else JUndefined;
            child :=
              if minimized then LiveLocationIcon 10
              else Text (_t (lit "You are sharing your live location")) |}.
End Render.

End LeftPanelLiveShareWarning.

(* ================================================================== *)
(** ** RoomDirectory: opening rooms, the protocol list, scenarios *)
(* ================================================================== *)

Module RoomDirectoryActions.
Import JS RoomDirectory.

(** [ViewRoomPayload.oob_data]. *)
Record OobData : Type := mkOob {
  oobAvatarUrl : nullable;
  oobName : jsstring
}.

(** The [Action.ViewRoom] payload [showRoom] builds; an absent property
    is [None]. *)
Record ViewRoomPayload : Type := mkView {
  auto_join : bool;
  should_peek : bool;
  metricsTrigger : jsstring;
  oob_data : option OobData;
  via_servers : option (list jsstring);
  room_alias : option jsstring;
  view_room_id : option jsstring
}.

Inductive Payload : Type :=
| ViewRoom (p : ViewRoomPayload)
| RequireRegistration
| ViewCreateRoom (public : bool) (defaultName : jsstring).

(** What a handler does to the outside, in order. *)
Inductive Effect : Type :=
| Finished                                     (* props.onFinished(false) *)
| Dispatch (p : Payload)                       (* dis.dispatch *)
| ErrorDialog (title description : jsstring)   (* Modal.createTrackedDialog *)
| GetThirdpartyLocation (protocolName : jsstring)
    (fields : gmap (list N) PropertyValue)
| StopPropagation.

(** The effects of a call, and whether it ended in a TypeError. *)
Record Outcome : Type := mkOutcome {
  effects : list Effect;
  threw : bool
}.

Section Actions.
Context `{Env}.

(** [showRoom(room, roomAlias, autoJoin, shouldPeek)]; [room] may be
    null.  Reading [room.room_id] of a null room and calling a method of
    a null client are the TypeErrors. *)
Definition showRoom (room : option Room) (roomAlias : nullable)
    (autoJoin shouldPeek : bool) (w : World) : Outcome :=
  match room with
  | Some room =>
    match peg w with
    | None => mkOutcome [Finished] true
    | Some client =>
      if isGuest client && negb (world_readable room)
         && negb (guest_can_join room)
      then mkOutcome [Finished; Dispatch RequireRegistration] false
      else
        let roomAlias :=
          if truthy roomAlias then roomAlias else getDisplayAliasForRoom room in
        let oob :=
          mkOob (avatar_url room)
            (or_str (or_else (name room) roomAlias) (_t (lit "Unnamed room") [])) in
        let via :=
          if truthy (roomServer (state (this w)))
          then Some [toString (roomServer (state (this w)))] else None in
        mkOutcome
          [Finished;
           Dispatch (ViewRoom
             (mkView autoJoin shouldPeek (lit "RoomDirectory") (Some oob) via
                (if truthy roomAlias then Some (toString roomAlias) else None)
                (if truthy roomAlias then None else Some (room_id room))))]
          false
    end
  | None =>
    if truthy roomAlias
    then mkOutcome
           [Finished;
            Dispatch (ViewRoom
              (mkView autoJoin shouldPeek (lit "RoomDirectory") None None
                 (Some (toString roomAlias)) None))]
           false
    else mkOutcome [Finished] true
  end.

Definition showRoomAlias (alias : jsstring) (autoJoin : bool) (w : World)
    : Outcome :=
  showRoom None (JStr alias) autoJoin false w.






(** [alias.indexOf(':') == -1]. *)
Definition hasNoColon (alias : jsstring) : bool :=
  forallb (λ c, negb (c =? 58)) alias.

(** [onJoinFromSearchClick(alias)].  [lookup] stands for what
    [protocolNameForInstanceId] and [instanceForInstanceId] find for the
    selected instance in the protocol list: nothing, or the protocol's
    name with the protocol and the instance.  Calling
    [getThirdpartyLocation] of a null client is the TypeError. *)
Definition onJoinFromSearchClick (alias : jsstring)
    (lookup : option (jsstring * IProtocol * IInstance)) (w : World)
    : Outcome :=
  let st := state (this w) in
  if negb (truthy (instanceId st))
     || bool_decide (instanceId st = JStr ALL_ROOMS)
  then
    let alias :=
      if hasNoColon alias
      then alias ++ lit ":" ++ toString (roomServer st) else alias in
    showRoomAlias alias true w
  else
    let unable :=
      mkOutcome
        [ErrorDialog (_t (lit "Unable to join network") [])
           (_t (lit "%(brand)s does not know how to join a room on this network")
               [(lit "brand", brand)])]
        false in
    match lookup with
    | Some (protocolName, protocol, instance) =>
      match protocolName with
      | [] => unable
      | _ :: _ =>
        match getFieldsForThirdPartyLocation alias protocol instance with
        | None => unable
        | Some fields =>
          match peg w with
          | Some _ => mkOutcome [GetThirdpartyLocation protocolName fields] false
          | None => mkOutcome [] true
          end
        end
      end
    | None => unable
    end.


(* ---------------------------------------------------------------- *)
(** *** The protocol list *)






(* ---------------------------------------------------------------- *)
(** *** Scenarios *)

(** An event other than unmounting the directory or losing the client. *)
Definition calm (e : Event) : bool :=
  match e with
  | EvUnmount | EvClient None => false
  | _ => true
  end.

(** The scroll panel asks for more and the response to the request this
    sends, if it sends one, is the given page. *)
Definition scrollPage (w : World) (page : PublicRoomsData) : World :=
  step (step w (EvFillRequest false))
       (EvSettle (requestSeq w) (Fulfilled page)).

Definition scroll (w : World) (pages : list PublicRoomsData) : World :=
  fold_left scrollPage pages w.

End Actions.

(** The pages up to and including the first that carries no token. *)
Fixpoint pagesUsed (pages : list PublicRoomsData) : list PublicRoomsData :=
  match pages with
  | [] => []
  | p :: ps => p :: (if truthy (next_batch p) then pagesUsed ps else [])
  end.

(** Something is under way that will deal with the loading state: a
    request whose response will be accepted as things stand, or the
    debounce timer. *)
Definition awaited `{Env} (w : World) : Prop :=
  (∃ rid r, (rid, r) ∈ inflight w ∧ changedSince r w = false)
  ∨ timers w ≠ [].

(** The part of [spinnerInv] that does not speak of loading. *)
Definition numbered `{Env} (w : World) : Prop :=
  is_Some (peg w)
  ∧ unmounted (this w) = false
  ∧ NoDup (fst <$> inflight w)
  ∧ Forall (λ p, (fst p < requestSeq w)%nat) (inflight w).

(** What the directory needs to know to vouch for the loading state:
    it is mounted with a client, and the requests in flight have
    distinct numbers, all already handed out. *)
Definition spinnerInv `{Env} (w : World) : Prop :=
  is_Some (peg w)
  ∧ unmounted (this w) = false
  ∧ NoDup (fst <$> inflight w)
  ∧ Forall (λ p, (fst p < requestSeq w)%nat) (inflight w)
  ∧ (loading (state (this w)) = true → awaited w).

(** [alias?.trim() || ""]. *)
Definition typed (alias : nullable) : jsstring :=
  match alias with
  | JStr a => trim a
  | _ => []
  end.

(** A request carries what was recorded with it. *)
Definition asRecorded (r : Request) : Prop :=
  limit (opts r) = 20
  ∧ filter (opts r) =
      match sentFilterString r with
      | [] => None
      | _ :: _ => Some (sentFilterString r)
      end
  ∧ since (opts r) =
      (if truthy (sentNextBatch r) then Some (sentNextBatch r) else None)
  ∧ (server (opts r) = None ∨ server (opts r) = Some (sentRoomServer r))
  ∧ ¬ (include_all_networks (opts r) = true
       ∧ is_Some (third_party_instance_id (opts r))).

End RoomDirectoryActions.

(* ================================================================== *)
(** ** Regular expressions, and the test for room identifiers *)
(* ================================================================== *)

Module RegExp.
Import JS.

(** The patterns needed here: character classes, sequence, choice and
    repetition. *)
Inductive regex : Type :=
| Void
| Eps
| Cls (cls : N → bool)
| Cat (r1 r2 : regex)
| Alt (r1 r2 : regex)
| Star (r : regex).

(** [r+]. *)
Definition Plus (r : regex) : regex := Cat r (Star r).

(** The strings a pattern matches in full. *)
Inductive matches : regex → jsstring → Prop :=
| matches_eps : matches Eps []
| matches_cls cls c : cls c = true → matches (Cls cls) [c]
| matches_cat r1 r2 s1 s2 :
    matches r1 s1 → matches r2 s2 → matches (Cat r1 r2) (s1 ++ s2)
| matches_alt_l r1 r2 s : matches r1 s → matches (Alt r1 r2) s
| matches_alt_r r1 r2 s : matches r2 s → matches (Alt r1 r2) s
| matches_star_nil r : matches (Star r) []
| matches_star_cons r s1 s2 :
    matches r s1 → matches (Star r) s2 → matches (Star r) (s1 ++ s2).

Fixpoint acceptsEmpty (r : regex) : bool :=
  match r with
  | Void => false
  | Eps => true
  | Cls _ => false
  | Cat r1 r2 => acceptsEmpty r1 && acceptsEmpty r2
  | Alt r1 r2 => acceptsEmpty r1 || acceptsEmpty r2
  | Star _ => true
  end.

(** What remains to be matched after the code unit [c]. *)
Fixpoint deriv (c : N) (r : regex) : regex :=
  match r with
  | Void => Void
  | Eps => Void
  | Cls cls => if cls c then Eps else Void
  | Cat r1 r2 =>
    if acceptsEmpty r1
    then Alt (Cat (deriv c r1) r2) (deriv c r2)
    else Cat (deriv c r1) r2
  | Alt r1 r2 => Alt (deriv c r1) (deriv c r2)
  | Star r => Cat (deriv c r) (Star r)
  end.

(** [/^r/.test(s)]: some prefix of [s] matches [r]. *)
Fixpoint testAtStart (r : regex) (s : jsstring) : bool :=
  acceptsEmpty r
  || match s with
     | [] => false
     | c :: s' => testAtStart (deriv c r) s'
     end.

End RegExp.

Module RoomDirectorySearch.
Import JS RegExp.

(** [IFieldType]. *)
Record IFieldType : Type := mkFieldType {
  regexp : nullable;
  placeholder : jsstring
}.

(** [/^#[^\s]+:[^\s]/]. *)
Definition idPattern : regex :=
  Cat (Cls (λ c, c =? 35))
    (Cat (Plus (Cls (λ c, negb (isWhiteSpace c))))
       (Cat (Cls (λ c, c =? 58)) (Cls (λ c, negb (isWhiteSpace c))))).

Section Search.
(** [new RegExp(source).test(s)] for a pattern given as text. *)
Variable testSource : jsstring → jsstring → bool.

Definition stringLooksLikeId (s : jsstring) (fieldType : option IFieldType)
    : bool :=
  match fieldType with
  | Some ft =>
    if truthy (regexp ft) then testSource (toString (regexp ft)) s
    else testAtStart idPattern s
  | None => testAtStart idPattern s
  end.
End Search.

End RoomDirectorySearch.

(* ================================================================== *)
(** ** RoomDirectory: what is rendered *)
(* ================================================================== *)

Module RoomDirectoryRender.
Import JS RoomDirectory RoomDirectoryActions RoomDirectorySearch.

Inductive Footer : Type :=
| NoResults (query : jsstring)   (* No results for "query", and the button *)
| CreateNewRoom.                 (* the Create new room button alone *)

(** The [content] of [render]. *)
Inductive Content : Type :=
| ErrorText (text : nullable)
| ProtocolsSpinner
| ScrollPanel (table : option (list RoomCells)) (spinner : bool)
    (footer : option Footer).

Section Render.
Context `{Env}.
Variable testSource : jsstring → jsstring → bool.

(** [content]; [None] when [createRoomCells] is called without a
    client, which throws. *)
Definition content (w : World) : option Content :=
  let st := state (this w) in
  if truthy (error st) then Some (ErrorText (error st))
  else if protocolsLoading st then Some ProtocolsSpinner
  else
    let cells :=
      match publicRooms st with
      | [] => Some []
      | _ :: _ => (λ client, createRoomCells client <$> publicRooms st) <$> peg w
      end in
    (λ cells : list RoomCells,
       if (length cells =? 0)%nat && negb (loading st)
       then ScrollPanel None (loading st)
              (Some (NoResults (trim (filterString st))))
       else ScrollPanel (Some cells) (loading st)
              (if negb (loading st) && negb (truthy (nextBatch (this w)))
               then Some CreateNewRoom else None)) <$> cells.

(** [showJoinButton].  [fieldType] is [instanceExpectedFieldType] and
    [lookup] what [protocolNameForInstanceId] and [instanceForInstanceId]
    find, as in [onJoinFromSearchClick]. *)
Definition showJoinButton (filterString : jsstring)
    (fieldType : option IFieldType)
    (lookup : option (jsstring * IProtocol * IInstance)) : bool :=
  let showJoinButton := stringLooksLikeId testSource filterString fieldType in
  match lookup with
  | Some (_ :: _, protocol, instance) =>
    match getFieldsForThirdPartyLocation filterString protocol instance with
    | None => false
    | Some _ => showJoinButton
    end
  | _ => showJoinButton
  end.

End Render.

(** An event that is neither a choice in the network dropdown nor a
    failed request. *)
Definition keepsError (e : Event) : bool :=
  match e with
  | EvOptionChange _ _ | EvSettle _ (Rejected _) => false
  | _ => true
  end.

End RoomDirectoryRender.

(* ================================================================== *)
(** ** VideoFeed: re-rendering *)
(* ================================================================== *)

Module VideoFeedLifecycle.
Import VideoFeed.

(** A render caused by [setState] with the props unchanged.  The state
    is derived from the props again; a pure component whose state comes
    out the same does not update, otherwise [componentDidUpdate] runs
    with the same props and the previous state. *)
Definition rerender (w : World) : World :=
  let st := getDerivedStateFromProps w in
  if bool_decide (audioMuted st = audioMuted (state w)
                  ∧ videoMuted st = videoMuted (state w))
  then w
  else componentDidUpdate (props_feed w) (state w)
         (mkWorld (heap w) (props_feed w) (element w) st).

(** Both listeners set the state from the feed of the current props. *)
Definition onNewStreamHandler (w : World) : World := rerender w.
Definition onMuteStateChangedHandler (w : World) : World := rerender w.

Abbreviation newStreamPair := (NewStream, onNewStream).
Abbreviation muteStatePair := (MuteStateChanged, onMuteStateChanged).

(** How often a listener occurs in a list. *)
Definition cnt (x : CallFeedEvent * Listener)
    (l : list (CallFeedEvent * Listener)) : nat :=
  length (List.filter (λ y, bool_decide (y = x)) l).

(** How often a listener is registered on a feed. *)
Definition timesRegistered (x : CallFeedEvent * Listener) (feed : nat)
    (w : World) : nat :=
  match heap w !! feed with
  | Some f => cnt x (listeners f)
  | None => 0
  end.

(** Every listener is registered at most once on every feed, and the
    pair exactly once on the feed shown, if the heap has it. *)
Definition onceEach (w : World) : Prop :=
  (∀ id x, (timesRegistered x id w ≤ 1)%nat)
  ∧ (is_Some (heap w !! props_feed w) →
     timesRegistered newStreamPair (props_feed w) w = 1%nat
     ∧ timesRegistered muteStatePair (props_feed w) w = 1%nat).

(** What [updateFeed] does to the feed of the current props when the
    two feeds it is given differ. *)
Definition detached (f : CallFeed) : CallFeed :=
  mkFeed (purpose f) (stream f) (isAudioMuted f) (isVideoMuted f)
    (reverse (removeFirst muteStatePair
       (reverse (reverse (removeFirst newStreamPair (reverse (listeners f)))))))
    (if decide (purpose f = Usermedia) then false
     else measuringVolumeActivity f).

Definition attached (f : CallFeed) : CallFeed :=
  mkFeed (purpose f) (stream f) (isAudioMuted f) (isVideoMuted f)
    ((listeners f ++ [newStreamPair]) ++ [muteStatePair])
    (if decide (purpose f = Usermedia) then true
     else measuringVolumeActivity f).


Inductive Event : Type :=
| EvProps (feed : nat)                 (* the parent passes a feed *)
| EvNewStream                          (* onNewStream is called *)
| EvMuteStateChanged                   (* onMuteStateChanged is called *)
| EvFeed (id : nat) (audio video : bool) (newStream : nat).
                                       (* the SDK changes a feed *)

Definition step (w : World) (e : Event) : World :=
  match e with
  | EvProps feed => receiveProps feed w
  | EvNewStream => onNewStreamHandler w
  | EvMuteStateChanged => onMuteStateChangedHandler w
  | EvFeed id audio video newStream =>
    updFeed id (λ f, mkFeed (purpose f) newStream audio video (listeners f)
                       (measuringVolumeActivity f)) w
  end.

Definition run (w : World) (evs : list Event) : World := fold_left step evs w.

End VideoFeedLifecycle.

(* ================================================================== *)
(** ** SpaceCreateForm: the name and address fields *)
(* ================================================================== *)

Module SpaceCreateForm.
Import JS SpaceCreateMenu.

Section Form.
Variable toLowerCase : jsstring → jsstring.
(** [cli.getDomain()]. *)
Variable domain : jsstring.

(** [onChange] of the name field: the address follows the name as long
    as it is empty or is still the one derived from the old name. *)
Definition onNameChange (newName : jsstring) (m : Menu) : Menu :=
  let alias' :=
    if bool_decide (alias m = [])
       || bool_decide (alias m = nameToAlias toLowerCase (name m) domain)
    then nameToAlias toLowerCase newName domain
    else alias m in
  mkMenu (visibility m) (busy m) newName alias' (topic m).

(** [onChange] of the address field. *)
Definition onAliasChange (newAlias : jsstring) (m : Menu) : Menu :=
  mkMenu (visibility m) (busy m) (name m) newAlias (topic m).

(** [onChange] of the description field. *)
Definition onTopicChange (newTopic : jsstring) (m : Menu) : Menu :=
  mkMenu (visibility m) (busy m) (name m) (alias m) newTopic.

Definition typeNames (m : Menu) (names : list jsstring) : Menu :=
  fold_left (λ m n, onNameChange n m) names m.

(** Whether the address of [m] is empty or is the one derived from the
    name of [m] or from one of [names]. *)
Definition follows (m : Menu) (names : list jsstring) : bool :=
  bool_decide (alias m = [])
  || existsb (λ x, bool_decide (alias m = nameToAlias toLowerCase x domain))
       (name m :: names).

Definition setMenu (f : Menu → Menu) (w : World) : World :=
  mkWorld (f (menu w)) (running w) (validateCalls w) (createRoomCalls w)
          (finishedCalls w) (loggedErrors w).

Inductive FormEvent : Type :=
| EvMenu (e : Event)            (* a click, a settled promise, a visibility *)
| EvName (newName : jsstring)   (* the name field changes *)
| EvAlias (newAlias : jsstring) (* the address field changes *)
| EvTopic (newTopic : jsstring). (* the description field changes *)

(** The fields are disabled while the menu is busy, and they and the
    Create button exist only while the form is rendered. *)
Definition formStep (w : World) (e : FormEvent) : World :=
  match e with
  | EvMenu EvClick => if formMounted w then onSpaceCreateClick w else w
  | EvMenu (EvSettle i ok) => settle i ok w
  | EvMenu (EvSetVisibility v) => setVisibility v w
  | EvName n =>
    if formMounted w && negb (busy (menu w))
    then setMenu (onNameChange n) w else w
  | EvAlias a =>
    if aliasFieldMounted w && negb (busy (menu w))
    then setMenu (onAliasChange a) w else w
  | EvTopic t =>
    if formMounted w && negb (busy (menu w))
    then setMenu (onTopicChange t) w else w
  end.

Definition formRun (w : World) (evs : list FormEvent) : World :=
  fold_left formStep evs w.

End Form.

(** What the name, address and description of a menu are. *)
Definition sameFields (m m' : Menu) : Prop :=
  name m = name m' ∧ alias m = alias m' ∧ topic m = topic m'.

(** What holds in every world the form can reach: at most one call of
    the handler is running, only while the menu is busy, and it closed
    over the fields the form still shows; once [createRoom] has been
    called the menu is busy, that call is the only one, it got the name
    and the description the form shows and no alias name or the one cut
    out of the address shown, and nothing is being validated. *)
Definition formInv (w : World) : Prop :=
  (running w = []
   ∨ (busy (menu w) = true
      ∧ ∃ a, running w = [a] ∧ sameFields (closure a) (menu w)))
  ∧ (createRoomCalls w = []
     ∨ (busy (menu w) = true
        ∧ (∃ o, createRoomCalls w = [o]
                ∧ createName o = name (menu w)
                ∧ createTopic o = topic (menu w)
                ∧ (room_alias_name o = JUndefined
                   ∨ room_alias_name o = JStr (aliasLocalpart (alias (menu w)))))
        ∧ Forall (λ a, suspended a = AwaitCreateRoom) (running w))).

End SpaceCreateForm.

(* ================================================================== *)
(** * Properties *)
(* ================================================================== *)

Module JSFacts.
Import JS.

Lemma length_lit_dots : length (lit "...") = 3%nat.
Proof. reflexivity. Qed.

Lemma truthy_JStr v : truthy v = true → ∃ c s, v = JStr (c :: s).
Proof. destruct v as [| |[|c s]]; simpl; try discriminate. eauto. Qed.

Lemma or_str_spec a b :
  or_str a b = if truthy a then toString a else b.
Proof. by destruct a as [| |[|c s]]. Qed.

End JSFacts.

Module LeftPanelLiveShareWarningFacts.
Import JS LeftPanelLiveShareWarning.

(** C5: the warning renders nothing exactly when the store reports that
    live location is not monitored; otherwise it renders the warning
    element, whose content is the icon when minimized and the text when
    not. *)
Theorem C5_renders_iff_monitoring (_t : jsstring → jsstring)
    (store : OwnBeaconStore) (isMinimized : option bool) :
  (isMonitoringLiveLocation store = false
   ↔ LeftPanelLiveShareWarning _t store isMinimized = None)
  ∧ (isMonitoringLiveLocation store = true
     ↔ ∃ d, LeftPanelLiveShareWarning _t store isMinimized = Some d
            ∧ lit "mx_LeftPanelLiveShareWarning" ∈ className d
            ∧ child d =
                if default false isMinimized then LiveLocationIcon 10
                else Text (_t (lit "You are sharing your live location"))).
Proof.
  unfold LeftPanelLiveShareWarning.
  destruct (isMonitoringLiveLocation store); simpl; split.
  - split; discriminate.
  - split; [intros _ | done].
    eexists; split; [reflexivity |]. simpl. split; [left | done].
  - done.
  - split; [discriminate | intros (d & Hd & _); discriminate].
Qed.

End LeftPanelLiveShareWarningFacts.

Module RoomDirectoryFacts.
Import JS JSFacts RoomDirectory.

(* ---------------------------------------------------------------- *)
(** ** Room cells *)

Lemma cut_length (n : nat) (s : jsstring) :
  (length (if decide (n < length s)%nat
           then substring0 n s ++ lit "..." else s) ≤ n + 3)%nat.
Proof.
  case_decide.
  - rewrite length_app, length_lit_dots. unfold substring0.
    rewrite length_take. lia.
  - lia.
Qed.

(** C9: the name shown in a room cell has at most 83 code units and the
    string given to the HTML sanitizer at most 803; a name longer than
    80 is its first 80 code units followed by three dots, a topic longer
    than 800 its first 800 followed by three dots, and shorter ones are
    left as they are. *)
Theorem C9_cell_name_and_topic_bounded `{Env} (client : Client) (room : Room) :
  let cells := createRoomCells client room in
  let fullName :=
    or_str (or_else (name room) (getDisplayAliasForRoom room))
           (_t (lit "Unnamed room") []) in
  let fullTopic := or_str (topic room) [] in
  (length (cellName cells) ≤ 83)%nat
  ∧ cellName cells =
      (if decide (80 < length fullName)%nat
       then take 80 fullName ++ lit "..." else fullName)
  ∧ (length (sanitizerInput cells) ≤ 803)%nat
  ∧ sanitizerInput cells =
      (if decide (800 < length fullTopic)%nat
       then take 800 fullTopic ++ lit "..." else fullTopic)
  ∧ cellTopic cells = linkifyAndSanitizeHtml (sanitizerInput cells).
Proof.
  simpl. repeat split.
  - apply (cut_length 80).
  - apply (cut_length 800).
Qed.

(* ---------------------------------------------------------------- *)
(** ** Changing the server or network *)

Lemma getMoreRooms_frame `{Env} (w : World) :
  let w' := fst (getMoreRooms w) in
  localStorage w' = localStorage w
  ∧ nextBatch (this w') = nextBatch (this w)
  ∧ publicRooms (state (this w')) = publicRooms (state (this w))
  ∧ filterTimeout (this w') = filterTimeout (this w)
  ∧ timers w' = timers w
  ∧ clock w' = clock w
  ∧ history w' = history w.
Proof. unfold getMoreRooms. by destruct (peg w). Qed.

Lemma refreshRoomList_effect `{Env} (who : Caller) (w : World) :
  let w' := refreshRoomList who w in
  localStorage w' = localStorage w
  ∧ nextBatch (this w') = JNull
  ∧ publicRooms (state (this w')) = []
  ∧ filterTimeout (this w') = filterTimeout (this w)
  ∧ timers w' = timers w
  ∧ clock w' = clock w
  ∧ history w' = history w ++ [Refreshed (clock w) who].
Proof.
  unfold refreshRoomList.
  match goal with |- context [getMoreRooms ?x] =>
    destruct (getMoreRooms_frame x) as (-> & -> & -> & -> & -> & -> & ->)
  end.
  done.
Qed.

(** C6: a change of server or network stores the server under
    "mx_last_room_directory_server"; under
    "mx_last_room_directory_instance" it stores the instance id when one
    is given (a non-empty string) and removes the entry otherwise, so a
    value is stored there only if it is the instance id passed in; and
    the refresh starts from a state whose batch token is null and whose
    room list is empty. *)
Theorem C6_option_change_persists `{Env} (server : jsstring)
    (instanceId : nullable) (w : World) :
  let w' := onOptionChange server instanceId w in
  LAST_SERVER_KEY = lit "mx_last_room_directory_server"
  ∧ LAST_INSTANCE_KEY = lit "mx_last_room_directory_instance"
  ∧ localStorage w' !! LAST_SERVER_KEY = Some server
  ∧ localStorage w' !! LAST_INSTANCE_KEY =
      (if truthy instanceId then Some (toString instanceId) else None)
  ∧ (∀ v, localStorage w' !! LAST_INSTANCE_KEY = Some v → instanceId = JStr v)
  ∧ (∃ w1, w' = refreshRoomList ByOptionChange w1
           ∧ nextBatch (this w1) = JNull
           ∧ publicRooms (state (this w1)) = []
           ∧ roomServer (state (this w1)) = JStr server
           ∧ RoomDirectory.instanceId (state (this w1)) = instanceId)
  ∧ nextBatch (this w') = JNull
  ∧ publicRooms (state (this w')) = [].
Proof.
  intros w'.
  assert (Hkeys : LAST_SERVER_KEY ≠ LAST_INSTANCE_KEY) by (vm_compute; discriminate).
  assert (Hinst : localStorage w' !! LAST_INSTANCE_KEY =
      (if truthy instanceId then Some (toString instanceId) else None)).
  { subst w'. unfold onOptionChange.
    match goal with |- context [refreshRoomList _ ?x] =>
      destruct (refreshRoomList_effect ByOptionChange x) as (-> & _)
    end.
    destruct (truthy instanceId); simpl.
    - apply lookup_insert_eq.
    - apply lookup_delete_eq. }
  split; [reflexivity |]. split; [reflexivity |].
  split; [| split; [exact Hinst | split; [| split]]].
  - subst w'. unfold onOptionChange.
    match goal with |- context [refreshRoomList _ ?x] =>
      destruct (refreshRoomList_effect ByOptionChange x) as (-> & _)
    end.
    destruct (truthy instanceId); simpl.
    + rewrite lookup_insert_ne by done. apply lookup_insert_eq.
    + rewrite lookup_delete_ne by done. apply lookup_insert_eq.
  - intros v. rewrite Hinst.
    destruct instanceId as [| |[|c s]]; simpl; congruence.
  - eexists. split; [reflexivity |].
    by destruct (truthy instanceId).
  - subst w'. unfold onOptionChange.
    match goal with |- context [refreshRoomList _ ?x] =>
      destruct (refreshRoomList_effect ByOptionChange x) as (_ & -> & -> & _)
    end.
    done.
Qed.

(* ---------------------------------------------------------------- *)
(** ** Third-party location fields *)









(* ---------------------------------------------------------------- *)
(** ** Responses to requests that are out of date *)

Lemma changedSince_true `{Env} (r : Request) (w : World) :
  changedSince r w = true
  ↔ sentFilterString r ≠ filterString (state (this w))
    ∨ loose_neq (sentRoomServer r) (roomServer (state (this w))) = true
    ∨ loose_neq (sentNextBatch r) (nextBatch (this w)) = true.
Proof.
  unfold changedSince.
  rewrite !orb_true_iff, negb_true_iff, bool_decide_eq_false. tauto.
Qed.

Lemma changedSince_this `{Env} (r : Request) (w w' : World) :
  this w' = this w → changedSince r w' = changedSince r w.
Proof. unfold changedSince. by intros ->. Qed.

(** C1: when the filter string, the room server or the batch token
    recorded with a request differs (in the sense of [!=], which treats
    null and undefined alike) from the current one at the time the
    response arrives, either handler returns false and changes nothing;
    settling such a request leaves the component, and with it
    publicRooms, loading, error and nextBatch, as it was. *)
Theorem C1_changed_request_discarded `{Env} (rid : nat) (r : Request)
    (resp : Response) (w : World)
    (Hchanged :
       sentFilterString r ≠ filterString (state (this w))
       ∨ loose_neq (sentRoomServer r) (roomServer (state (this w))) = true
       ∨ loose_neq (sentNextBatch r) (nextBatch (this w)) = true) :
  handle r resp w = (w, RetBool false)
  ∧ (findRequest rid w = Some r →
     let w' := step w (EvSettle rid resp) in
     this w' = this w
     ∧ publicRooms (state (this w')) = publicRooms (state (this w))
     ∧ loading (state (this w')) = loading (state (this w))
     ∧ error (state (this w')) = error (state (this w))
     ∧ nextBatch (this w') = nextBatch (this w)
     ∧ settled w' = settled w ++ [(rid, RetBool false)]).
Proof.
  apply changedSince_true in Hchanged.
  assert (Hhandle : ∀ w0, this w0 = this w → handle r resp w0 = (w0, RetBool false)).
  { intros w0 Hw0. pose proof (changedSince_this r w w0 Hw0) as Hc.
    rewrite Hchanged in Hc.
    destruct resp; simpl; unfold onPublicRooms, onPublicRoomsError;
      by rewrite Hc. }
  split; [by apply Hhandle |].
  intros Hfind. simpl. rewrite Hfind.
  rewrite Hhandle by done. simpl. by repeat split.
Qed.

(* ---------------------------------------------------------------- *)
(** ** Fill requests *)

Lemma getMoreRooms_sent `{Env} (w : World) (cli : Client) :
  peg w = Some cli →
  ∃ req,
    snd (getMoreRooms w) = Pending (requestSeq w)
    ∧ inflight (fst (getMoreRooms w)) = inflight w ++ [(requestSeq w, req)]
    ∧ limit (opts req) = 20
    ∧ since (opts req) =
        (if truthy (nextBatch (this w)) then Some (nextBatch (this w)) else None)
    ∧ sentFilterString req = filterString (state (this w))
    ∧ sentRoomServer req = roomServer (state (this w))
    ∧ sentNextBatch req = nextBatch (this w).
Proof.
  intros Hpeg. unfold getMoreRooms. rewrite Hpeg. simpl.
  eexists. by repeat split.
Qed.

Lemma loose_neq_same (a : nullable) : loose_neq a a = false.
Proof. destruct a as [| |s]; simpl; [done | done |]. by rewrite bool_decide_true. Qed.

(** C4 as the code has it: a fill request sends a further request
    exactly when it is a forward fill, the stored batch token is a
    non-empty string and a Matrix client is present; otherwise it
    resolves to false at once and changes nothing.  The request asks for
    20 rooms and passes the stored token as [since]; the filter string,
    the server and the token recorded with it are the ones of the moment
    it is sent, so that it is current as long as none of them changes,
    and sending it leaves the rooms as they are.  When its response
    arrives while filter string, server and token are still the ones
    recorded and the component is mounted, the chunk is appended to
    publicRooms, the token of the response is stored, loading ends, and
    the promise resolves to true exactly when that token is a non-empty
    string.  A response that arrives after one of the three has changed,
    or after unmounting, changes nothing and resolves to false. *)
Theorem C4_fill_request `{Env} (backwards : bool) (w : World) :
  let w' := fst (onFillRequest backwards w) in
  let p := snd (onFillRequest backwards w) in
  ((∃ rid, p = Pending rid)
   ↔ backwards = false ∧ truthy (nextBatch (this w)) = true ∧ is_Some (peg w))
  ∧ ((∀ rid, p ≠ Pending rid) → p = Resolved false ∧ w' = w)
  ∧ (∀ rid, p = Pending rid →
       ∃ req, inflight w' = inflight w ++ [(rid, req)]
         ∧ limit (opts req) = 20
         ∧ since (opts req) = Some (nextBatch (this w))
         ∧ sentFilterString req = filterString (state (this w))
         ∧ sentRoomServer req = roomServer (state (this w))
         ∧ sentNextBatch req = nextBatch (this w)
         ∧ publicRooms (state (this w')) = publicRooms (state (this w))
         ∧ nextBatch (this w') = nextBatch (this w)
         ∧ unmounted (this w') = unmounted (this w)
         ∧ changedSince req w' = false
         ∧ (∀ w2 : World,
              changedSince req w2 = false
              ↔ filterString (state (this w2)) = filterString (state (this w))
                ∧ loose_neq (roomServer (state (this w)))
                            (roomServer (state (this w2))) = false
                ∧ loose_neq (nextBatch (this w)) (nextBatch (this w2)) = false)
         ∧ (∀ (data : PublicRoomsData) (w2 : World),
              changedSince req w2 = false → unmounted (this w2) = false →
              let w3 := fst (onPublicRooms req data w2) in
              publicRooms (state (this w3)) =
                publicRooms (state (this w2)) ++ default [] (chunk data)
              ∧ nextBatch (this w3) = next_batch data
              ∧ loading (state (this w3)) = false
              ∧ snd (onPublicRooms req data w2)
                = RetBool (truthy (next_batch data)))
         ∧ (∀ (data : PublicRoomsData) (w2 : World),
              changedSince req w2 = true ∨ unmounted (this w2) = true →
              onPublicRooms req data w2 = (w2, RetBool false))).
Proof.
  unfold onFillRequest.
  destruct backwards; simpl.
  { split; [| split].
    - split; [intros [? ?]; done | intros [? _]; done].
    - done.
    - done. }
  destruct (truthy (nextBatch (this w))) eqn:Htok; simpl.
  2:{ split; [| split].
      - split; [intros [? ?]; done | intros (_ & ? & _); done].
      - done.
      - done. }
  destruct (peg w) as [cli|] eqn:Hpeg.
  - destruct (getMoreRooms_sent w cli Hpeg)
      as (req & Hp & Hin & Hlimit & Hsince & Hf & Hs & Hb).
    rewrite Htok in Hsince.
    assert (Hthis : publicRooms (state (this (fst (getMoreRooms w))))
                    = publicRooms (state (this w))
                    ∧ nextBatch (this (fst (getMoreRooms w))) = nextBatch (this w)
                    ∧ unmounted (this (fst (getMoreRooms w))) = unmounted (this w)
                    ∧ filterString (state (this (fst (getMoreRooms w))))
                      = filterString (state (this w))
                    ∧ roomServer (state (this (fst (getMoreRooms w))))
                      = roomServer (state (this w))).
    { unfold getMoreRooms. by rewrite Hpeg. }
    destruct Hthis as (Hrooms & Hnb & Hum & Hfs & Hrs).
    assert (Hcur : ∀ w2 : World,
              changedSince req w2 = false
              ↔ filterString (state (this w2)) = filterString (state (this w))
                ∧ loose_neq (roomServer (state (this w)))
                            (roomServer (state (this w2))) = false
                ∧ loose_neq (nextBatch (this w)) (nextBatch (this w2)) = false).
    { intros w2. unfold changedSince. rewrite Hf, Hs, Hb.
      rewrite !orb_false_iff, negb_false_iff, bool_decide_eq_true.
      split; [intros [[? ?] ?] | intros (? & ? & ?)]; by repeat split. }
    rewrite Hp, Hin. split; [| split].
    + split; [intros _ | by eauto]. by repeat split.
    + intros Hno. by destruct (Hno (requestSeq w)).
    + intros rid [= <-]. exists req.
      repeat (split; [done |]).
      split; [| split; [exact Hcur | split]].
      * apply Hcur. rewrite Hfs, Hrs, Hnb, !loose_neq_same. done.
      * intros data w2 Hc Hm. unfold onPublicRooms. by rewrite Hc, Hm.
      * intros data w2 [Hc | Hm]; unfold onPublicRooms.
        -- by rewrite Hc.
        -- rewrite Hm. by destruct (changedSince req w2).
  - unfold getMoreRooms. rewrite Hpeg. simpl. split; [| split].
    + split; [intros [? ?]; done | intros (_ & _ & [? ?]); done].
    + done.
    + done.
Qed.

(* ---------------------------------------------------------------- *)
(** ** The debounce timer *)

Lemma snoc_split {A} (os pre post : list A) (x y : A) :
  os ++ [x] = pre ++ y :: post →
  (post = [] ∧ pre = os ∧ y = x)
  ∨ ∃ post', post = post' ++ [x] ∧ os = pre ++ y :: post'.
Proof.
  destruct post as [|z post _] using rev_ind.
  - intros [-> ->]%app_inj_tail. by left.
  - replace (pre ++ y :: post ++ [z]) with ((pre ++ y :: post) ++ [z])
      by (by rewrite <- app_assoc).
    intros [-> ->]%app_inj_tail. right. by exists post.
Qed.

Lemma lastCall_snoc_call (c : N) (os : list Occurrence) :
  lastCall c (os ++ [FilterChanged c]).
Proof. exists os, []. split; [done | constructor]. Qed.

Lemma lastCall_snoc_quiet (c : N) (os : list Occurrence) (o : Occurrence) :
  lastCall c os → quiet [o] → lastCall c (os ++ [o]).
Proof.
  intros (pre1 & pre2 & -> & Hq) Ho. exists pre1, (pre2 ++ [o]). split.
  - by rewrite <- app_assoc.
  - by apply Forall_app.
Qed.

Lemma debounced_snoc_other (os : list Occurrence) (o : Occurrence) :
  debounced os → (∀ t, o ≠ Refreshed t ByDebounce) → debounced (os ++ [o]).
Proof.
  intros Hd Ho pre post t [(_ & _ & Heq) | (post' & _ & ->)]%snoc_split.
  - by destruct (Ho t).
  - by eapply Hd.
Qed.

Lemma debounced_snoc_debounce (os : list Occurrence) (c t : N) :
  debounced os → lastCall c os → c + 700 ≤ t →
  debounced (os ++ [Refreshed t ByDebounce]).
Proof.
  intros Hd Hc Hle pre post t' [(_ & -> & [= ->]) | (post' & _ & ->)]%snoc_split.
  - by exists c.
  - by eapply Hd.
Qed.

Lemma quiet_refreshed (t : N) (who : Caller) :
  who ≠ ByDebounce → quiet [Refreshed t who].
Proof. intros Hw. constructor; [by destruct who | constructor]. Qed.

Lemma timerInv_mount `{Env} (initialText : nullable) (cli : option Client)
    (storage : gmap (list N) (list N)) :
  timerInv (mount initialText cli storage).
Proof.
  unfold mount, componentDidMount.
  match goal with |- context [refreshRoomList _ ?x] =>
    destruct (refreshRoomList_effect ByMount x) as (_ & _ & _ & Hft & Htm & _ & Hh)
  end.
  split.
  - left. by rewrite Htm.
  - rewrite Hh. by apply (debounced_snoc_other []); [intros [|? ?] ? ? ? | ].
Qed.

(** Cancelling the timer the component remembers leaves none pending. *)
Lemma cancel_pending (w w0 : World) :
  timerInv w → timers w0 = timers w →
  filterTimeout (this w0) = filterTimeout (this w) →
  timers (match filterTimeout (this w0) with
          | Some h => clearTimeout h w0
          | None => w0
          end) = [].
Proof.
  intros [[Hnone | (h & c & Hone & Hft & _)] _] Htm Hf.
  - destruct (filterTimeout (this w0)); simpl; rewrite Htm, Hnone; done.
  - rewrite Hf, Hft. simpl. rewrite Htm, Hone. simpl.
    by rewrite Pos.eqb_refl.
Qed.

Lemma cancel_pending_frame (w0 : World) :
  let w1 := match filterTimeout (this w0) with
            | Some h => clearTimeout h w0
            | None => w0
            end in
  this w1 = this w0 ∧ history w1 = history w0 ∧ clock w1 = clock w0
  ∧ timerSeq w1 = timerSeq w0.
Proof. by destruct (filterTimeout (this w0)). Qed.

Lemma timerInv_onFilterChange `{Env} (alias : nullable) (w : World) :
  timerInv w →
  timers (onFilterChange alias w) = [(timerSeq w, clock w + 700)]
  ∧ timerInv (onFilterChange alias w).
Proof.
  intros Hinv. unfold onFilterChange.
  match goal with |- context [setTimeout 700 ?x] => set (w3 := x) end.
  assert (Htm : timers w3 = []) by (by apply (cancel_pending w)).
  destruct (cancel_pending_frame
              (setState (λ s, mkState (publicRooms s) (loading s)
                 (protocolsLoading s) (error s) (instanceId s) (roomServer s)
                 match alias with JStr a => trim a | _ => [] end)
                 (note (FilterChanged (clock w)) w)))
    as (Hth & Hh & Hck & Hts).
  fold w3 in Hth, Hh, Hck, Hts. simpl in Hh, Hck, Hts.
  unfold setTimeout. simpl. rewrite Htm, Hck, Hts. simpl.
  split; [done |]. split; simpl.
  - right. exists (timerSeq w), (clock w). rewrite Hh.
    split; [done |]. split; [done |]. apply lastCall_snoc_call.
  - rewrite Hh. apply debounced_snoc_other; [apply Hinv | done].
Qed.

Lemma timerInv_refresh `{Env} (who : Caller) (w w0 : World) :
  who ≠ ByDebounce → timerInv w →
  timers w0 = timers w → filterTimeout (this w0) = filterTimeout (this w) →
  history w0 = history w →
  timerInv (refreshRoomList who w0).
Proof.
  intros Hwho [H1 H2] Htm Hft Hh.
  destruct (refreshRoomList_effect who w0) as (_ & _ & _ & Hft' & Htm' & _ & Hh').
  split.
  - rewrite Htm', Hft', Hh', Htm, Hft, Hh.
    destruct H1 as [? | (h & c & ? & ? & ?)]; [by left | right].
    exists h, c. split; [done |]. split; [done |].
    apply lastCall_snoc_quiet; [done | by apply quiet_refreshed].
  - rewrite Hh', Hh. apply debounced_snoc_other; [done |].
    intros t [= _ ->]. done.
Qed.

Lemma dueTimer_inv (w : World) (h : positive) (due : N) :
  timerInv w → dueTimer w = Some (h, due) →
  ∃ c, timers w = [(h, c + 700)] ∧ lastCall c (history w) ∧ c + 700 ≤ clock w.
Proof.
  intros [[Hnone | (h' & c & Hone & _ & Hc)] _]; unfold dueTimer.
  - by rewrite Hnone.
  - rewrite Hone. simpl. destruct (c + 700 <=? clock w) eqn:Hle; [| done].
    intros [= <- <-]. exists c. split; [done |]. split; [done |].
    by apply N.leb_le.
Qed.

Lemma handle_frame `{Env} (r : Request) (resp : Response) (w : World) :
  let w' := fst (handle r resp w) in
  timers w' = timers w ∧ filterTimeout (this w') = filterTimeout (this w)
  ∧ history w' = history w ∧ clock w' = clock w.
Proof.
  destruct resp; simpl; unfold onPublicRooms, onPublicRoomsError;
    destruct (changedSince r w), (unmounted (this w)); done.
Qed.

Lemma timerInv_same (w w' : World) :
  timerInv w → timers w' = timers w →
  filterTimeout (this w') = filterTimeout (this w) →
  history w' = history w → timerInv w'.
Proof. unfold timerInv. by intros ? -> -> ->. Qed.

Lemma timerInv_step `{Env} (w : World) (e : Event) :
  timerInv w → timerInv (step w e).
Proof.
  intros Hinv. destruct e as [alias | | server iid | backwards | rid resp
                              | ms | | cli |]; simpl.
  - by apply timerInv_onFilterChange.
  - unfold onFilterClear.
    match goal with |- context [refreshRoomList _ ?x] => set (w2 := x) end.
    assert (Htm : timers w2 = []) by (by apply (cancel_pending w)).
    destruct (refreshRoomList_effect ByFilterClear w2)
      as (_ & _ & _ & _ & Htm' & _ & Hh').
    split.
    + left. by rewrite Htm'.
    + rewrite Hh'. apply debounced_snoc_other; [| done].
      subst w2. match goal with |- context [filterTimeout (this ?x)] =>
        destruct (cancel_pending_frame x) as (_ & -> & _) end.
      apply Hinv.
  - unfold onOptionChange.
    apply (timerInv_refresh _ w); [done | done | | |];
      by destruct (truthy iid).
  - unfold onFillRequest.
    destruct (backwards || negb (truthy (nextBatch (this w)))); [done |].
    destruct (getMoreRooms_frame w) as (_ & _ & _ & ? & ? & _ & ?).
    by apply (timerInv_same w).
  - destruct (findRequest rid w) as [r|]; [| done].
    match goal with |- context [handle r resp ?x] =>
      pose proof (handle_frame r resp x) as (? & ? & ? & _);
      destruct (handle r resp x) as [w1 c] end.
    by apply (timerInv_same w).
  - by apply (timerInv_same w).
  - destruct (dueTimer w) as [[h due]|] eqn:Hdue; [| done].
    destruct (dueTimer_inv w h due Hinv Hdue) as (c & Htm & Hc & Hle).
    unfold filterTimeoutCallback.
    match goal with |- context [refreshRoomList _ ?x] =>
      destruct (refreshRoomList_effect ByDebounce x)
        as (_ & _ & _ & _ & Htm' & _ & Hh') end.
    simpl in Htm', Hh'. split.
    + left. rewrite Htm', Htm. simpl. by rewrite Pos.eqb_refl.
    + rewrite Hh'. eapply debounced_snoc_debounce; [apply Hinv | done | done].
  - by apply (timerInv_same w).
  - unfold componentWillUnmount. split.
    + left. simpl. by apply (cancel_pending w).
    + simpl. match goal with |- context [history ?x] =>
        replace (history x) with (history w) by (by destruct (filterTimeout (this w)))
      end. apply Hinv.
Qed.

Lemma timerInv_run `{Env} (evs : list Event) (w : World) :
  timerInv w → timerInv (run w evs).
Proof.
  revert w. induction evs as [|e evs IH]; intros w Hinv; [done |].
  simpl. apply IH. by apply timerInv_step.
Qed.

(** C3: after any sequence of events on a mounted directory at most one
    debounce timer is pending, and it is the one [filterTimeout] names;
    a call of [onFilterChange] leaves exactly one timer pending, its own,
    due 700 ms after the call; and every refresh made by the timer comes
    at least 700 ms after the latest [onFilterChange] call before it,
    with no other refresh by the timer since that call, so the calls of
    one burst are answered by at most one refresh. *)
Theorem C3_debounce_single_timer `{Env} (initialText : nullable)
    (cli : option Client) (storage : gmap (list N) (list N))
    (evs : list Event) :
  let w := run (mount initialText cli storage) evs in
  (length (timers w) ≤ 1)%nat
  ∧ (∀ h due, (h, due) ∈ timers w → filterTimeout (this w) = Some h)
  ∧ (∀ alias, timers (onFilterChange alias w) = [(timerSeq w, clock w + 700)])
  ∧ (∀ pre post t, history w = pre ++ Refreshed t ByDebounce :: post →
       ∃ pre1 pre2 c,
         pre = pre1 ++ FilterChanged c :: pre2
         ∧ (∀ c', FilterChanged c' ∉ pre2)
         ∧ (∀ t', Refreshed t' ByDebounce ∉ pre2)
         ∧ c + 700 ≤ t).
Proof.
  intros w.
  assert (Hinv : timerInv w) by apply timerInv_run, timerInv_mount.
  split; [| split; [| split]].
  - destruct Hinv as [[-> | (h & c & -> & _)] _]; simpl; lia.
  - intros h due Hin.
    destruct Hinv as [[Hnone | (h' & c & Hone & Hft & _)] _].
    + rewrite Hnone in Hin. by apply elem_of_nil in Hin.
    + rewrite Hone in Hin. apply list_elem_of_singleton in Hin.
      by injection Hin as -> _.
  - intros alias. by apply timerInv_onFilterChange.
  - intros pre post t Hsplit.
    destruct Hinv as [_ Hd].
    destruct (Hd pre post t Hsplit) as (c & (pre1 & pre2 & -> & Hq) & Hle).
    exists pre1, pre2, c. split; [done |]. split; [| split; [| done]].
    + intros c' Hin. unfold quiet in Hq. rewrite Forall_forall in Hq.
      by apply (Hq _ Hin).
    + intros t' Hin. unfold quiet in Hq. rewrite Forall_forall in Hq.
      by apply (Hq _ Hin).
Qed.

(* ---------------------------------------------------------------- *)
(** ** Concrete runs *)

Section Concrete.
#[local] Existing Instance sampleEnv.

(** C1 at a concrete input: the first request of a freshly mounted
    directory is answered after the user has typed "x". *)
Lemma C1_changed_request_discarded_witness :
  let w := run (mount JNull (Some sampleClient) noStorage)
               [EvFilterChange (JStr (lit "x"))] in
  let r := mkRequest (mkOpts 20 (Some JNull) false None None None) [] JNull JNull in
  let resp := Fulfilled (mkData (Some [sampleRoom "!a"]) (JStr (lit "t1"))) in
  handle r resp w = (w, RetBool false)
  ∧ (findRequest 0 w = Some r →
     let w' := step w (EvSettle 0 resp) in
     this w' = this w
     ∧ publicRooms (state (this w')) = publicRooms (state (this w))
     ∧ loading (state (this w')) = loading (state (this w))
     ∧ error (state (this w')) = error (state (this w))
     ∧ nextBatch (this w') = nextBatch (this w)
     ∧ settled w' = settled w ++ [(0%nat, RetBool false)]).
Proof.
  apply C1_changed_request_discarded.
  left. vm_compute. discriminate.
Defined.


(** The request used above is the one in flight at that point. *)
Example first_request_in_flight :
  let w := run (mount JNull (Some sampleClient) noStorage)
               [EvFilterChange (JStr (lit "x"))] in
  findRequest 0 w
  = Some (mkRequest (mkOpts 20 (Some JNull) false None None None) [] JNull JNull)
  ∧ filterString (state (this w)) = lit "x".
Proof. vm_compute. by split. Qed.

(** C4, the inputs at which the statement of the specification fails.
    The first page has arrived with the token "t1" and a forward fill
    has sent a request with [since] "t1".  The user then types "b"; when
    the response (one room, token "t2") arrives, the room is not
    appended and the promise resolves to false although the response
    carries a token.  And once the client is gone, a forward fill with a
    stored token sends nothing. *)
Lemma C4_fill_response_dropped_after_typing :
  let page1 := Fulfilled (mkData (Some [sampleRoom "!a"]) (JStr (lit "t1"))) in
  let page2 := Fulfilled (mkData (Some [sampleRoom "!b"]) (JStr (lit "t2"))) in
  let w1 := run (mount JNull (Some sampleClient) noStorage) [EvSettle 0 page1] in
  let w2 := fst (onFillRequest false w1) in
  let w3 := run w2 [EvFilterChange (JStr (lit "b")); EvSettle 1 page2] in
  let w4 := step w1 (EvClient None) in
  (nextBatch (this w1) = JStr (lit "t1")
   ∧ snd (onFillRequest false w1) = Pending 1
   ∧ (since ∘ opts ∘ snd <$> inflight w2) = [Some (JStr (lit "t1"))]
   ∧ publicRooms (state (this w2)) = [sampleRoom "!a"]
   ∧ publicRooms (state (this w3)) = [sampleRoom "!a"]
   ∧ settled w3 = [(0%nat, RetBool true); (1%nat, RetBool false)])
  ∧ (truthy (nextBatch (this w4)) = true
     ∧ onFillRequest false w4 = (w4, Resolved false)).
Proof. vm_compute. by repeat split. Qed.

(** A burst of three calls at 0, 100 and 300 ms: the timer does not run
    while the burst lasts, and runs once, at 1000 ms. *)
Example burst_refreshes_once :
  let w := run (mount JNull (Some sampleClient) noStorage)
             [EvFilterChange (JStr (lit "m")); EvElapse 100; EvTimer;
              EvFilterChange (JStr (lit "ma")); EvElapse 200; EvTimer;
              EvFilterChange (JStr (lit "mat")); EvElapse 699; EvTimer;
              EvElapse 1; EvTimer; EvElapse 5000; EvTimer] in
  history w = [Refreshed 0 ByMount; FilterChanged 0; FilterChanged 100;
               FilterChanged 300; Refreshed 1000 ByDebounce]
  ∧ timers w = []
  ∧ (sentFilterString ∘ snd <$> inflight w) = [[]; lit "mat"].
Proof. vm_compute. by repeat split. Qed.

(** A bridge that needs a network, taken from the instance, and a
    channel, typed by the user. *)
Example fields_for_irc :
  entries [lit "network"; lit "channel"]
    (getFieldsForThirdPartyLocation (lit "#matrix")
       (mkProtocol (Some [lit "network"; lit "channel"]))
       (mkInstance (lit "libera") {[ lit "network" := lit "libera.chat" ]}))
  = Some ([Some (StringValue (lit "libera.chat"));
           Some (StringValue (lit "#matrix"))], 2%nat)
  ∧ getFieldsForThirdPartyLocation (lit "#matrix")
      (mkProtocol (Some [lit "network"; lit "channel"]))
      (mkInstance (lit "libera") ∅)
    = None
  ∧ getFieldsForThirdPartyLocation (lit "#matrix") (mkProtocol None)
      (mkInstance (lit "libera") ∅)
    = None.
Proof. vm_compute. repeat split; reflexivity. Qed.

(** With an empty list of required fields the user input is stored under
    the name "undefined". *)
Example fields_for_no_required_field :
  entries [lit "undefined"]
    (getFieldsForThirdPartyLocation (lit "#matrix") (mkProtocol (Some []))
       (mkInstance (lit "libera") ∅))
  = Some ([Some (StringValue (lit "#matrix"))], 1%nat).
Proof. vm_compute. reflexivity. Qed.

(** A name of 100 code units is shown as its first 80 and three dots. *)
Example long_name_is_cut :
  let room := mkRoom (lit "!r") (JStr (replicate 100 97)) JUndefined JUndefined
                None JUndefined true false 3 in
  cellName (createRoomCells sampleClient room) = replicate 80 97 ++ lit "..."
  ∧ joinOrViewButton (createRoomCells sampleClient room) = Some JoinButton
  ∧ previewButton (createRoomCells sampleClient room) = true.
Proof. vm_compute. by repeat split. Qed.

(** An option change with and without an instance id. *)
Example option_change_storage :
  let w := mount JNull (Some sampleClient) noStorage in
  let w1 := onOptionChange (lit "matrix.org") (JStr (lit "gitter")) w in
  let w2 := onOptionChange (lit "example.org") JUndefined w1 in
  (getItem LAST_SERVER_KEY w1 = JStr (lit "matrix.org")
   ∧ getItem LAST_INSTANCE_KEY w1 = JStr (lit "gitter"))
  ∧ (getItem LAST_SERVER_KEY w2 = JStr (lit "example.org")
     ∧ getItem LAST_INSTANCE_KEY w2 = JNull)
  ∧ (opts ∘ snd <$> inflight w2)
    = [ mkOpts 20 (Some JNull) false None None None;
        mkOpts 20 (Some (JStr (lit "matrix.org"))) false (Some (lit "gitter"))
               None None;
        mkOpts 20 None false None None None ].
Proof. vm_compute. repeat split; reflexivity. Qed.

End Concrete.

End RoomDirectoryFacts.

Module SpaceCreateMenuFacts.
Import JS JSFacts SpaceCreateMenu.

(* ---------------------------------------------------------------- *)
(** ** nameToAlias *)

Lemma skipRun_length (cls : N → bool) (s : jsstring) :
  (length (skipRun cls s) ≤ length s)%nat.
Proof.
  induction s as [|c s IH]; simpl; [lia |].
  destruct (cls c); simpl; lia.
Qed.

Lemma skipRun_filter (cls : N → bool) (s : jsstring) :
  List.filter (λ c, negb (cls c)) (skipRun cls s)
  = List.filter (λ c, negb (cls c)) s.
Proof.
  induction s as [|c s IH]; simpl; [done |].
  destruct (cls c) eqn:Hc; simpl; [done |]. by rewrite Hc.
Qed.

(** The fuel [replaceRuns] starts with is never used up: any fuel that
    covers the length gives the same result. *)
Lemma replaceRuns_fuel_enough (cls : N → bool) (r s : jsstring)
    (fuel fuel' : nat) :
  (length s ≤ fuel)%nat → (length s ≤ fuel')%nat →
  replaceRuns_fuel fuel cls r s = replaceRuns_fuel fuel' cls r s.
Proof.
  revert s fuel'. induction fuel as [|fuel IH]; intros [|c s] [|fuel'] H1 H2;
    simpl in *; try done; try lia.
  destruct (cls c).
  - f_equal. apply IH; pose proof (skipRun_length cls s); lia.
  - f_equal. apply IH; lia.
Qed.

(** Deleting the runs of a class is filtering its members out. *)
Lemma replaceRuns_delete (cls : N → bool) (s : jsstring) :
  replaceRuns cls [] s = List.filter (λ c, negb (cls c)) s.
Proof.
  unfold replaceRuns. generalize (le_n (length s)).
  generalize (length s) at 2 3 as fuel. intros fuel. revert s.
  induction fuel as [|fuel IH]; intros [|c s] Hlen; simpl in *; try done; [lia |].
  destruct (cls c) eqn:Hc; simpl.
  - rewrite IH by (pose proof (skipRun_length cls s); lia).
    apply skipRun_filter.
  - f_equal. apply IH. lia.
Qed.

Lemma hyphenate_skip (s : jsstring) :
  hyphenate true s = hyphenate false (skipRun isWhiteSpace s).
Proof.
  induction s as [|c s IH]; simpl; [done |].
  destruct (isWhiteSpace c) eqn:Hc; simpl; [done |]. by rewrite Hc.
Qed.

(** The global replacement of [\s+] by a hyphen is the single pass. *)
Lemma replaceRuns_hyphenate (s : jsstring) :
  replaceRuns isWhiteSpace (lit "-") s = hyphenate false s.
Proof.
  unfold replaceRuns. generalize (le_n (length s)).
  generalize (length s) at 2 3 as fuel. intros fuel. revert s.
  induction fuel as [|fuel IH]; intros [|c s] Hlen; simpl in *; try done; [lia |].
  destruct (isWhiteSpace c) eqn:Hc.
  - rewrite IH by (pose proof (skipRun_length isWhiteSpace s); lia).
    by rewrite <- hyphenate_skip.
  - f_equal. apply IH. lia.
Qed.

Lemma hyphenate_elements (P : N → Prop) (b : bool) (s : jsstring) :
  P 45 → Forall P s → Forall P (hyphenate b s).
Proof.
  intros Hh Hs. revert b. induction Hs as [|c s Hc Hs IH]; intros b; simpl.
  - constructor.
  - destruct (isWhiteSpace c).
    + destruct b; simpl; [apply IH | constructor; [done | apply IH]].
    + constructor; [done | apply IH].
Qed.

(** Turns a boolean combination of range tests into a proposition. *)
Ltac reflect_ranges H :=
  repeat first
    [ rewrite orb_true_iff in H | rewrite andb_true_iff in H
    | rewrite N.leb_le in H | rewrite N.eqb_eq in H ].

Lemma inAliasClass_not_upper (c : N) :
  inAliasClass c = true → isAsciiUpper c = false →
  isAsciiLower c || isAsciiDigit c || (c =? 95) || (c =? 45) = true.
Proof.
  unfold inAliasClass. intros Hin Hup. rewrite Hup in Hin.
  by rewrite orb_false_r in Hin.
Qed.

Lemma inAliasClass_not_space (c : N) :
  inAliasClass c = true → isWhiteSpace c = false.
Proof.
  unfold inAliasClass, isAsciiLower, isAsciiUpper, isAsciiDigit, isWhiteSpace.
  intros Hin. apply not_true_is_false. intros Hws.
  reflect_ranges Hin. reflect_ranges Hws. lia.
Qed.

Lemma asciiToLowerCase_lower (s : jsstring) :
  Forall (λ c, isAsciiUpper c = false) (asciiToLowerCase s).
Proof.
  unfold asciiToLowerCase. apply Forall_fmap, Forall_forall. intros c _. simpl.
  destruct (isAsciiUpper c) eqn:Hc; [| done].
  unfold isAsciiUpper in *. apply andb_true_iff in Hc as [H1 H2].
  apply N.leb_le in H1, H2. apply andb_false_iff. right. apply N.leb_gt. lia.
Qed.

(** C8: provided lower-casing leaves no upper-case ASCII letter (as the
    Unicode tables guarantee), the alias is "#", a local part, ":" and
    the domain; the local part consists of lower-case ASCII letters,
    digits, "_" and "-" only, so it holds no white space and no
    upper-case letter; and it is what remains of the trimmed,
    lower-cased name, with every run of white space replaced by one
    hyphen, once the code units outside [a-z0-9_-] are dropped. *)
Theorem C8_nameToAlias_shape (toLowerCase : jsstring → jsstring)
    (Hlower : ∀ s, Forall (λ c, isAsciiUpper c = false) (toLowerCase s))
    (name domain : jsstring) :
  ∃ localpart,
    nameToAlias toLowerCase name domain
      = lit "#" ++ localpart ++ lit ":" ++ domain
    ∧ Forall (λ c, isAsciiLower c || isAsciiDigit c || (c =? 95) || (c =? 45)
                   = true) localpart
    ∧ Forall (λ c, isWhiteSpace c = false ∧ isAsciiUpper c = false) localpart
    ∧ localpart
        = List.filter inAliasClass (hyphenate false (toLowerCase (trim name))).
Proof.
  exists (List.filter inAliasClass (hyphenate false (toLowerCase (trim name)))).
  assert (Hkept : Forall (λ c, inAliasClass c = true ∧ isAsciiUpper c = false)
            (List.filter inAliasClass
               (hyphenate false (toLowerCase (trim name))))).
  { apply Forall_forall. intros c Hc.
    apply list_elem_of_In, filter_In in Hc as [Hc Hin]. split; [done |].
    pose proof (hyphenate_elements (λ c, isAsciiUpper c = false) false
                  (toLowerCase (trim name)) eq_refl (Hlower _)) as Hall.
    rewrite Forall_forall in Hall. by apply Hall, list_elem_of_In. }
  split; [| split; [| split; [| done]]].
  - unfold nameToAlias. rewrite replaceRuns_delete, replaceRuns_hyphenate.
    do 2 f_equal. apply filter_ext. intros c. apply negb_involutive.
  - eapply Forall_impl; [exact Hkept |]. intros c [? ?]. simpl.
    by apply inAliasClass_not_upper.
  - eapply Forall_impl; [exact Hkept |]. intros c [? ?]. simpl.
    split; [by apply inAliasClass_not_space | done].
Qed.

(** C8 at a concrete input, with the lower-casing of ASCII strings. *)
Lemma C8_nameToAlias_shape_witness :
  ∃ localpart,
    nameToAlias asciiToLowerCase (lit "  My  Cool Space! ") (lit "example.org")
      = lit "#" ++ localpart ++ lit ":" ++ lit "example.org"
    ∧ Forall (λ c, isAsciiLower c || isAsciiDigit c || (c =? 95) || (c =? 45)
                   = true) localpart
    ∧ Forall (λ c, isWhiteSpace c = false ∧ isAsciiUpper c = false) localpart
    ∧ localpart
        = List.filter inAliasClass
            (hyphenate false (asciiToLowerCase (trim (lit "  My  Cool Space! ")))).
Proof.
  apply (C8_nameToAlias_shape asciiToLowerCase asciiToLowerCase_lower).
Defined.

Example nameToAlias_example :
  nameToAlias asciiToLowerCase (lit "  My  Cool Space! ") (lit "example.org")
  = lit "#my-cool-space:example.org".
Proof. reflexivity. Qed.

Example nameToAlias_nbsp :
  nameToAlias asciiToLowerCase ([160] ++ lit "A" ++ [9; 8232] ++ lit "b_C-d" ++ [233])
    (lit "hs")
  = lit "#a-b_c-d:hs".
Proof. reflexivity. Qed.

(* ---------------------------------------------------------------- *)
(** ** The create button *)

Lemma oneRunning_step (w : World) (e : Event) :
  oneRunning w → oneRunning (step w e).
Proof.
  intros Hinv. destruct e as [| i ok | v]; simpl.
  - destruct (formMounted w); [| done].
    unfold onSpaceCreateClick. destruct (busy (menu w)) eqn:Hbusy; [done |].
    destruct Hinv as [Hnone | [Hb _]]; [| congruence].
    right. simpl. rewrite Hnone. eauto.
  - unfold settle, throws, resume.
    destruct (running w !! i) as [a|] eqn:Hi; [| done].
    destruct Hinv as [Hnone | (Hbusy & a' & Hone)]; [by rewrite Hnone in Hi |].
    rewrite Hone in Hi |- *. destruct i as [|i]; [| done].
    injection Hi as ->. simpl.
    destruct (suspended a), ok; simpl;
      try destruct (bool_decide (visibility (closure a) = Some Public));
      try destruct (aliasFieldMounted w); try destruct (formMounted w);
      simpl; first [by left | right; simpl; eauto].
  - destruct Hinv as [? | [? ?]]; [by left | by right].
Qed.

Lemma oneRunning_run (evs : list Event) (w : World) :
  oneRunning w → oneRunning (run w evs).
Proof.
  revert w. induction evs as [|e evs IH]; intros w Hinv; [done |].
  simpl. by apply IH, oneRunning_step.
Qed.

(** C10: after any sequence of clicks, settled promises and visibility
    changes, a click while busy changes nothing (no validation, no
    createRoom); at most one call of the handler is running and at most
    one createRoom is in flight; a click while not busy sets busy and
    only then starts validating, without calling createRoom; and a
    failed validation, of the name or of the address, ends the call
    without calling createRoom and resets busy exactly when the field
    that failed is still rendered.  When it is not, the handler fails on
    the null ref before it reaches [setBusy(false)]; a name that passes
    fails in the same way when the space is public and its address field
    is gone.  A call that fails so ends with the menu busy and nothing
    validated or created.  So it is after Public, Create, a name that
    passes, Back, and an address that fails, where the menu stays busy
    with no call running, and no later click does anything.  Without a
    visibility chosen there is no form to submit. *)
Theorem C10_one_creation_at_a_time (evs : list Event) :
  let w := run initial evs in
  (busy (menu w) = true → onSpaceCreateClick w = w)
  ∧ (length (running w) ≤ 1)%nat
  ∧ (createRoomInFlight w ≤ 1)%nat
  ∧ (busy (menu w) = false →
       running w = []
       ∧ let w' := onSpaceCreateClick w in
         busy (menu w') = true
         ∧ running w' = [mkActivation (menu w) AwaitNameValidation]
         ∧ validateCalls w' = S (validateCalls w)
         ∧ createRoomCalls w' = createRoomCalls w)
  ∧ (∀ i a, running w !! i = Some a → suspended a ≠ AwaitCreateRoom →
       let w' := step w (EvSettle i false) in
       running w' = []
       ∧ createRoomCalls w' = createRoomCalls w
       ∧ busy (menu w') = throws i false w
       ∧ (throws i false w = false
          ↔ match suspended a with
            | AwaitNameValidation => is_Some (visibility (menu w))
            | _ => visibility (menu w) = Some Public
            end))
  ∧ (∀ i a, running w !! i = Some a →
       (throws i true w = true
        ↔ suspended a = AwaitNameValidation
          ∧ visibility (closure a) = Some Public
          ∧ visibility (menu w) ≠ Some Public)
       ∧ ∀ ok, throws i ok w = true →
           let w' := step w (EvSettle i ok) in
           running w' = [] ∧ busy (menu w') = true
           ∧ createRoomCalls w' = createRoomCalls w
           ∧ validateCalls w' = validateCalls w)
  ∧ (visibility (menu w) = None → step w EvClick = w)
  ∧ (let wf := run initial [EvSetVisibility (Some Public); EvClick;
                            EvSettle 0 true; EvSetVisibility None] in
     let wf' := step wf (EvSettle 0 false) in
     running wf = [mkActivation (mkMenu (Some Public) false [] [] [])
                                AwaitAliasValidation]
     ∧ busy (menu wf') = true
     ∧ running wf' = []
     ∧ createRoomCalls wf' = []
     ∧ ∀ v, onSpaceCreateClick (setVisibility v wf') = setVisibility v wf').
Proof.
  intros w.
  assert (Hinv : oneRunning w) by (apply oneRunning_run; by left).
  assert (Hlen : (length (running w) ≤ 1)%nat).
  { destruct Hinv as [-> | (_ & a & ->)]; simpl; lia. }
  split; [| split; [done | split; [| split; [| split; [| split; [| split]]]]]].
  - intros Hbusy. unfold onSpaceCreateClick. by rewrite Hbusy.
  - unfold createRoomInFlight.
    destruct Hinv as [-> | (_ & a & ->)]; simpl; [lia |].
    destruct (suspended a); simpl; lia.
  - intros Hbusy.
    destruct Hinv as [Hnone | [Hb _]]; [| congruence].
    split; [done |]. unfold onSpaceCreateClick. rewrite Hbusy. simpl.
    by rewrite Hnone.
  - intros i a Hi Hsusp.
    destruct Hinv as [Hnone | (Hbusy & a' & Hone)]; [by rewrite Hnone in Hi |].
    cbn [step]. unfold settle, throws, resume. rewrite Hi.
    rewrite Hone in Hi |- *.
    destruct i as [|i]; [| done]. injection Hi as ->.
    unfold formMounted, aliasFieldMounted.
    destruct (suspended a); [| | done].
    + destruct (visibility (menu w)) as [v|]; simpl.
      * repeat split; try done; by eexists.
      * repeat split; try done; by intros [? ?].
    + case_bool_decide as Hv; simpl; by repeat split.
  - intros i a Hi.
    destruct Hinv as [Hnone | (Hbusy & a' & Hone)]; [by rewrite Hnone in Hi |].
    cbn [step]. unfold settle, throws. rewrite Hi.
    rewrite Hone in Hi |- *.
    destruct i as [|i]; [| done]. injection Hi as ->.
    unfold aliasFieldMounted. split.
    + destruct (suspended a); [| by split; [| intros [? _]]
                                | by split; [| intros [? _]]].
      rewrite andb_true_iff, negb_true_iff, bool_decide_eq_true,
        bool_decide_eq_false.
      by split; [intros [? ?] | intros (_ & ? & ?)].
    + intros ok Hthrows. rewrite Hthrows. by repeat split.
  - intros Hv. cbn [step]. unfold formMounted. by rewrite Hv.
  - vm_compute. repeat split; try done; by intros [[|]|].
Qed.

(** A submission that fails the address check, a second click while it
    is being checked, and a retry that reaches createRoom. *)
Example retry_after_failed_validation :
  let w := run initial
             [EvSetVisibility (Some Public); EvClick; EvClick;
              EvSettle 0 true; EvClick; EvSettle 0 false;
              EvClick; EvSettle 0 true; EvSettle 0 true; EvClick] in
  busy (menu w) = true
  ∧ length (createRoomCalls w) = 1%nat
  ∧ createRoomInFlight w = 1%nat
  ∧ validateCalls w = 5%nat.
Proof. vm_compute. by repeat split. Qed.

End SpaceCreateMenuFacts.

Module VideoFeedFacts.
Import VideoFeed.

Lemma updFeed_other (id other : nat) (f : CallFeed → CallFeed) (w : World) :
  other ≠ id → heap (updFeed id f w) !! other = heap w !! other.
Proof. intros Hne. simpl. by apply lookup_alter_ne. Qed.

Lemma updFeed_props (id : nat) (f : CallFeed → CallFeed) (w : World) :
  props_feed (updFeed id f w) = props_feed w.
Proof. done. Qed.

(** [updateFeed] reaches no feed but the one in the current props,
    whatever its arguments are. *)
Lemma updateFeed_other (oldFeed newFeed : option nat) (other : nat) (w : World) :
  other ≠ props_feed w →
  heap (updateFeed oldFeed newFeed w) !! other = heap w !! other.
Proof.
  intros Hne. unfold updateFeed.
  case_decide; [done |].
  destruct oldFeed as [o|], newFeed as [n|];
    unfold playMedia, stopMedia, updElement, measureVolumeActivity,
      addListener, removeListener; simpl;
    repeat case_decide; simpl;
    rewrite ?lookup_alter_ne by done; done.
Qed.

(** A change of the [feed] prop leaves the feed shown before exactly as
    it was, listeners included. *)
Lemma receiveProps_old_feed_untouched (newFeed : nat) (w : World) :
  newFeed ≠ props_feed w →
  heap (receiveProps newFeed w) !! props_feed w = heap w !! props_feed w.
Proof.
  intros Hne. unfold receiveProps, componentDidUpdate.
  match goal with |- context [updateFeed ?o ?n ?x] =>
    pose proof (updateFeed_other o n (props_feed w) x) as Hother
  end.
  simpl in Hother. specialize (Hother (not_eq_sym Hne)).
  match goal with |- context [if ?b then _ else _] => destruct b end;
    simpl; exact Hother.
Qed.

(** C2, at the input where the code departs from it: the component is
    mounted on feed 1 and then given feed 2.  Afterwards feed 2 carries
    the listener pair, and so does feed 1, which is no longer shown and
    still measures volume activity. *)
Theorem C2_old_feed_keeps_listeners :
  let w0 := componentDidMount (construct sampleHeap 1 (Some sampleElement)) in
  let w1 := receiveProps 2 w0 in
  (props_feed w0 = 1%nat
   ∧ carriesListeners 1 w0 = true
   ∧ carriesListeners 2 w0 = false)
  ∧ (props_feed w1 = 2%nat
     ∧ carriesListeners 2 w1 = true
     ∧ carriesListeners 1 w1 = true
     ∧ measuringVolumeActivity <$> heap w1 !! 1%nat = Some true).
Proof. vm_compute. by repeat split. Qed.

(** On the same feed the pair is registered once and removed again. *)
Example mount_unmount_same_feed :
  let w0 := componentDidMount (construct sampleHeap 1 (Some sampleElement)) in
  let w1 := componentWillUnmount w0 in
  (listeners <$> heap w0 !! 1%nat)
    = Some [(NewStream, onNewStream); (MuteStateChanged, onMuteStateChanged)]
  ∧ carriesListeners 1 w1 = false
  ∧ measuringVolumeActivity <$> heap w1 !! 1%nat = Some false.
Proof. vm_compute. by repeat split. Qed.

End VideoFeedFacts.

Module RoomDirectoryActionsFacts.
Import JS JSFacts RoomDirectory RoomDirectoryFacts RoomDirectoryActions.

(* ---------------------------------------------------------------- *)
(** ** After unmounting *)

Lemma handle_unmounted `{Env} (r : Request) (resp : Response) (w : World) :
  unmounted (this w) = true → handle r resp w = (w, RetBool false).
Proof.
  intros Hu. destruct resp; simpl; unfold onPublicRooms, onPublicRoomsError;
    rewrite Hu; by destruct (changedSince r w).
Qed.

Lemma handle_keeps_unmounted `{Env} (r : Request) (resp : Response) (w : World) :
  unmounted (this (fst (handle r resp w))) = unmounted (this w).
Proof.
  destruct resp; simpl; unfold onPublicRooms, onPublicRoomsError;
    destruct (changedSince r w), (unmounted (this w)) eqn:Hu; simpl; done.
Qed.

Lemma refreshRoomList_keeps_unmounted `{Env} (who : Caller) (w : World) :
  unmounted (this (refreshRoomList who w)) = unmounted (this w).
Proof. unfold refreshRoomList, getMoreRooms. simpl. by destruct (peg w). Qed.

Lemma step_keeps_unmounted `{Env} (w : World) (e : Event) :
  unmounted (this w) = true → unmounted (this (step w e)) = true.
Proof.
  intros Hu. destruct e as [alias | | server iid | backwards | rid resp
                            | ms | | cli |]; simpl.
  - unfold onFilterChange. simpl.
    by destruct (filterTimeout (this w)).
  - unfold onFilterClear. rewrite refreshRoomList_keeps_unmounted. simpl.
    by destruct (filterTimeout (this w)).
  - unfold onOptionChange. rewrite refreshRoomList_keeps_unmounted.
    by destruct (truthy iid).
  - unfold onFillRequest, getMoreRooms.
    destruct (backwards || negb (truthy (nextBatch (this w)))); [done |].
    by destruct (peg w).
  - destruct (findRequest rid w) as [r|]; [| done].
    match goal with |- context [handle r resp ?x] =>
      pose proof (handle_keeps_unmounted r resp x) as Hk;
      destruct (handle r resp x) as [w1 c] end.
    simpl in *. congruence.
  - done.
  - destruct (dueTimer w) as [[h due]|]; [| done].
    unfold filterTimeoutCallback. by rewrite refreshRoomList_keeps_unmounted.
  - done.
  - unfold componentWillUnmount. by destruct (filterTimeout (this w)).
Qed.

(** Once the directory is unmounted it stays so whatever happens next,
    and from then on either handler of any response returns false and
    changes nothing: no late response touches the room list, the loading
    flag, the error or the batch token. *)
Theorem unmounted_drops_every_response `{Env} (w : World) (evs : list Event) :
  let w' := run (componentWillUnmount w) evs in
  unmounted (this w') = true
  ∧ ∀ (r : Request) (resp : Response), handle r resp w' = (w', RetBool false).
Proof.
  intros w'.
  assert (Hu : unmounted (this w') = true).
  { subst w'. generalize (componentWillUnmount w),
      (eq_refl : unmounted (this (componentWillUnmount w)) = true).
    induction evs as [|e evs IH]; intros w0 Hw0; [done |].
    simpl. apply IH. by apply step_keeps_unmounted. }
  split; [done |]. intros r resp. by apply handle_unmounted.
Qed.

(* ---------------------------------------------------------------- *)
(** ** What a request carries *)

Lemma getMoreRooms_inflight `{Env} (w : World) :
  inflight (fst (getMoreRooms w)) = inflight w
  ∨ ∃ req, inflight (fst (getMoreRooms w)) = inflight w ++ [(requestSeq w, req)]
           ∧ asRecorded req
           ∧ sentFilterString req = filterString (state (this w))
           ∧ sentRoomServer req = roomServer (state (this w))
           ∧ sentNextBatch req = nextBatch (this w).
Proof.
  unfold getMoreRooms. destruct (peg w) as [cli|]; [| by left].
  right. simpl. eexists. split; [reflexivity |].
  split; [| done]. unfold asRecorded. simpl.
  split; [done |]. split; [by destruct (filterString (state (this w))) |].
  split; [done |]. split.
  - destruct (loose_neq _ _); [by right | by left].
  - intros [Hall [x Hx]]. rewrite Hall in Hx. done.
Qed.

Lemma asRecorded_getMoreRooms `{Env} (w : World) :
  Forall (λ p, asRecorded (snd p)) (inflight w) →
  Forall (λ p, asRecorded (snd p)) (inflight (fst (getMoreRooms w))).
Proof.
  intros Hall. destruct (getMoreRooms_inflight w) as [-> | (req & -> & Hreq & _)];
    [done |].
  apply Forall_app. split; [done |]. by constructor.
Qed.

Lemma asRecorded_refresh `{Env} (who : Caller) (w w0 : World) :
  Forall (λ p, asRecorded (snd p)) (inflight w) →
  inflight w0 = inflight w →
  Forall (λ p, asRecorded (snd p)) (inflight (refreshRoomList who w0)).
Proof.
  intros Hall Hw0. unfold refreshRoomList. apply asRecorded_getMoreRooms.
  simpl. by rewrite Hw0.
Qed.

Lemma handle_inflight `{Env} (r : Request) (resp : Response) (w : World) :
  inflight (fst (handle r resp w)) = inflight w
  ∧ requestSeq (fst (handle r resp w)) = requestSeq w
  ∧ peg (fst (handle r resp w)) = peg w.
Proof.
  destruct resp; simpl; unfold onPublicRooms, onPublicRoomsError;
    destruct (changedSince r w), (unmounted (this w)); done.
Qed.

Lemma cancel_pending_inflight (w0 : World) :
  let w1 := match filterTimeout (this w0) with
            | Some h => clearTimeout h w0
            | None => w0
            end in
  inflight w1 = inflight w0 ∧ requestSeq w1 = requestSeq w0 ∧ peg w1 = peg w0
  ∧ unmounted (this w1) = unmounted (this w0)
  ∧ state (this w1) = state (this w0)
  ∧ nextBatch (this w1) = nextBatch (this w0).
Proof. by destruct (filterTimeout (this w0)). Qed.

Lemma asRecorded_step `{Env} (w : World) (e : Event) :
  Forall (λ p, asRecorded (snd p)) (inflight w) →
  Forall (λ p, asRecorded (snd p)) (inflight (step w e)).
Proof.
  intros Hall. destruct e as [alias | | server iid | backwards | rid resp
                              | ms | | cli |]; simpl.
  - unfold onFilterChange. simpl. by destruct (filterTimeout (this w)).
  - unfold onFilterClear. apply (asRecorded_refresh _ w); [done |].
    match goal with |- inflight ?x = _ =>
      change x with (match filterTimeout (this (setState (λ s, mkState
        (publicRooms s) (loading s) (protocolsLoading s) (error s)
        (instanceId s) (roomServer s) []) w)) with
        | Some h => clearTimeout h (setState (λ s, mkState
            (publicRooms s) (loading s) (protocolsLoading s) (error s)
            (instanceId s) (roomServer s) []) w)
        | None => setState (λ s, mkState
            (publicRooms s) (loading s) (protocolsLoading s) (error s)
            (instanceId s) (roomServer s) []) w
        end) end.
    by destruct (cancel_pending_inflight (setState (λ s, mkState
        (publicRooms s) (loading s) (protocolsLoading s) (error s)
        (instanceId s) (roomServer s) []) w)) as (-> & _).
  - unfold onOptionChange. apply (asRecorded_refresh _ w); [done |].
    by destruct (truthy iid).
  - unfold onFillRequest.
    destruct (backwards || negb (truthy (nextBatch (this w)))); [done |].
    by apply asRecorded_getMoreRooms.
  - destruct (findRequest rid w) as [r|]; [| done].
    match goal with |- context [handle r resp ?x] =>
      pose proof (handle_inflight r resp x) as (Hi & _);
      destruct (handle r resp x) as [w1 c] end.
    simpl in *. rewrite Hi. apply Forall_forall. intros p Hp.
    apply list_elem_of_In, filter_In in Hp as [Hp _].
    rewrite Forall_forall in Hall. by apply Hall, list_elem_of_In.
  - done.
  - destruct (dueTimer w) as [[h due]|]; [| done].
    unfold filterTimeoutCallback. by apply (asRecorded_refresh _ w).
  - done.
  - unfold componentWillUnmount. simpl. by destruct (filterTimeout (this w)).
Qed.

(** Every request in flight, after any sequence of events on a mounted
    directory, asks for 20 rooms, carries as [filter] and [since]
    exactly the filter string and batch token recorded with it (none
    when they are empty), names no server or the recorded one, and never
    sets both [include_all_networks] and [third_party_instance_id]. *)
Theorem requests_carry_what_is_recorded `{Env} (initialText : nullable)
    (cli : option Client) (storage : gmap (list N) (list N))
    (evs : list Event) :
  Forall (λ p, asRecorded (snd p))
         (inflight (run (mount initialText cli storage) evs)).
Proof.
  assert (Hm : Forall (λ p, asRecorded (snd p))
                 (inflight (mount initialText cli storage))).
  { unfold mount, componentDidMount. by apply (asRecorded_refresh _ (construct initialText cli storage)). }
  revert Hm. generalize (mount initialText cli storage).
  induction evs as [|e evs IH]; intros w Hw; [done |].
  simpl. by apply IH, asRecorded_step.
Qed.

(* ---------------------------------------------------------------- *)
(** ** A failed request *)

(** When a request that is still current fails, the directory stops
    loading, keeps its rooms and token, and records the failure for
    analytics; the error it stores is the message of the rejection
    whenever that message is a non-empty string, and is empty (so that
    nothing is shown) whenever the rejection has no message and the
    translated prefix is not empty: the fallback text is not used then. *)
Theorem failed_request_error_text `{Env} (r : Request) (err : MatrixError)
    (w : World)
    (Hcurrent : changedSince r w = false)
    (Hmounted : unmounted (this w) = false) :
  let w' := fst (onPublicRoomsError r err w) in
  snd (onPublicRoomsError r err w) = RetUndefined
  ∧ loading (state (this w')) = false
  ∧ publicRooms (state (this w')) = publicRooms (state (this w))
  ∧ nextBatch (this w') = nextBatch (this w)
  ∧ tracked w' = tracked w ++ [lit "Failed to get public room list"]
  ∧ (truthy (message err) = true → error (state (this w')) = message err)
  ∧ (truthy (message err) = false →
     _t (lit "%(brand)s failed to get the public room list.")
        [(lit "brand", brand)] ≠ [] →
     truthy (error (state (this w'))) = false).
Proof.
  unfold onPublicRoomsError. rewrite Hcurrent, Hmounted. simpl.
  split; [done |]. split; [done |]. split; [done |]. split; [done |].
  split; [done |]. split.
  - intros Hmsg. apply truthy_JStr in Hmsg as (c & s & ->). simpl.
    by destruct (_t _ _).
  - intros Hmsg Hprefix.
    destruct (_t (lit "%(brand)s failed to get the public room list.") _)
      as [|c p]; [done |].
    done.
Qed.

(* ---------------------------------------------------------------- *)
(** ** Opening a room *)



(* ---------------------------------------------------------------- *)
(** ** Joining from the search box *)




(* ---------------------------------------------------------------- *)
(** ** The stored server and network *)




(* ---------------------------------------------------------------- *)
(** ** Typing and clearing the filter *)

Lemma refreshRoomList_request `{Env} (who : Caller) (w : World) (cli : Client) :
  peg w = Some cli →
  ∃ req,
    inflight (refreshRoomList who w) = inflight w ++ [(requestSeq w, req)]
    ∧ requestSeq (refreshRoomList who w) = S (requestSeq w)
    ∧ sentFilterString req = filterString (state (this w))
    ∧ sentRoomServer req = roomServer (state (this w))
    ∧ sentNextBatch req = JNull
    ∧ since (opts req) = None
    ∧ filter (opts req) =
        match filterString (state (this w)) with
        | [] => None
        | _ :: _ => Some (filterString (state (this w)))
        end
    ∧ changedSince req (refreshRoomList who w) = false
    ∧ loading (state (this (refreshRoomList who w))) = true
    ∧ filterString (state (this (refreshRoomList who w)))
      = filterString (state (this w))
    ∧ peg (refreshRoomList who w) = peg w
    ∧ unmounted (this (refreshRoomList who w)) = unmounted (this w).
Proof.
  intros Hpeg. unfold refreshRoomList, getMoreRooms. simpl. rewrite Hpeg. simpl.
  eexists. split; [reflexivity |]. simpl.
  split; [done |]. split; [done |]. split; [done |]. split; [done |].
  split; [done |]. split; [by destruct (filterString (state (this w))) |].
  split; [| done].
  unfold changedSince. simpl. rewrite bool_decide_true by done. simpl.
  by destruct (roomServer (state (this w))) as [| |?]; simpl;
    rewrite ?bool_decide_true.
Qed.

Lemma refreshRoomList_filterString `{Env} (who : Caller) (w : World) :
  filterString (state (this (refreshRoomList who w)))
  = filterString (state (this w)).
Proof. unfold refreshRoomList, getMoreRooms. simpl. by destruct (peg w). Qed.

Lemma onFilterChange_fields `{Env} (alias : nullable) (w : World) :
  let w1 := onFilterChange alias w in
  filterString (state (this w1)) = typed alias
  ∧ history w1 = history w ++ [FilterChanged (clock w)]
  ∧ clock w1 = clock w
  ∧ inflight w1 = inflight w
  ∧ requestSeq w1 = requestSeq w
  ∧ peg w1 = peg w
  ∧ filterTimeout (this w1) = Some (timerSeq w).
Proof.
  unfold onFilterChange. simpl.
  by destruct (filterTimeout (this w)), alias.
Qed.

Lemma trim_blank (s : jsstring) :
  Forall (λ c, isWhiteSpace c = true) s → trim s = [].
Proof.
  intros Hs. unfold trim, trimEnd.
  assert (trimStart s = []) as ->.
  { induction Hs as [|c s Hc _ IH]; simpl; [done |]. by rewrite Hc. }
  done.
Qed.

(** Typing in the search box, on a directory in any reachable state:
    the filter becomes the trimmed text at once.  If the timer is run
    before 700 ms have passed nothing happens; run after 700 ms or more
    it refreshes once, leaves no timer behind, and, with a client, sends
    one request without [since] whose filter is the trimmed text, or no
    filter when the text is empty, as it is for input made of white
    space only. *)
Theorem typing_searches_after_the_pause `{Env} (initialText : nullable)
    (cli : option Client) (storage : gmap (list N) (list N))
    (evs : list Event) (alias : nullable) (ms : N) :
  let w := run (mount initialText cli storage) evs in
  let w1 := onFilterChange alias w in
  let w2 := step (step w1 (EvElapse ms)) EvTimer in
  filterString (state (this w1)) = typed alias
  ∧ (ms < 700 → w2 = step w1 (EvElapse ms))
  ∧ (700 ≤ ms →
     history w2 = history w ++ [FilterChanged (clock w);
                                Refreshed (clock w + ms) ByDebounce]
     ∧ timers w2 = []
     ∧ filterString (state (this w2)) = typed alias
     ∧ ∀ c, peg w = Some c →
         ∃ req, inflight w2 = inflight w ++ [(requestSeq w, req)]
                ∧ sentFilterString req = typed alias
                ∧ since (opts req) = None
                ∧ filter (opts req) =
                    match typed alias with
                    | [] => None
                    | _ :: _ => Some (typed alias)
                    end)
  ∧ (∀ s, alias = JStr s → Forall (λ c, isWhiteSpace c = true) s →
          typed alias = []).
Proof.
  intros w w1 w2.
  assert (Hinv : timerInv w) by apply timerInv_run, timerInv_mount.
  destruct (timerInv_onFilterChange alias w Hinv) as [Htm _].
  destruct (onFilterChange_fields alias w)
    as (Hfs & Hh & Hck & Hin & Hrs & Hpeg & Hft).
  fold w1 in Htm, Hfs, Hh, Hck, Hin, Hrs, Hpeg, Hft. clearbody w1.
  split; [done |].
  set (wE := step w1 (EvElapse ms)) in *.
  assert (HE : timers wE = [(timerSeq w, clock w + 700)]
               ∧ clock wE = clock w + ms ∧ history wE = history w1
               ∧ inflight wE = inflight w ∧ requestSeq wE = requestSeq w
               ∧ peg wE = peg w
               ∧ filterString (state (this wE)) = typed alias).
  { subst wE. simpl. by rewrite Htm, Hck, Hin, Hrs, Hpeg, Hfs. }
  destruct HE as (HEt & HEc & HEh & HEi & HEr & HEp & HEf). clearbody wE.
  assert (Hdue : dueTimer wE
                 = if clock w + 700 <=? clock w + ms
                   then Some (timerSeq w, clock w + 700) else None).
  { unfold dueTimer. rewrite HEt, HEc. simpl.
    by destruct (clock w + 700 <=? clock w + ms). }
  split; [| split].
  - intros Hlt. subst w2. cbn [step]. rewrite Hdue.
    destruct (clock w + 700 <=? clock w + ms) eqn:Hle; [| done].
    apply N.leb_le in Hle. lia.
  - intros Hge. subst w2. cbn [step]. rewrite Hdue.
    assert ((clock w + 700 <=? clock w + ms) = true) as ->
      by (apply N.leb_le; lia).
    unfold filterTimeoutCallback.
    match goal with |- context [refreshRoomList _ ?x] => set (w3 := x) end.
    destruct (refreshRoomList_effect ByDebounce w3)
      as (_ & _ & _ & _ & Htm' & _ & Hh').
    assert (Hw3 : history w3 = history w1 ∧ clock w3 = clock w + ms
                  ∧ timers w3 = [] ∧ inflight w3 = inflight w
                  ∧ requestSeq w3 = requestSeq w ∧ peg w3 = peg w
                  ∧ filterString (state (this w3)) = typed alias).
    { subst w3. simpl. rewrite HEt, HEc, HEh, HEi, HEr, HEp, HEf. simpl.
      by rewrite Pos.eqb_refl. }
    destruct Hw3 as (H3h & H3c & H3t & H3i & H3r & H3p & H3f).
    split; [| split; [| split]].
    + rewrite Hh', H3h, H3c, Hh. by rewrite <- app_assoc.
    + by rewrite Htm'.
    + by rewrite refreshRoomList_filterString.
    + intros c Hc. rewrite <- H3p in Hc.
      destruct (refreshRoomList_request ByDebounce w3 c Hc)
        as (req & Hreq & _ & Hsf & _ & _ & Hsince & Hfilter & _).
      exists req. rewrite Hreq, H3i, H3r, Hsf, Hfilter, H3f. done.
  - intros s -> Hs. by apply trim_blank.
Qed.

(** Clearing the search box, on a directory in any reachable state:
    the filter is emptied, the pending timer is cancelled so that
    running the timer afterwards does nothing, and the list is
    refreshed at once; with a client, one request is sent, with neither
    filter nor [since]. *)
Theorem clearing_refreshes_at_once `{Env} (initialText : nullable)
    (cli : option Client) (storage : gmap (list N) (list N))
    (evs : list Event) :
  let w := run (mount initialText cli storage) evs in
  let w' := onFilterClear w in
  filterString (state (this w')) = []
  ∧ timers w' = []
  ∧ step w' EvTimer = w'
  ∧ history w' = history w ++ [Refreshed (clock w) ByFilterClear]
  ∧ ∀ c, peg w = Some c →
      ∃ req, inflight w' = inflight w ++ [(requestSeq w, req)]
             ∧ filter (opts req) = None ∧ since (opts req) = None.
Proof.
  intros w w'.
  assert (Hinv : timerInv w) by apply timerInv_run, timerInv_mount.
  subst w'. unfold onFilterClear.
  match goal with |- context [refreshRoomList _ ?x] => set (w2 := x) end.
  assert (Htm : timers w2 = []) by (by apply (cancel_pending w)).
  assert (Hw2 : filterString (state (this w2)) = [] ∧ history w2 = history w
                ∧ clock w2 = clock w ∧ inflight w2 = inflight w
                ∧ requestSeq w2 = requestSeq w ∧ peg w2 = peg w).
  { subst w2. simpl. by destruct (filterTimeout (this w)). }
  destruct Hw2 as (H2f & H2h & H2c & H2i & H2r & H2p).
  destruct (refreshRoomList_effect ByFilterClear w2)
    as (_ & _ & _ & _ & Htm' & _ & Hh').
  assert (Hfs : filterString (state (this (refreshRoomList ByFilterClear w2))) = []).
  { by rewrite refreshRoomList_filterString. }
  split; [done |]. split; [by rewrite Htm' |]. split; [| split].
  - simpl. unfold dueTimer. by rewrite Htm', Htm.
  - by rewrite Hh', H2h, H2c.
  - intros c Hc. rewrite <- H2p in Hc.
    destruct (refreshRoomList_request ByFilterClear w2 c Hc)
      as (req & Hreq & _ & _ & _ & _ & Hsince & Hfilter & _).
    exists req. rewrite Hreq, H2i, H2r, Hfilter, H2f. done.
Qed.

(* ---------------------------------------------------------------- *)
(** ** The loading state *)

Lemma numbered_same `{Env} (w w' : World) :
  numbered w → peg w' = peg w → unmounted (this w') = unmounted (this w) →
  inflight w' = inflight w → requestSeq w' = requestSeq w → numbered w'.
Proof. unfold numbered. by intros ? -> -> -> ->. Qed.

Lemma getMoreRooms_request `{Env} (w : World) (cli : Client) :
  peg w = Some cli →
  ∃ req,
    inflight (fst (getMoreRooms w)) = inflight w ++ [(requestSeq w, req)]
    ∧ requestSeq (fst (getMoreRooms w)) = S (requestSeq w)
    ∧ changedSince req (fst (getMoreRooms w)) = false
    ∧ peg (fst (getMoreRooms w)) = peg w
    ∧ unmounted (this (fst (getMoreRooms w))) = unmounted (this w).
Proof.
  intros Hpeg. unfold getMoreRooms. rewrite Hpeg. simpl.
  eexists. split; [reflexivity |]. simpl. split; [done |]. split; [| done].
  unfold changedSince. simpl. rewrite bool_decide_true by done. simpl.
  by destruct (roomServer (state (this w))) as [| |?],
              (nextBatch (this w)) as [| |?]; simpl; rewrite ?bool_decide_true.
Qed.

Lemma numbered_snoc (l : list (nat * Request)) (n : nat) (req : Request) :
  NoDup (fst <$> l) → Forall (λ p, (fst p < n)%nat) l →
  NoDup (fst <$> (l ++ [(n, req)]))
  ∧ Forall (λ p, (fst p < S n)%nat) (l ++ [(n, req)]).
Proof.
  intros Hnd Hlt. split.
  - rewrite fmap_app. apply NoDup_app. split; [done |]. split.
    + intros k Hk Hk2. apply list_elem_of_singleton in Hk2. simpl in Hk2.
      subst k. apply list_elem_of_fmap in Hk as ([k' r] & Heq & Hin).
      simpl in Heq. subst k'.
      rewrite Forall_forall in Hlt. specialize (Hlt _ Hin). simpl in *. lia.
    + apply NoDup_singleton.
  - apply Forall_app. split.
    + eapply Forall_impl; [exact Hlt |]. intros p Hp. simpl in *. lia.
    + constructor; [simpl; lia | constructor].
Qed.

Lemma spinnerInv_getMoreRooms `{Env} (w : World) :
  numbered w → spinnerInv (fst (getMoreRooms w)).
Proof.
  intros ([cli Hpeg] & Hu & Hnd & Hlt).
  destruct (getMoreRooms_request w cli Hpeg) as (req & Hin & Hrs & Hc & Hp & Hum).
  destruct (numbered_snoc _ (requestSeq w) req Hnd Hlt) as [Hnd' Hlt'].
  unfold spinnerInv. rewrite Hin, Hrs, Hp, Hum, Hpeg.
  split; [by eauto |]. split; [done |]. split; [done |]. split; [done |].
  intros _. left. exists (requestSeq w), req. split; [| done].
  rewrite Hin. apply elem_of_app. right. left.
Qed.

Lemma spinnerInv_refresh `{Env} (who : Caller) (w : World) :
  numbered w → spinnerInv (refreshRoomList who w).
Proof.
  intros Hn. unfold refreshRoomList. apply spinnerInv_getMoreRooms.
  by apply (numbered_same w).
Qed.

Lemma spinnerInv_numbered `{Env} (w : World) : spinnerInv w → numbered w.
Proof. intros (? & ? & ? & ? & _). by repeat split. Qed.

Lemma findRequest_elem `{Env} (rid : nat) (r : Request) (w : World) :
  findRequest rid w = Some r → (rid, r) ∈ inflight w.
Proof.
  unfold findRequest. intros Hf.
  destruct (List.filter _ (inflight w)) as [|[k r'] l] eqn:Hl; [done |].
  injection Hf as <-.
  assert (Hin : In (k, r') (List.filter (λ p, Nat.eqb (fst p) rid) (inflight w)))
    by (rewrite Hl; by left).
  apply filter_In in Hin as [Hin Hk]. simpl in Hk.
  apply Nat.eqb_eq in Hk as ->. by apply list_elem_of_In.
Qed.

Lemma NoDup_fst_unique {A} (l : list (nat * A)) (k : nat) (a b : A) :
  NoDup (fst <$> l) → (k, a) ∈ l → (k, b) ∈ l → a = b.
Proof.
  induction l as [|[k' c] l IH]; simpl; intros Hnd Ha Hb;
    [by apply elem_of_nil in Ha |].
  apply NoDup_cons in Hnd as [Hk' Hnd].
  apply elem_of_cons in Ha as [Ha | Ha];
    apply elem_of_cons in Hb as [Hb | Hb].
  - congruence.
  - injection Ha as -> ->. destruct Hk'. apply list_elem_of_fmap.
    by exists (k', b).
  - injection Hb as -> ->. destruct Hk'. apply list_elem_of_fmap.
    by exists (k', a).
  - by apply IH.
Qed.

Lemma numbered_remove `{Env} (rid : nat) (w w' : World) :
  numbered w → peg w' = peg w → unmounted (this w') = unmounted (this w) →
  inflight w' = List.filter (λ p, negb (Nat.eqb (fst p) rid)) (inflight w) →
  requestSeq w' = requestSeq w → numbered w'.
Proof.
  unfold numbered. intros (Hp & Hu & Hnd & Hlt) -> -> -> ->.
  split; [done |]. split; [done |]. split.
  - clear Hlt. induction (inflight w) as [|[k r] l IH]; simpl; [done |].
    apply NoDup_cons in Hnd as [Hk Hnd].
    destruct (negb (k =? rid)%nat); simpl; [| by apply IH].
    apply NoDup_cons. split; [| by apply IH].
    intros Hin. apply Hk. apply list_elem_of_fmap in Hin as (p & -> & Hin).
    apply list_elem_of_In, filter_In in Hin as [Hin _].
    apply list_elem_of_fmap. exists p. split; [done | by apply list_elem_of_In].
  - apply Forall_forall. intros p Hin.
    apply list_elem_of_In, filter_In in Hin as [Hin _].
    rewrite Forall_forall in Hlt. by apply Hlt, list_elem_of_In.
Qed.

Lemma handle_cases `{Env} (r : Request) (resp : Response) (w : World) :
  (changedSince r w = true ∧ fst (handle r resp w) = w)
  ∨ (unmounted (this w) = true ∧ fst (handle r resp w) = w)
  ∨ loading (state (this (fst (handle r resp w)))) = false.
Proof.
  destruct resp; simpl; unfold onPublicRooms, onPublicRoomsError;
    destruct (changedSince r w); [by left | | by left |];
    destruct (unmounted (this w)); [by right; left | by right; right
                                  | by right; left | by right; right].
Qed.

Lemma spinnerInv_step `{Env} (w : World) (e : Event) :
  calm e = true → spinnerInv w → spinnerInv (step w e).
Proof.
  intros Hcalm Hinv. pose proof (spinnerInv_numbered w Hinv) as Hn.
  destruct e as [alias | | server iid | backwards | rid resp
                 | ms | | cli |]; simpl.
  - destruct (onFilterChange_fields alias w) as (_ & _ & _ & Hin & Hrs & Hpeg & _).
    assert (Hu : unmounted (this (onFilterChange alias w)) = unmounted (this w)).
    { unfold onFilterChange. simpl. by destruct (filterTimeout (this w)). }
    assert (Ht : timers (onFilterChange alias w) ≠ []).
    { unfold onFilterChange, setTimeout. simpl.
      destruct (filterTimeout (this w)); simpl;
        intros Heq; apply app_eq_nil in Heq as [_ Heq]; discriminate Heq. }
    destruct (numbered_same w _ Hn Hpeg Hu Hin Hrs) as (? & ? & ? & ?).
    split; [done |]. split; [done |]. split; [done |]. split; [done |].
    intros _. by right.
  - unfold onFilterClear. apply spinnerInv_refresh.
    match goal with |- numbered ?x =>
      change x with (match filterTimeout (this (setState (λ s, mkState
        (publicRooms s) (loading s) (protocolsLoading s) (error s)
        (instanceId s) (roomServer s) []) w)) with
        | Some h => clearTimeout h (setState (λ s, mkState
            (publicRooms s) (loading s) (protocolsLoading s) (error s)
            (instanceId s) (roomServer s) []) w)
        | None => setState (λ s, mkState
            (publicRooms s) (loading s) (protocolsLoading s) (error s)
            (instanceId s) (roomServer s) []) w
        end) end.
    destruct (cancel_pending_inflight (setState (λ s, mkState
        (publicRooms s) (loading s) (protocolsLoading s) (error s)
        (instanceId s) (roomServer s) []) w)) as (? & ? & ? & ? & _).
    by apply (numbered_same w).
  - unfold onOptionChange. apply spinnerInv_refresh.
    apply (numbered_same w); [done | ..]; by destruct (truthy iid).
  - unfold onFillRequest.
    destruct (backwards || negb (truthy (nextBatch (this w)))); [done |].
    by apply spinnerInv_getMoreRooms.
  - destruct (findRequest rid w) as [r|] eqn:Hfind; [| done].
    set (w0 := updInflight (List.filter (λ p, negb (Nat.eqb (fst p) rid))) w).
    destruct (handle_inflight r resp w0) as (Hi & Hrs & Hp).
    pose proof (handle_keeps_unmounted r resp w0) as Hu.
    pose proof (handle_cases r resp w0) as Hcases.
    destruct (handle_frame r resp w0) as (Ht & _).
    destruct (handle r resp w0) as [w1 c] eqn:Hh. simpl in *.
    assert (Hn1 : numbered (settle rid c w1)).
    { apply (numbered_remove rid w);
        [done | simpl; by rewrite Hp | simpl; by rewrite Hu
         | simpl; by rewrite Hi | simpl; by rewrite Hrs]. }
    destruct Hn1 as (? & ? & ? & ?).
    split; [done |]. split; [done |]. split; [done |]. split; [done |].
    simpl. intros Hload.
    destruct Hcases as [[Hc ->] | [[Hum _] | Hl]]; [| | congruence].
    + destruct Hinv as (_ & _ & Hnd & _ & Haw).
      destruct (Haw Hload) as [(rid' & r' & Hin' & Hc') | Htm]; [| by right].
      left. exists rid', r'. split; [| done].
      simpl. apply list_elem_of_In, filter_In. split; [by apply list_elem_of_In |].
      simpl. apply negb_true_iff, Nat.eqb_neq. intros ->.
      apply findRequest_elem in Hfind.
      rewrite (NoDup_fst_unique _ _ _ _ Hnd Hin' Hfind) in Hc'.
      unfold changedSince in Hc, Hc'. simpl in Hc. congruence.
    + destruct Hn as (_ & Hum' & _). simpl in Hum. congruence.
  - destruct Hinv as (? & ? & ? & ? & Haw).
    split; [done |]. split; [done |]. split; [done |]. split; [done |].
    exact Haw.
  - destruct (dueTimer w) as [[h due]|]; [| done].
    unfold filterTimeoutCallback. apply spinnerInv_refresh.
    by apply (numbered_same w).
  - destruct cli as [cli|]; [| done].
    destruct Hinv as (? & ? & ? & ? & Haw).
    split; [by eauto |]. split; [done |]. split; [done |]. split; [done |].
    exact Haw.
  - done.
Qed.

(** On a directory mounted with a client, as long as it is not
    unmounted and the client does not go away, the loading flag is never
    left hanging: whenever it is set, a request is in flight whose
    response the handlers will accept as things stand, or the debounce
    timer is pending and will send one. *)
Theorem loading_is_always_awaited `{Env} (initialText : nullable)
    (client : Client) (storage : gmap (list N) (list N)) (evs : list Event)
    (Hcalm : Forall (λ e, calm e = true) evs) :
  let w := run (mount initialText (Some client) storage) evs in
  loading (state (this w)) = true →
  (∃ rid r, (rid, r) ∈ inflight w ∧ changedSince r w = false)
  ∨ timers w ≠ [].
Proof.
  intros w.
  assert (Hinv : spinnerInv w).
  { subst w.
    assert (Hm : spinnerInv (mount initialText (Some client) storage)).
    { unfold mount, componentDidMount. apply spinnerInv_refresh.
      split; [by eexists |]. split; [done |]. split; constructor. }
    revert Hm. generalize (mount initialText (Some client) storage).
    induction Hcalm as [|e evs He _ IH]; intros w Hw; [done |].
    simpl. by apply IH, spinnerInv_step. }
  destruct Hinv as (_ & _ & _ & _ & Haw). exact Haw.
Qed.

(* ---------------------------------------------------------------- *)
(** ** Scrolling through the pages *)

Lemma settle_accepts `{Env} (w : World) (rid : nat) (req : Request)
    (page : PublicRoomsData) :
  inflight w = [(rid, req)] → changedSince req w = false →
  unmounted (this w) = false →
  let w' := step w (EvSettle rid (Fulfilled page)) in
  publicRooms (state (this w'))
  = publicRooms (state (this w)) ++ default [] (chunk page)
  ∧ nextBatch (this w') = next_batch page
  ∧ loading (state (this w')) = false
  ∧ inflight w' = []
  ∧ peg w' = peg w
  ∧ unmounted (this w') = false
  ∧ requestSeq w' = requestSeq w.
Proof.
  intros Hin Hc Hu. simpl. unfold findRequest. rewrite Hin. simpl.
  rewrite Nat.eqb_refl. simpl. unfold onPublicRooms.
  rewrite (changedSince_this req w) by done. rewrite Hc. simpl. rewrite Hu.
  simpl. rewrite Hin. simpl. rewrite Nat.eqb_refl. simpl. done.
Qed.

Lemma scrollPage_spec `{Env} (w : World) (page : PublicRoomsData) :
  inflight w = [] → is_Some (peg w) → unmounted (this w) = false →
  let w' := scrollPage w page in
  inflight w' = [] ∧ is_Some (peg w') ∧ unmounted (this w') = false
  ∧ if truthy (nextBatch (this w))
    then publicRooms (state (this w'))
         = publicRooms (state (this w)) ++ default [] (chunk page)
         ∧ nextBatch (this w') = next_batch page
         ∧ loading (state (this w')) = false
    else w' = w.
Proof.
  intros Hin [cli Hpeg] Hu. unfold scrollPage.
  destruct (truthy (nextBatch (this w))) eqn:Htok.
  - assert (Hfill : step w (EvFillRequest false) = fst (getMoreRooms w)).
    { simpl. unfold onFillRequest. by rewrite Htok. }
    rewrite Hfill.
    destruct (getMoreRooms_request w cli Hpeg) as (req & Hi & _ & Hc & Hp & Hum).
    destruct (getMoreRooms_frame w) as (_ & _ & Hrooms & _).
    rewrite Hin in Hi. simpl in Hi.
    destruct (settle_accepts (fst (getMoreRooms w)) (requestSeq w) req page Hi Hc)
      as (H1 & H2 & H3 & H4 & H5 & H6 & _); [by rewrite Hum |].
    split; [done |]. split; [rewrite H5, Hp, Hpeg; by eauto |]. split; [done |].
    rewrite H1, Hrooms. done.
  - assert (Hfill : step w (EvFillRequest false) = w).
    { simpl. unfold onFillRequest. by rewrite Htok. }
    rewrite Hfill. simpl. unfold findRequest. rewrite Hin. simpl.
    split; [done |]. split; [by eauto |]. done.
Qed.

Lemma scroll_spec `{Env} (pages : list PublicRoomsData) (w : World) :
  inflight w = [] → is_Some (peg w) → unmounted (this w) = false →
  let used := if truthy (nextBatch (this w)) then pagesUsed pages else [] in
  publicRooms (state (this (scroll w pages)))
  = publicRooms (state (this w)) ++ concat ((λ p, default [] (chunk p)) <$> used)
  ∧ nextBatch (this (scroll w pages))
    = default (nextBatch (this w)) (next_batch <$> last used)
  ∧ inflight (scroll w pages) = [].
Proof.
  revert w. induction pages as [|p ps IH]; intros w Hin Hpeg Hu.
  - simpl. destruct (truthy (nextBatch (this w))); simpl;
      by rewrite app_nil_r.
  - change (scroll w (p :: ps)) with (scroll (scrollPage w p) ps).
    destruct (scrollPage_spec w p Hin Hpeg Hu) as (Hin' & Hpeg' & Hu' & Hw').
    specialize (IH (scrollPage w p) Hin' Hpeg' Hu'). simpl in IH.
    destruct (truthy (nextBatch (this w))) eqn:Htok.
    + destruct Hw' as (Hrooms & Hnb & _). rewrite Hrooms, Hnb in IH.
      destruct IH as (IH1 & IH2 & IH3). simpl.
      split; [| split; [| done]].
      * rewrite IH1. by rewrite <- app_assoc.
      * rewrite IH2. destruct (truthy (next_batch p)); [| done].
        rewrite last_cons. by destruct (last (pagesUsed ps)).
    + rewrite Hw' in *. rewrite Htok in IH. exact IH.
Qed.

(** Scrolling composes: after the first page has arrived, each fill
    request of the scroll panel followed by its response appends the
    response's rooms, as long as the page before carried a token.  The
    room list is then the concatenation, in order, of the pages up to
    and including the first one without a token, the stored token is
    that of the last of these pages, and nothing is left in flight;
    later fill requests send nothing. *)
Theorem scrolling_appends_the_pages `{Env} (initialText : nullable)
    (client : Client) (storage : gmap (list N) (list N))
    (first : PublicRoomsData) (pages : list PublicRoomsData) :
  let w0 := step (mount initialText (Some client) storage)
                 (EvSettle 0 (Fulfilled first)) in
  let w := scroll w0 pages in
  let used := pagesUsed (first :: pages) in
  publicRooms (state (this w)) = concat ((λ p, default [] (chunk p)) <$> used)
  ∧ Some (nextBatch (this w)) = next_batch <$> last used
  ∧ inflight w = []
  ∧ fst (onFillRequest true w) = w
  ∧ (truthy (nextBatch (this w)) = false → fst (onFillRequest false w) = w).
Proof.
  intros w0 w used.
  set (m := mount initialText (Some client) storage) in *.
  assert (Hm : ∃ req, inflight m = [(0%nat, req)] ∧ changedSince req m = false
                      ∧ unmounted (this m) = false ∧ peg m = Some client
                      ∧ publicRooms (state (this m)) = []).
  { subst m. unfold mount, componentDidMount.
    destruct (refreshRoomList_request ByMount
                (construct initialText (Some client) storage) client eq_refl)
      as (req & Hi & _ & _ & _ & _ & _ & _ & Hc & _ & _ & Hp & Hu).
    destruct (refreshRoomList_effect ByMount
                (construct initialText (Some client) storage))
      as (_ & _ & Hrooms & _).
    exists req. by rewrite Hi, Hc, Hu, Hp, Hrooms. }
  destruct Hm as (req & Hi & Hc & Hu & Hp & Hrooms).
  destruct (settle_accepts m 0 req first Hi Hc Hu)
    as (H1 & H2 & _ & H4 & H5 & H6 & _).
  fold w0 in H1, H2, H4, H5, H6. rewrite Hrooms in H1. simpl in H1.
  assert (Hpeg0 : is_Some (peg w0)) by (rewrite H5, Hp; by eauto).
  destruct (scroll_spec pages w0 H4 Hpeg0 H6) as (S1 & S2 & S3).
  fold w in S1, S2, S3. rewrite H1, H2 in S1. rewrite H2 in S2.
  split; [| split; [| split; [done | split]]].
  - rewrite S1. subst used. simpl. by destruct (truthy (next_batch first)).
  - rewrite S2. subst used. simpl.
    destruct (truthy (next_batch first)); [| done].
    rewrite last_cons. by destruct (last (pagesUsed pages)).
  - done.
  - intros Htok. unfold onFillRequest. by rewrite Htok.
Qed.

(* ---------------------------------------------------------------- *)
(** ** Concrete runs *)

Section Concrete.
#[local] Existing Instance sampleEnv.

(** The first request of a freshly mounted directory fails with the
    message "boom": that message alone becomes the error. *)
Lemma failed_request_error_text_witness :
  let w := mount JNull (Some sampleClient) noStorage in
  let r := mkRequest (mkOpts 20 (Some JNull) false None None None) [] JNull JNull in
  let err := mkError (JStr (lit "boom")) in
  let w' := fst (onPublicRoomsError r err w) in
  findRequest 0 w = Some r
  ∧ loading (state (this w)) = true
  ∧ loading (state (this w')) = false
  ∧ error (state (this w')) = JStr (lit "boom")
  ∧ tracked w' = [lit "Failed to get public room list"].
Proof.
  intros w r err w'.
  destruct (failed_request_error_text r err w) as (_ & Hl & _ & _ & Ht & He & _).
  - vm_compute. reflexivity.
  - vm_compute. reflexivity.
  - split; [vm_compute; reflexivity |].
    split; [vm_compute; reflexivity |].
    split; [exact Hl |]. split; [by apply He |]. exact Ht.
Defined.


(** After mounting with a client and typing "x" the directory is
    loading, and it waits for the first request or for the timer. *)
Lemma loading_is_always_awaited_witness :
  let evs := [EvFilterChange (JStr (lit "x"))] in
  let w := run (mount JNull (Some sampleClient) noStorage) evs in
  Forall (λ e, calm e = true) evs
  ∧ loading (state (this w)) = true
  ∧ ((∃ rid r, (rid, r) ∈ inflight w ∧ changedSince r w = false)
     ∨ timers w ≠ []).
Proof.
  intros evs w.
  assert (Hcalm : Forall (λ e, calm e = true) evs) by (by repeat constructor).
  assert (Hloading : loading (state (this w)) = true)
    by (vm_compute; reflexivity).
  split; [exact Hcalm |]. split; [exact Hloading |].
  exact (loading_is_always_awaited JNull sampleClient noStorage evs Hcalm
           Hloading).
Defined.

End Concrete.

End RoomDirectoryActionsFacts.

(* ================================================================== *)
(** * RoomDirectory: what is rendered *)
(* ================================================================== *)

Module RoomDirectoryRenderFacts.
Import JS JSFacts RoomDirectory RoomDirectoryFacts RoomDirectoryActions
  RoomDirectorySearch RoomDirectoryRender.

(* ---------------------------------------------------------------- *)
(** ** The error *)

Lemma getMoreRooms_error `{Env} (w : World) :
  error (state (this (fst (getMoreRooms w)))) = error (state (this w)).
Proof. unfold getMoreRooms. by destruct (peg w). Qed.

Lemma refreshRoomList_error `{Env} (who : Caller) (w : World) :
  error (state (this (refreshRoomList who w))) = error (state (this w)).
Proof. unfold refreshRoomList. by rewrite getMoreRooms_error. Qed.

Lemma step_error `{Env} (w : World) (e : Event) :
  keepsError e = true →
  error (state (this (step w e))) = error (state (this w)).
Proof.
  intros Hkeep.
  destruct e as [alias | | server iid | backwards | rid resp
                 | ms | | cli |]; try done; cbn [step].
  - unfold onFilterChange. cbn.
    by destruct (filterTimeout (this w)).
  - unfold onFilterClear. rewrite refreshRoomList_error.
    cbn. by destruct (filterTimeout (this w)).
  - unfold onFillRequest. destruct (_ || _); [done |].
    apply getMoreRooms_error.
  - destruct resp as [data | err]; [| done].
    destruct (findRequest rid w) as [r|]; [| done].
    cbn [handle]. unfold onPublicRooms.
    match goal with |- context [changedSince r ?x] =>
      destruct (changedSince r x); [done |]
    end.
    cbn. by destruct (unmounted (this w)).
  - destruct (dueTimer w) as [[h due]|]; [| done].
    unfold filterTimeoutCallback. by rewrite refreshRoomList_error.
  - unfold componentWillUnmount. by destruct (filterTimeout (this w)).
Qed.

Lemma run_error `{Env} (evs : list Event) (w : World) :
  Forall (λ e, keepsError e = true) evs →
  error (state (this (run w evs))) = error (state (this w)).
Proof.
  intros Hkeep. revert w.
  induction Hkeep as [| e evs He _ IH]; intros w; [done |].
  cbn [run fold_left]. rewrite <- (step_error w e He). apply IH.
Qed.

(** An error stays until the user chooses a server or a network or a
    later request fails: typing, clearing the filter, scrolling, rooms
    that arrive, timers and unmounting leave it as it is, and as long
    as it is there the directory renders the error text and neither
    rooms nor a spinner.  Choosing a server or a network clears it. *)
Theorem error_stays_until_server_change `{Env} (w : World)
    (evs : list Event) (Hkeep : Forall (λ e, keepsError e = true) evs) :
  let w' := run w evs in
  error (state (this w')) = error (state (this w))
  ∧ (truthy (error (state (this w))) = true →
     content w' = Some (ErrorText (error (state (this w)))))
  ∧ ∀ server instanceId,
      error (state (this (step w' (EvOptionChange server instanceId))))
      = JNull.
Proof.
  intros w'. pose proof (run_error evs w Hkeep) as Herr. fold w' in Herr.
  split; [exact Herr |]. split.
  - intros Ht. unfold content. by rewrite Herr, Ht.
  - intros server instanceId. cbn [step]. unfold onOptionChange.
    rewrite refreshRoomList_error. by destruct (truthy instanceId).
Qed.

(* ---------------------------------------------------------------- *)
(** ** The join button of the search box *)

Lemma getFields_any_input (u u' : jsstring) (protocol : IProtocol)
    (instance : IInstance) :
  is_Some (getFieldsForThirdPartyLocation u protocol instance) →
  is_Some (getFieldsForThirdPartyLocation u' protocol instance).
Proof.
  unfold getFieldsForThirdPartyLocation.
  destruct (location_fields protocol) as [l|]; [| done].
  by destruct (copyInstanceFields l instance ∅).
Qed.

(** When the search box shows its join button, the text in it looks
    like an identifier; and if a network is selected whose protocol and
    instance are known, a click on the button finds the fields of the
    lookup filled, whatever the text is by then: with a client it asks
    for the room's location on that network, and the dialog saying that
    the network cannot be joined does not come up; without a client the
    call on the client fails.  That dialog does come up when the
    selected network is not among the known ones. *)
Theorem join_button_offers_a_lookup `{Env}
    (testSource : jsstring → jsstring → bool) (filterString alias : jsstring)
    (fieldType : option IFieldType)
    (lookup : option (jsstring * IProtocol * IInstance)) (w : World)
    (Hshown : showJoinButton testSource filterString fieldType lookup = true)
    (Hnetwork : truthy (instanceId (state (this w))) = true
                ∧ instanceId (state (this w)) ≠ JStr ALL_ROOMS) :
  stringLooksLikeId testSource filterString fieldType = true
  ∧ match lookup with
    | Some (c :: protocolName, protocol, instance) =>
      ∃ fields,
        getFieldsForThirdPartyLocation alias protocol instance = Some fields
        ∧ onJoinFromSearchClick alias lookup w
          = match peg w with
            | Some _ =>
              mkOutcome [GetThirdpartyLocation (c :: protocolName) fields]
                        false
            | None => mkOutcome [] true
            end
    | _ =>
      ∃ title description,
        onJoinFromSearchClick alias lookup w
        = mkOutcome [ErrorDialog title description] false
    end.
Proof.
  destruct Hnetwork as [Ht Hne].
  unfold showJoinButton in Hshown. unfold onJoinFromSearchClick.
  rewrite Ht, bool_decide_false by done. cbn [negb orb].
  destruct lookup as [[[[| c protocolName] protocol] instance]|].
  - split; [done |]. by eexists _, _.
  - destruct (getFieldsForThirdPartyLocation filterString protocol instance)
      as [fs|] eqn:Hfs; [| done].
    split; [done |].
    destruct (getFields_any_input filterString alias protocol instance
                ltac:(by rewrite Hfs)) as [fields Hfields].
    exists fields. by rewrite Hfields.
  - split; [done |]. by eexists _, _.
Qed.

(* ---------------------------------------------------------------- *)
(** ** Concrete runs *)

Section Concrete.
#[local] Existing Instance sampleEnv.

(** The first request fails with "boom"; the user then searches for
    "x", and the search finds a room. *)
Lemma error_stays_until_server_change_witness :
  let w := run (mount JNull (Some sampleClient) noStorage)
               [EvSettle 0 (Rejected (mkError (JStr (lit "boom"))))] in
  let evs := [EvFilterChange (JStr (lit "x")); EvElapse 700; EvTimer;
              EvSettle 1 (Fulfilled (mkData (Some [sampleRoom "!a"]) JNull))] in
  let w' := run w evs in
  Forall (λ e, keepsError e = true) evs
  ∧ length (publicRooms (state (this w'))) = 1%nat
  ∧ content w' = Some (ErrorText (JStr (lit "boom"))).
Proof.
  intros w evs w'.
  assert (Hkeep : Forall (λ e, keepsError e = true) evs)
    by (by repeat constructor).
  split; [exact Hkeep |]. split; [vm_compute; reflexivity |].
  destruct (error_stays_until_server_change w evs Hkeep) as (_ & Hc & _).
  apply Hc. vm_compute. reflexivity.
Defined.

(** An IRC network is selected and the search box holds a room alias. *)
Lemma join_button_offers_a_lookup_witness :
  let w := step (mount JNull (Some sampleClient) noStorage)
                (EvOptionChange (lit "example.org") (JStr (lit "irc-1"))) in
  let protocol := mkProtocol (Some [lit "network"; lit "channel"]) in
  let instance := mkInstance (lit "irc-1") {[ lit "network" := lit "libera" ]} in
  let lookup := Some (lit "irc", protocol, instance) in
  let testSource := λ _ _ : jsstring, false in
  showJoinButton testSource (lit "#room:example.org") None lookup = true
  ∧ ∃ fields,
      getFieldsForThirdPartyLocation (lit "#other") protocol instance
      = Some fields
      ∧ onJoinFromSearchClick (lit "#other") lookup w
        = mkOutcome [GetThirdpartyLocation (lit "irc") fields] false.
Proof.
  intros w protocol instance lookup testSource.
  assert (Hshown : showJoinButton testSource (lit "#room:example.org") None
                     lookup = true) by (vm_compute; reflexivity).
  split; [exact Hshown |].
  refine (proj2 (join_button_offers_a_lookup testSource
                   (lit "#room:example.org") (lit "#other") None lookup w
                   Hshown _)).
  split; [vm_compute; reflexivity | vm_compute; discriminate].
Defined.

End Concrete.

End RoomDirectoryRenderFacts.

Module RegExpFacts.
Import JS RegExp RoomDirectorySearch.

Lemma matches_nil_acceptsEmpty (r : regex) (s : jsstring) :
  matches r s → s = [] → acceptsEmpty r = true.
Proof.
  induction 1 as [| | r1 r2 s1 s2 _ IH1 _ IH2 | r1 r2 s _ IH | r1 r2 s _ IH
                  | | r s1 s2 _ _ _ _]; intros Hnil; simpl; try done.
  - apply app_eq_nil in Hnil as [-> ->]. by rewrite IH1, IH2.
  - by rewrite IH.
  - rewrite IH by done. apply orb_true_r.
Qed.

Lemma acceptsEmpty_matches (r : regex) :
  acceptsEmpty r = true → matches r [].
Proof.
  induction r as [| | cls | r1 IH1 r2 IH2 | r1 IH1 r2 IH2 | r _]; simpl;
    intros Hr; try done.
  - constructor.
  - apply andb_true_iff in Hr as [H1 H2].
    change (@nil N) with (@nil N ++ @nil N). constructor; auto.
  - apply orb_true_iff in Hr as [H1 | H2].
    + apply matches_alt_l; auto.
    + apply matches_alt_r; auto.
  - constructor.
Qed.

Lemma deriv_sound (c : N) (r : regex) (s : jsstring) :
  matches (deriv c r) s → matches r (c :: s).
Proof.
  revert s.
  induction r as [| | cls | r1 IH1 r2 IH2 | r1 IH1 r2 IH2 | r IH]; simpl;
    intros s Hm.
  - inversion Hm.
  - inversion Hm.
  - destruct (cls c) eqn:Hc; inversion Hm; subst. by constructor.
  - destruct (acceptsEmpty r1) eqn:Hr1.
    + inversion Hm as [| | | ? ? ? Hl | ? ? ? Hr | |]; subst.
      * inversion Hl as [| | ? ? s1 s2 H1 H2 | | | |]; subst.
        change (c :: s1 ++ s2) with ((c :: s1) ++ s2). constructor; auto.
      * change (c :: s) with ([] ++ c :: s).
        constructor; [by apply acceptsEmpty_matches | auto].
    + inversion Hm as [| | ? ? s1 s2 H1 H2 | | | |]; subst.
      change (c :: s1 ++ s2) with ((c :: s1) ++ s2). constructor; auto.
  - inversion Hm; subst; [apply matches_alt_l | apply matches_alt_r]; auto.
  - inversion Hm as [| | ? ? s1 s2 H1 H2 | | | |]; subst.
    change (c :: s1 ++ s2) with ((c :: s1) ++ s2). constructor; auto.
Qed.

Lemma deriv_complete (r : regex) (s' : jsstring) :
  matches r s' → ∀ c s, s' = c :: s → matches (deriv c r) s.
Proof.
  induction 1 as [| cls c0 Hc | r1 r2 s1 s2 H1 IH1 H2 IH2 | r1 r2 s0 _ IH
                  | r1 r2 s0 _ IH | | r s1 s2 H1 IH1 H2 IH2];
    intros c s Heq; simpl.
  - discriminate.
  - injection Heq as -> <-. rewrite Hc. constructor.
  - destruct s1 as [|c1 s1]; simpl in Heq.
    + rewrite (matches_nil_acceptsEmpty r1 [] H1 eq_refl).
      apply matches_alt_r. by apply IH2.
    + injection Heq as -> <-.
      assert (Hcat : matches (Cat (deriv c r1) r2) (s1 ++ s2))
        by (constructor; auto).
      destruct (acceptsEmpty r1); [by apply matches_alt_l | done].
  - apply matches_alt_l. by apply IH.
  - apply matches_alt_r. by apply IH.
  - discriminate.
  - destruct s1 as [|c1 s1]; simpl in Heq.
    + by apply IH2.
    + injection Heq as -> <-. constructor; auto.
Qed.

(** The matcher decides whether some prefix of the string matches. *)
Lemma testAtStart_spec (r : regex) (s : jsstring) :
  testAtStart r s = true ↔ ∃ pre post, s = pre ++ post ∧ matches r pre.
Proof.
  revert r. induction s as [|c s IH]; intros r; simpl.
  - rewrite orb_false_r. split.
    + intros Hr. exists [], []. split; [done | by apply acceptsEmpty_matches].
    + intros (pre & post & Heq & Hm). symmetry in Heq.
      apply app_eq_nil in Heq as [-> _].
      by eapply matches_nil_acceptsEmpty.
  - rewrite orb_true_iff, IH. split.
    + intros [Hr | (pre & post & -> & Hm)].
      * exists [], (c :: s). split; [done | by apply acceptsEmpty_matches].
      * exists (c :: pre), post. split; [done | by apply deriv_sound].
    + intros ([|c' pre] & post & Heq & Hm).
      * left. by eapply matches_nil_acceptsEmpty.
      * injection Heq as <- ->. right. exists pre, post.
        split; [done | by eapply deriv_complete].
Qed.

Lemma matches_star_cls (cls : N → bool) (s : jsstring) :
  matches (Star (Cls cls)) s ↔ Forall (λ c, cls c = true) s.
Proof.
  split.
  - remember (Star (Cls cls)) as r eqn:Hr. intros Hm.
    induction Hm as [| | | | | | r0 s1 s2 H1 _ H2 IH2]; try discriminate.
    + constructor.
    + injection Hr as ->. inversion H1; subst. constructor; [done |].
      by apply IH2.
  - induction 1 as [|c s Hc _ IH]; [constructor |].
    change (c :: s) with ([c] ++ s). constructor; [by constructor | done].
Qed.

Lemma matches_idPattern (pre : jsstring) :
  matches idPattern pre
  ↔ ∃ c1 localpart c2,
      pre = [35; c1] ++ localpart ++ [58; c2]
      ∧ Forall (λ c, isWhiteSpace c = false) (c1 :: localpart)
      ∧ isWhiteSpace c2 = false.
Proof.
  unfold idPattern, Plus. split.
  - intros Hm.
    inversion Hm as [| | ? ? s1 s2 Hhash Hrest | | | |]; subst.
    inversion Hhash as [| ? c Hc | | | | |]; subst.
    inversion Hrest as [| | ? ? s3 s4 Hplus Htail | | | |]; subst.
    inversion Hplus as [| | ? ? s5 s6 Hone Hstar | | | |]; subst.
    inversion Hone as [| ? c1 Hc1 | | | | |]; subst.
    inversion Htail as [| | ? ? s7 s8 Hcolon Hlast | | | |]; subst.
    inversion Hcolon as [| ? c3 Hc3 | | | | |]; subst.
    inversion Hlast as [| ? c2 Hc2 | | | | |]; subst.
    apply N.eqb_eq in Hc, Hc3. subst.
    apply matches_star_cls in Hstar.
    exists c1, s6, c2. split; [by rewrite <- !app_assoc |]. split.
    + constructor; [by apply negb_true_iff |].
      eapply Forall_impl; [exact Hstar |]. intros x. by apply negb_true_iff.
    + by apply negb_true_iff.
  - intros (c1 & localpart & c2 & -> & Hloc & Hc2).
    apply Forall_cons in Hloc as [Hc1 Hloc].
    change ([35; c1] ++ localpart ++ [58; c2])
      with ([35] ++ ([c1] ++ localpart) ++ [58] ++ [c2]).
    constructor; [by constructor |].
    constructor; [| constructor; constructor; [done | by apply negb_true_iff]].
    constructor; [constructor; by apply negb_true_iff |].
    apply matches_star_cls.
    eapply Forall_impl; [exact Hloc |]. intros x. by apply negb_true_iff.
Qed.

(** Without a pattern of its own for the field, a string looks like a
    room identifier exactly when it starts with "#", goes on with one or
    more code units that are not white space, then has a colon followed
    by a code unit that is not white space; what comes after is not
    looked at.  Such a string has at least four code units.  With a
    pattern for the field, that pattern alone decides. *)
Theorem id_test_shape (testSource : jsstring → jsstring → bool)
    (s : jsstring) (fieldType : option IFieldType) :
  match fieldType with
  | Some ft =>
    truthy (regexp ft) = true →
    stringLooksLikeId testSource s fieldType
    = testSource (toString (regexp ft)) s
  | None => True
  end
  ∧ ((∀ ft, fieldType = Some ft → truthy (regexp ft) = false) →
     (stringLooksLikeId testSource s fieldType = true
      ↔ ∃ c1 localpart c2 rest,
          s = [35; c1] ++ localpart ++ [58; c2] ++ rest
          ∧ Forall (λ c, isWhiteSpace c = false) (c1 :: localpart)
          ∧ isWhiteSpace c2 = false)
     ∧ (stringLooksLikeId testSource s fieldType = true →
        (4 ≤ length s)%nat ∧ 58 ∈ s)).
Proof.
  split.
  - destruct fieldType as [ft|]; [| done]. simpl. by intros ->.
  - intros Hdefault.
    assert (Hdef : stringLooksLikeId testSource s fieldType
                   = testAtStart idPattern s).
    { destruct fieldType as [ft|]; [| done]. simpl.
      by rewrite (Hdefault ft eq_refl). }
    rewrite Hdef.
    assert (Hiff : testAtStart idPattern s = true
              ↔ ∃ c1 localpart c2 rest,
                  s = [35; c1] ++ localpart ++ [58; c2] ++ rest
                  ∧ Forall (λ c, isWhiteSpace c = false) (c1 :: localpart)
                  ∧ isWhiteSpace c2 = false).
    { rewrite testAtStart_spec. split.
      - intros (pre & post & -> & Hm).
        apply matches_idPattern in Hm as (c1 & localpart & c2 & -> & ? & ?).
        exists c1, localpart, c2, post. split; [| done].
        by rewrite <- !app_assoc.
      - intros (c1 & localpart & c2 & rest & -> & ? & ?).
        exists ([35; c1] ++ localpart ++ [58; c2]), rest.
        split; [by rewrite <- !app_assoc |].
        apply matches_idPattern. by exists c1, localpart, c2. }
    split; [exact Hiff |].
    intros (c1 & localpart & c2 & rest & -> & _ & _)%Hiff. split.
    + simpl. rewrite !length_app. simpl. lia.
    + do 2 right. apply elem_of_app. right. left.
Qed.

End RegExpFacts.

Module VideoFeedLifecycleFacts.
Import VideoFeed VideoFeedFacts VideoFeedLifecycle.

(* ---------------------------------------------------------------- *)
(** ** Adding and removing listeners *)

Lemma removeLast_added (l : list (CallFeedEvent * Listener))
    (x : CallFeedEvent * Listener) :
  reverse (removeFirst x (reverse (l ++ [x]))) = l.
Proof.
  rewrite reverse_app. simpl. rewrite decide_True by done.
  apply reverse_involutive.
Qed.

Lemma removeLast_added_before (l : list (CallFeedEvent * Listener))
    (x y : CallFeedEvent * Listener) :
  x ≠ y →
  reverse (removeFirst x (reverse ((l ++ [x]) ++ [y]))) = l ++ [y].
Proof.
  intros Hne. rewrite !reverse_app. simpl.
  rewrite decide_False by done. rewrite decide_True by done.
  rewrite reverse_cons. by rewrite reverse_involutive.
Qed.

Lemma cnt_app x l1 l2 : cnt x (l1 ++ l2) = (cnt x l1 + cnt x l2)%nat.
Proof. unfold cnt. by rewrite List.filter_app, length_app. Qed.

Lemma cnt_reverse x l : cnt x (reverse l) = cnt x l.
Proof.
  induction l as [|y l IH]; [done |].
  rewrite reverse_cons, cnt_app, IH. change (y :: l) with ([y] ++ l).
  rewrite cnt_app. lia.
Qed.

Lemma cnt_removeFirst x y l :
  cnt x (removeFirst y l)
  = if decide (x = y) then Nat.pred (cnt x l) else cnt x l.
Proof.
  induction l as [|z l IH]; simpl; [by case_decide |].
  destruct (decide (y = z)) as [<- | Hyz].
  - unfold cnt. simpl. destruct (decide (x = y)) as [-> | Hxy].
    + by rewrite bool_decide_true.
    + by rewrite bool_decide_false.
  - unfold cnt in *. simpl. destruct (bool_decide (z = x)) eqn:Hz; simpl.
    + apply bool_decide_eq_true in Hz. subst z.
      rewrite decide_False in IH |- * by done. by rewrite IH.
    + rewrite IH. case_decide; [| done].
      destruct (length (List.filter _ l)); done.
Qed.

Lemma cnt_removeListener x y l :
  cnt x (reverse (removeFirst y (reverse l)))
  = if decide (x = y) then Nat.pred (cnt x l) else cnt x l.
Proof. by rewrite cnt_reverse, cnt_removeFirst, cnt_reverse. Qed.

(** Follows the heap through the calls [updateFeed] makes on one feed. *)
Ltac follow_feed Hf f :=
  repeat first
    [ progress cbn [updFeed updElement props_feed heap fmap option_fmap
                    option_map purpose]
    | rewrite lookup_alter_eq
    | rewrite Hf
    | rewrite (decide_True (P := Some (purpose f) = Some Usermedia))
        by congruence
    | rewrite (decide_False (P := Some (purpose f) = Some Usermedia))
        by congruence
    | rewrite (decide_True (P := purpose f = Usermedia)) by congruence
    | rewrite (decide_False (P := purpose f = Usermedia)) by congruence
    | rewrite (decide_False (P := None = Some Usermedia)) by congruence ].

Lemma updateFeed_lookup (oldFeed newFeed : option nat) (w : World)
    (f : CallFeed) :
  oldFeed ≠ newFeed → heap w !! props_feed w = Some f →
  heap (updateFeed oldFeed newFeed w) !! props_feed w
  = Some ((if newFeed is Some _ then attached else id)
            ((if oldFeed is Some _ then detached else id) f)).
Proof.
  intros Hne Hf. unfold updateFeed. rewrite decide_False by done.
  unfold removeListener, addListener, measureVolumeActivity, stopMedia,
    playMedia, purposeOf, attached, detached.
  destruct (decide (purpose f = Usermedia)) as [Hp | Hp];
    destruct oldFeed as [o|], newFeed as [n|]; try done;
    follow_feed Hf f; reflexivity.
Qed.

Lemma updateFeed_lookup_None (oldFeed newFeed : option nat) (w : World) :
  heap w !! props_feed w = None →
  heap (updateFeed oldFeed newFeed w) !! props_feed w = None.
Proof.
  intros Hf. unfold updateFeed. case_decide; [done |].
  unfold removeListener, addListener, measureVolumeActivity, stopMedia,
    playMedia, purposeOf.
  destruct oldFeed as [o|], newFeed as [n|];
    follow_feed Hf (mkFeed Usermedia 0 false false [] false); reflexivity.
Qed.

Lemma updateFeed_props (oldFeed newFeed : option nat) (w : World) :
  props_feed (updateFeed oldFeed newFeed w) = props_feed w.
Proof.
  unfold updateFeed. case_decide; [done |].
  unfold removeListener, addListener, measureVolumeActivity, stopMedia,
    playMedia.
  destruct oldFeed, newFeed; cbn [updFeed updElement props_feed];
    repeat (case_decide; cbn [updFeed updElement props_feed]); reflexivity.
Qed.

(* ---------------------------------------------------------------- *)
(** ** Mounting and unmounting *)

(** Mounting and then unmounting gives every feed its list of listeners
    back exactly as it was, whatever was registered before, and leaves
    a user-media feed that was shown with volume measuring switched
    off. *)
Theorem mount_unmount_restores_listeners (w : World) (id : nat) :
  let w' := componentWillUnmount (componentDidMount w) in
  listeners <$> heap w' !! id = listeners <$> heap w !! id
  ∧ props_feed w' = props_feed w
  ∧ (purposeOf (props_feed w) w = Some Usermedia →
     measuringVolumeActivity <$> heap w' !! props_feed w = Some false).
Proof.
  intros w'. subst w'. unfold componentWillUnmount, componentDidMount.
  set (w1 := updateFeed None (Some (props_feed w)) w).
  assert (Hp1 : props_feed w1 = props_feed w) by apply updateFeed_props.
  assert (Hpm : props_feed (playMedia w1) = props_feed w) by done.
  rewrite Hpm.
  set (w2 := updateFeed (Some (props_feed w)) None (playMedia w1)).
  assert (Hp2 : props_feed w2 = props_feed w)
    by (subst w2; by rewrite updateFeed_props).
  split; [| split; [done |]].
  - destruct (decide (id = props_feed w)) as [-> | Hne].
    + destruct (heap w !! props_feed w) as [f|] eqn:Hf.
      * assert (H1 : heap (playMedia w1) !! props_feed (playMedia w1)
                     = Some (attached f)).
        { rewrite Hpm. change (heap (playMedia w1)) with (heap w1). subst w1.
          by rewrite (updateFeed_lookup None (Some (props_feed w)) w f). }
        pose proof (updateFeed_lookup (Some (props_feed w)) None
                      (playMedia w1) (attached f) ltac:(done) H1) as H2.
        rewrite Hpm in H2. fold w2 in H2. rewrite H2.
        unfold detached, attached.
        cbn [Datatypes.id listeners fmap option_fmap option_map]. f_equal.
        rewrite (removeLast_added_before _ newStreamPair muteStatePair)
          by done.
        apply removeLast_added.
      * assert (H1 : heap (playMedia w1) !! props_feed (playMedia w1) = None).
        { rewrite Hpm. change (heap (playMedia w1)) with (heap w1). subst w1.
          by apply updateFeed_lookup_None. }
        pose proof (updateFeed_lookup_None (Some (props_feed w)) None
                      (playMedia w1) H1) as H2.
        rewrite Hpm in H2. fold w2 in H2. by rewrite H2.
    + subst w2. rewrite updateFeed_other by (by rewrite Hpm).
      change (heap (playMedia w1)) with (heap w1).
      subst w1. by rewrite updateFeed_other.
  - unfold purposeOf. intros Hpurpose.
    destruct (heap w !! props_feed w) as [f|] eqn:Hf; [| done].
    injection Hpurpose as Hpurpose.
    assert (H1 : heap (playMedia w1) !! props_feed (playMedia w1)
                 = Some (attached f)).
    { rewrite Hpm. change (heap (playMedia w1)) with (heap w1). subst w1.
      by rewrite (updateFeed_lookup None (Some (props_feed w)) w f). }
    pose proof (updateFeed_lookup (Some (props_feed w)) None
                  (playMedia w1) (attached f) ltac:(done) H1) as H2.
    rewrite Hpm in H2. fold w2 in H2. rewrite H2.
    unfold detached, attached.
    cbn [Datatypes.id purpose measuringVolumeActivity fmap option_fmap
         option_map].
    by rewrite decide_True.
Qed.

(* ---------------------------------------------------------------- *)
(** ** A change of feed *)

Lemma receiveProps_lookup (newFeed : nat) (w : World) (f : CallFeed) :
  newFeed ≠ props_feed w → heap w !! newFeed = Some f →
  heap (receiveProps newFeed w) !! newFeed = Some (attached (detached f))
  ∧ props_feed (receiveProps newFeed w) = newFeed.
Proof.
  intros Hne Hf. unfold receiveProps, componentDidUpdate.
  match goal with |- context [updateFeed ?o ?n ?x] =>
    pose proof (updateFeed_lookup o n x f) as Hl;
    pose proof (updateFeed_props o n x) as Hp;
    set (w1 := updateFeed o n x) in *
  end.
  cbn [props_feed heap] in Hl, Hp.
  assert (Hl' : heap w1 !! newFeed = Some (attached (detached f))).
  { apply Hl; [| done]. intros [= Heq]. by destruct Hne. }
  by destruct (_ || _).
Qed.

Lemma receiveProps_props (newFeed : nat) (w : World) :
  props_feed (receiveProps newFeed w) = newFeed.
Proof.
  unfold receiveProps, componentDidUpdate.
  match goal with |- context [updateFeed ?o ?n ?x] =>
    pose proof (updateFeed_props o n x) as Hp;
    set (w1 := updateFeed o n x) in *
  end.
  cbn [props_feed] in Hp. by destruct (_ || _).
Qed.

Lemma receiveProps_same (w : World) :
  heap (receiveProps (props_feed w) w) = heap w
  ∧ props_feed (receiveProps (props_feed w) w) = props_feed w.
Proof.
  unfold receiveProps, componentDidUpdate, updateFeed.
  cbn [props_feed heap]. rewrite decide_True by done.
  by destruct (_ || _).
Qed.

Lemma attached_carries (f : CallFeed) :
  newStreamPair ∈ listeners (attached f)
  ∧ muteStatePair ∈ listeners (attached f).
Proof.
  unfold attached. cbn [listeners]. split.
  - apply elem_of_app. left. apply elem_of_app. right. left.
  - apply elem_of_app. right. left.
Qed.

(** When the parent passes a different feed, the feed shown until then
    is left exactly as it was, listeners and volume measuring included;
    the new feed loses at most one instance of each of the two listeners
    and then gets both added at the end of its list, so that it carries
    the pair. *)
Theorem prop_change_touches_the_new_feed_only (newFeed : nat) (w : World)
    (Hne : newFeed ≠ props_feed w) :
  let w' := receiveProps newFeed w in
  props_feed w' = newFeed
  ∧ heap w' !! props_feed w = heap w !! props_feed w
  ∧ (∀ f, heap w !! newFeed = Some f →
          heap w' !! newFeed = Some (attached (detached f))
          ∧ carriesListeners newFeed w' = true).
Proof.
  intros w'. split; [| split].
  - apply receiveProps_props.
  - by apply receiveProps_old_feed_untouched.
  - intros f Hf. destruct (receiveProps_lookup newFeed w f Hne Hf) as [Hl _].
    subst w'. split; [done |]. unfold carriesListeners. rewrite Hl.
    destruct (attached_carries (detached f)) as [H1 H2].
    by rewrite !bool_decide_true.
Qed.

(* ---------------------------------------------------------------- *)
(** ** No listener is registered twice *)

Lemma cnt_single (x y : CallFeedEvent * Listener) :
  cnt x [y] = if decide (x = y) then 1%nat else 0%nat.
Proof.
  unfold cnt. simpl. destruct (decide (x = y)) as [-> | Hxy].
  - by rewrite bool_decide_true.
  - rewrite bool_decide_false; [done |]. congruence.
Qed.

Lemma cnt_attached_detached (x : CallFeedEvent * Listener) (f : CallFeed) :
  cnt x (listeners (attached (detached f)))
  = if decide (x = muteStatePair) then S (Nat.pred (cnt x (listeners f)))
    else if decide (x = newStreamPair) then S (Nat.pred (cnt x (listeners f)))
    else cnt x (listeners f).
Proof.
  unfold attached, detached. cbn [listeners].
  rewrite !cnt_app, !cnt_single.
  rewrite (cnt_removeListener x muteStatePair).
  rewrite (cnt_removeListener x newStreamPair).
  destruct (decide (x = muteStatePair)) as [-> | Hm].
  - repeat case_decide; try done; lia.
  - repeat case_decide; try done; lia.
Qed.

Lemma cnt_attached_detached_le (x : CallFeedEvent * Listener) (f : CallFeed) :
  (cnt x (listeners f) ≤ 1)%nat →
  (cnt x (listeners (attached (detached f))) ≤ 1)%nat.
Proof.
  intros Hx. rewrite cnt_attached_detached. repeat case_decide; lia.
Qed.

Lemma cnt_attached_detached_pair (f : CallFeed) :
  (cnt newStreamPair (listeners f) ≤ 1)%nat →
  (cnt muteStatePair (listeners f) ≤ 1)%nat →
  cnt newStreamPair (listeners (attached (detached f))) = 1%nat
  ∧ cnt muteStatePair (listeners (attached (detached f))) = 1%nat.
Proof.
  intros Ha Hb. rewrite !cnt_attached_detached.
  repeat case_decide; try done; lia.
Qed.

Lemma onceEach_receiveProps (newFeed : nat) (w : World) :
  onceEach w → onceEach (receiveProps newFeed w).
Proof.
  intros [Hall Hcur].
  destruct (decide (newFeed = props_feed w)) as [-> | Hne].
  { destruct (receiveProps_same w) as [Hh Hp].
    unfold onceEach, timesRegistered in *. by rewrite Hh, Hp. }
  assert (Hprops : props_feed (receiveProps newFeed w) = newFeed).
  { apply receiveProps_props. }
  destruct (heap w !! newFeed) as [f|] eqn:Hf.
  - destruct (receiveProps_lookup newFeed w f Hne Hf) as [Hl _].
    assert (Hone : ∀ x, (cnt x (listeners f) ≤ 1)%nat).
    { intros x. specialize (Hall newFeed x). unfold timesRegistered in Hall.
      by rewrite Hf in Hall. }
    split.
    + intros id x. unfold timesRegistered.
      destruct (decide (id = newFeed)) as [-> | Hid].
      * rewrite Hl. apply cnt_attached_detached_le, Hone.
      * assert (heap (receiveProps newFeed w) !! id = heap w !! id) as ->.
        { unfold receiveProps, componentDidUpdate.
          match goal with |- context [updateFeed ?o ?n ?x] =>
            pose proof (updateFeed_other o n id x) as Ho;
            set (w1 := updateFeed o n x) in *
          end.
          cbn [props_feed heap] in Ho. specialize (Ho Hid).
          by destruct (_ || _). }
        apply (Hall id x).
    + intros _. rewrite Hprops. unfold timesRegistered. rewrite Hl.
      apply cnt_attached_detached_pair; apply Hone.
  - assert (Hnone : heap (receiveProps newFeed w) !! newFeed = None).
    { unfold receiveProps, componentDidUpdate.
      match goal with |- context [updateFeed ?o ?n ?x] =>
        pose proof (updateFeed_lookup_None o n x) as Ho;
        set (w1 := updateFeed o n x) in *
      end.
      cbn [props_feed heap] in Ho. specialize (Ho Hf).
      by destruct (_ || _). }
    split.
    + intros id x. unfold timesRegistered.
      destruct (decide (id = newFeed)) as [-> | Hid]; [rewrite Hnone; lia |].
      assert (heap (receiveProps newFeed w) !! id = heap w !! id) as ->.
      { unfold receiveProps, componentDidUpdate.
        match goal with |- context [updateFeed ?o ?n ?x] =>
          pose proof (updateFeed_other o n id x) as Ho;
          set (w1 := updateFeed o n x) in *
        end.
        cbn [props_feed heap] in Ho. specialize (Ho Hid).
        by destruct (_ || _). }
      apply (Hall id x).
    + rewrite Hprops, Hnone. by intros [? ?].
Qed.

Lemma playMedia_frame (w : World) :
  heap (playMedia w) = heap w ∧ props_feed (playMedia w) = props_feed w
  ∧ state (playMedia w) = state w.
Proof. done. Qed.

Lemma rerender_frame (w : World) :
  heap (rerender w) = heap w ∧ props_feed (rerender w) = props_feed w.
Proof.
  unfold rerender. case_bool_decide; [done |].
  unfold componentDidUpdate, updateFeed. cbn [props_feed heap].
  rewrite decide_True by done. by destruct (_ || _).
Qed.

Lemma onceEach_rerender (w : World) : onceEach w → onceEach (rerender w).
Proof.
  destruct (rerender_frame w) as [Hh Hp].
  unfold onceEach, timesRegistered. by rewrite Hh, Hp.
Qed.

Lemma onceEach_feed (id : nat) (audio video : bool) (newStream : nat)
    (w : World) :
  onceEach w → onceEach (step w (EvFeed id audio video newStream)).
Proof.
  intros [Hall Hcur]. cbn [step].
  assert (Hsame : ∀ i x,
    timesRegistered x i
      (updFeed id (λ f, mkFeed (purpose f) newStream audio video
                          (listeners f) (measuringVolumeActivity f)) w)
    = timesRegistered x i w).
  { intros i x. unfold timesRegistered, updFeed. cbn [heap].
    destruct (decide (i = id)) as [-> | Hi].
    - rewrite lookup_alter_eq. by destruct (heap w !! id).
    - by rewrite lookup_alter_ne. }
  split.
  - intros i x. rewrite Hsame. apply Hall.
  - cbn [props_feed updFeed heap]. intros Hsome.
    rewrite !(Hsame (props_feed w)). apply Hcur.
    destruct (decide (props_feed w = id)) as [Heq | Hi].
    + rewrite Heq in *. rewrite lookup_alter_eq in Hsome.
      by destruct (heap w !! id).
    + by rewrite lookup_alter_ne in Hsome.
Qed.

Lemma onceEach_step (w : World) (e : Event) : onceEach w → onceEach (step w e).
Proof.
  destruct e as [feed | | | id audio video newStream].
  - apply onceEach_receiveProps.
  - apply onceEach_rerender.
  - apply onceEach_rerender.
  - apply onceEach_feed.
Qed.

Lemma onceEach_run (evs : list Event) (w : World) :
  onceEach w → onceEach (run w evs).
Proof.
  revert w. induction evs as [| e evs IH]; intros w Hw; [done |].
  apply (IH (step w e)), onceEach_step, Hw.
Qed.

Lemma onceEach_mount (heap0 : gmap nat CallFeed) (feed : nat)
    (el : option HTMLVideoElement) :
  map_Forall (λ _ f, listeners f = []) heap0 →
  onceEach (componentDidMount (construct heap0 feed el)).
Proof.
  intros Hfresh. unfold componentDidMount.
  set (w0 := construct heap0 feed el).
  assert (Hp0 : props_feed w0 = feed) by done.
  assert (Hh0 : heap w0 = heap0) by done.
  clearbody w0.
  unfold onceEach, timesRegistered.
  set (w1 := updateFeed None (Some (props_feed w0)) w0).
  change (heap (playMedia w1)) with (heap w1).
  change (props_feed (playMedia w1)) with (props_feed w1).
  subst w1. rewrite updateFeed_props.
  destruct (heap w0 !! props_feed w0) as [f|] eqn:Hf.
  - pose proof (updateFeed_lookup None (Some (props_feed w0)) w0 f
                  ltac:(done) Hf) as Hl.
    cbn [Datatypes.id] in Hl.
    assert (Hnil : listeners f = []).
    { rewrite Hh0 in Hf. apply (Hfresh _ _ Hf). }
    assert (Hatt : ∀ x, cnt x (listeners (attached f))
                        = (cnt x [newStreamPair] + cnt x [muteStatePair])%nat).
    { intros x. unfold attached. cbn [listeners]. rewrite Hnil.
      by rewrite !cnt_app. }
    split.
    + intros id x. destruct (decide (id = props_feed w0)) as [-> | Hid].
      * rewrite Hl, Hatt, !cnt_single. repeat case_decide; subst; try done; lia.
      * rewrite updateFeed_other by done.
        destruct (heap w0 !! id) as [g|] eqn:Hg; [| lia].
        rewrite Hh0 in Hg. rewrite (Hfresh _ _ Hg). unfold cnt. simpl. lia.
    + intros _. rewrite Hl, !Hatt, !cnt_single.
      repeat case_decide; try done; lia.
  - rewrite (updateFeed_lookup_None _ _ _ Hf). split.
    + intros id x. destruct (decide (id = props_feed w0)) as [-> | Hid].
      * rewrite (updateFeed_lookup_None _ _ _ Hf). lia.
      * rewrite updateFeed_other by done.
        destruct (heap w0 !! id) as [g|] eqn:Hg; [| lia].
        rewrite Hh0 in Hg. rewrite (Hfresh _ _ Hg). unfold cnt. simpl. lia.
    + by intros [? ?].
Qed.

(** Although a feed that is no longer shown keeps its listeners, no
    listener is ever registered twice: starting from feeds without
    listeners, after mounting and any sequence of prop changes, handler
    calls and changes to the feeds, every feed carries every listener at
    most once, and the feed shown carries each of the two exactly
    once. *)
Theorem no_listener_registered_twice (heap0 : gmap nat CallFeed) (feed : nat)
    (el : option HTMLVideoElement) (evs : list Event)
    (Hfresh : map_Forall (λ _ f, listeners f = []) heap0) :
  let w := run (componentDidMount (construct heap0 feed el)) evs in
  (∀ id x, (timesRegistered x id w ≤ 1)%nat)
  ∧ (is_Some (heap w !! props_feed w) →
     timesRegistered newStreamPair (props_feed w) w = 1%nat
     ∧ timesRegistered muteStatePair (props_feed w) w = 1%nat).
Proof.
  intros w. apply (onceEach_run evs), onceEach_mount, Hfresh.
Qed.

(* ---------------------------------------------------------------- *)
(** ** New streams and the video element *)

(** A re-render touches the video element only when the video mute
    state of the feed differs from the one in the state. *)
Lemma rerender_element (w : World) :
  element (rerender w)
  = match heap w !! props_feed w with
    | Some f =>
      if bool_decide (isVideoMuted f = videoMuted (state w)) then element w
      else element (playMedia w)
    | None => element w
    end.
Proof.
  unfold rerender, getDerivedStateFromProps.
  destruct (heap w !! props_feed w) as [f|] eqn:Hf; cbn [audioMuted videoMuted].
  - case_bool_decide as Hst.
    + destruct Hst as [_ Hv]. by rewrite bool_decide_true.
    + unfold componentDidUpdate, updateFeed. cbn [props_feed heap state].
      rewrite decide_True by done. cbn [videoMuted].
      destruct (bool_decide (isVideoMuted f = videoMuted (state w))) eqn:Hv.
      * apply bool_decide_eq_true in Hv.
        rewrite (bool_decide_false (videoMuted (state w) ≠ isVideoMuted f))
          by (intros Hc; by apply Hc).
        by rewrite bool_decide_false by (intros Hc; by apply Hc).
      * apply bool_decide_eq_false in Hv.
        rewrite (bool_decide_true (videoMuted (state w) ≠ isVideoMuted f))
          by (intros Hc; by apply Hv).
        done.
  - by rewrite bool_decide_true.
Qed.

(** When the feed shown gets a new stream and its video mute state is
    the one the component already has, the [NewStream] handler takes
    over the mute state of the feed and leaves the video element as it
    is, whether or not the audio mute state changed: the element is not
    pointed at the new stream and [play] is not called. *)
Theorem new_stream_alone_is_not_played (w : World) (audio : bool) (s : nat) :
  let w' := run w [EvFeed (props_feed w) audio (videoMuted (state w)) s;
                   EvNewStream] in
  element w' = element w
  ∧ props_feed w' = props_feed w
  ∧ (is_Some (heap w !! props_feed w) →
     stream <$> heap w' !! props_feed w = Some s
     ∧ state w' = mkState audio (videoMuted (state w))).
Proof.
  intros w'. subst w'. cbn [run fold_left step onNewStreamHandler].
  set (w1 := updFeed _ _ w).
  destruct (rerender_frame w1) as [Hh Hp].
  assert (Hl : heap w1 !! props_feed w1
               = (λ f, mkFeed (purpose f) s audio (videoMuted (state w))
                         (listeners f) (measuringVolumeActivity f))
                 <$> heap w !! props_feed w).
  { subst w1. unfold updFeed. cbn [heap props_feed].
    by rewrite lookup_alter_eq. }
  unfold onNewStreamHandler.
  split; [| split; [by rewrite Hp |]].
  - rewrite rerender_element, Hl.
    destruct (heap w !! props_feed w) as [f|];
      cbn [fmap option_fmap option_map isVideoMuted]; [| done].
    by rewrite bool_decide_true.
  - intros [f Hf]. rewrite Hh. change (props_feed w) with (props_feed w1).
    rewrite Hl, Hf. split; [done |].
    unfold rerender, getDerivedStateFromProps. rewrite Hl, Hf.
    cbn [fmap option_fmap option_map isVideoMuted isAudioMuted audioMuted
         videoMuted].
    case_bool_decide as Hst.
    + destruct Hst as [Ha Hv]. subst w1. cbn [state updFeed] in *.
      destruct (state w). cbn in *. by subst.
    + unfold componentDidUpdate, updateFeed. cbn [props_feed].
      rewrite decide_True by done. by destruct (_ || _).
Qed.

(* ---------------------------------------------------------------- *)
(** ** Concrete runs *)

(** The parent replaces feed 1 by feed 2 after mounting. *)
Lemma prop_change_touches_the_new_feed_only_witness :
  let w := componentDidMount (construct sampleHeap 1 (Some sampleElement)) in
  let w' := receiveProps 2 w in
  2%nat ≠ props_feed w
  ∧ props_feed w' = 2%nat
  ∧ heap w' !! props_feed w = heap w !! props_feed w
  ∧ (∀ f, heap w !! 2%nat = Some f →
          heap w' !! 2%nat = Some (attached (detached f))
          ∧ carriesListeners 2 w' = true).
Proof.
  intros w w'.
  assert (Hne : 2%nat ≠ props_feed w) by (vm_compute; discriminate).
  split; [exact Hne |].
  exact (prop_change_touches_the_new_feed_only 2 w Hne).
Defined.

Lemma sampleHeap_fresh : map_Forall (λ _ f, listeners f = []) sampleHeap.
Proof.
  unfold sampleHeap. apply map_Forall_insert_2; [done |].
  by apply map_Forall_singleton.
Qed.

(** The parent switches from feed 1 to feed 2 and back, and a new
    stream arrives. *)
Lemma no_listener_registered_twice_witness :
  let w := run (componentDidMount (construct sampleHeap 1 (Some sampleElement)))
               [EvProps 2; EvProps 1; EvNewStream] in
  map_Forall (λ _ f, listeners f = []) sampleHeap
  ∧ (∀ id x, (timesRegistered x id w ≤ 1)%nat)
  ∧ (is_Some (heap w !! props_feed w) →
     timesRegistered newStreamPair (props_feed w) w = 1%nat
     ∧ timesRegistered muteStatePair (props_feed w) w = 1%nat).
Proof.
  intros w. split; [exact sampleHeap_fresh |].
  exact (no_listener_registered_twice sampleHeap 1 (Some sampleElement)
           [EvProps 2; EvProps 1; EvNewStream] sampleHeap_fresh).
Defined.

End VideoFeedLifecycleFacts.

(* ================================================================== *)
(** * SpaceCreateForm: the fields and the lifetime of the menu *)
(* ================================================================== *)

Module SpaceCreateFormFacts.
Import JS JSFacts SpaceCreateMenu SpaceCreateMenuFacts SpaceCreateForm.

Section Form.
Variable toLowerCase : jsstring → jsstring.
Variable domain : jsstring.

Local Abbreviation derived := (λ n, nameToAlias toLowerCase n domain).
Local Abbreviation onNameChange := (onNameChange toLowerCase domain).
Local Abbreviation typeNames := (typeNames toLowerCase domain).
Local Abbreviation follows := (follows toLowerCase domain).
Local Abbreviation formStep := (formStep toLowerCase domain).
Local Abbreviation formRun := (formRun toLowerCase domain).

(* ---------------------------------------------------------------- *)
(** ** The address follows the name *)

Lemma typeNames_snoc (m : Menu) (names : list jsstring) (n : jsstring) :
  typeNames m (names ++ [n]) = onNameChange n (typeNames m names).
Proof. unfold SpaceCreateForm.typeNames. by rewrite fold_left_app. Qed.

Lemma typeNames_name (m : Menu) (names : list jsstring) (n : jsstring) :
  name (typeNames m (names ++ [n])) = n.
Proof. by rewrite typeNames_snoc. Qed.

Lemma nameToAlias_nonempty (n : jsstring) : derived n ≠ [].
Proof. done. Qed.

Lemma typeNames_alias (m : Menu) (names : list jsstring) :
  alias (typeNames m names)
  = match reverse names with
    | [] => alias m
    | n :: older =>
      if follows m (reverse older) then derived n else alias m
    end.
Proof.
  induction names as [| n names IH] using rev_ind; [done |].
  rewrite typeNames_snoc, reverse_snoc.
  unfold SpaceCreateForm.onNameChange. cbn [alias name].
  rewrite IH, reverse_involutive.
  destruct names as [| n' names _] using rev_ind.
  - cbn [reverse]. unfold SpaceCreateForm.follows. simpl.
    by rewrite orb_false_r.
  - rewrite reverse_snoc, typeNames_name, reverse_involutive.
    unfold SpaceCreateForm.follows. cbn [existsb].
    rewrite existsb_app. cbn [existsb]. rewrite orb_false_r.
    set (e := existsb _ names).
    destruct (bool_decide (alias m = [])) eqn:Hnil; cbn [orb].
    + rewrite (bool_decide_false (derived n' = [])) by done.
      by rewrite bool_decide_true.
    + destruct (bool_decide (alias m = derived (name m))) eqn:Hm; cbn [orb].
      * rewrite (bool_decide_false (derived n' = [])) by done.
        by rewrite bool_decide_true.
      * destruct e; cbn [orb].
        -- rewrite (bool_decide_false (derived n' = [])) by done.
           by rewrite bool_decide_true.
        -- rewrite Hnil. cbn [orb]. by destruct (bool_decide _).
Qed.

Lemma typeNames_frame (m : Menu) (names : list jsstring) :
  visibility (typeNames m names) = visibility m
  ∧ busy (typeNames m names) = busy m
  ∧ topic (typeNames m names) = topic m.
Proof.
  revert m. induction names as [| x names IH]; intros m; [done |].
  apply (IH (onNameChange x m)).
Qed.

(** After any number of changes of the name field the name is the last
    one typed, and the address is the one derived from it exactly when
    the address the typing started with was empty or was the one
    derived from the name before one of the changes; otherwise it is
    still the address the typing started with. *)
Theorem address_follows_the_name (m : Menu) (names : list jsstring)
    (n : jsstring) :
  let m' := typeNames m (names ++ [n]) in
  name m' = n
  ∧ alias m' = (if follows m names then derived n else alias m)
  ∧ visibility m' = visibility m ∧ busy m' = busy m ∧ topic m' = topic m.
Proof.
  intros m'. subst m'. split; [apply typeNames_name |]. split.
  - by rewrite typeNames_alias, reverse_snoc, reverse_involutive.
  - apply typeNames_frame.
Qed.

(* ---------------------------------------------------------------- *)
(** ** The alias name that is sent *)

Lemma indexOfColon_app (l rest : jsstring) :
  Forall (λ c, c ≠ 58) l → indexOfColon (l ++ 58 :: rest) = Some (length l).
Proof.
  induction 1 as [| c l Hc Hl IH]; [done |].
  cbn [app indexOfColon length]. rewrite IH.
  by destruct (N.eqb_spec c 58).
Qed.

Lemma aliasLocalpart_built (lp rest : jsstring) :
  Forall (λ c, c ≠ 58) lp →
  aliasLocalpart (lit "#" ++ lp ++ lit ":" ++ rest) = lp.
Proof.
  intros Hlp. unfold aliasLocalpart.
  change (lit "#" ++ lp ++ lit ":" ++ rest) with (35 :: (lp ++ 58 :: rest)).
  change (35 :: (lp ++ 58 :: rest)) with ((35 :: lp) ++ 58 :: rest) at 1.
  rewrite indexOfColon_app by (constructor; [done | exact Hlp]).
  cbn [length drop].
  replace (S (length lp) - 1)%nat with (length lp) by lia.
  rewrite drop_0. by rewrite take_app_length.
Qed.

Lemma localpart_no_colon (s : jsstring) :
  Forall (λ c, c ≠ 58) (replaceRuns (λ c, negb (inAliasClass c)) [] s).
Proof.
  rewrite replaceRuns_delete. apply Forall_forall. intros c Hc.
  apply list_elem_of_In, filter_In in Hc as [_ Hc].
  rewrite negb_involutive in Hc. intros ->. done.
Qed.

(** The alias name cut out of an address derived from a name gives the
    address back when put between [#] and [:domain], whatever the
    domain is; it is what [createRoom] gets for a public space, and a
    private one gets none. *)
Theorem derived_address_round_trip (n : jsstring) :
  lit "#" ++ aliasLocalpart (derived n) ++ lit ":" ++ domain = derived n
  ∧ ∀ m, alias m = derived n →
      room_alias_name (createOpts m)
      = if bool_decide (visibility m = Some Public)
        then JStr (aliasLocalpart (derived n)) else JUndefined.
Proof.
  split.
  - unfold nameToAlias. rewrite aliasLocalpart_built; [done |].
    apply localpart_no_colon.
  - intros m Hm. unfold createOpts. cbn [room_alias_name]. rewrite Hm.
    done.
Qed.

(* ---------------------------------------------------------------- *)
(** ** The lifetime of the menu *)

Lemma formInv_initial : formInv initial.
Proof. split; by left. Qed.

Lemma formInv_idle (w : World) :
  formInv w → busy (menu w) = false →
  running w = [] ∧ createRoomCalls w = [].
Proof.
  intros [[Hr | [Hb _]] [Hc | [Hb' _]]] Hbusy; try congruence. done.
Qed.

Lemma formInv_setMenu (f : Menu → Menu) (w : World) :
  formInv w → busy (menu w) = false → formInv (setMenu f w).
Proof.
  intros Hinv Hbusy. destruct (formInv_idle w Hinv Hbusy) as [Hr Hc].
  split; by left.
Qed.

Lemma formInv_step (w : World) (e : FormEvent) :
  formInv w → formInv (formStep w e).
Proof.
  intros Hinv.
  destruct e as [[| i ok | v] | n | a | t]; cbn [SpaceCreateForm.formStep].
  - destruct (formMounted w); [| done].
    unfold onSpaceCreateClick. destruct (busy (menu w)) eqn:Hbusy; [done |].
    destruct (formInv_idle w Hinv Hbusy) as [Hr Hc].
    split; [right | left; exact Hc].
    cbn [menu setRunning validate setBusy busy running]. rewrite Hr.
    split; [done |]. by eexists.
  - unfold settle, throws, resume.
    destruct (running w !! i) as [a|] eqn:Hi; [| done].
    destruct Hinv as [[Hr | (Hbusy & a' & Hr & Hsame)] Hcalls];
      [by rewrite Hr in Hi |].
    rewrite Hr in Hi. destruct i as [| i]; [| done].
    injection Hi as <-. rewrite Hr. cbn [delete list_delete app].
    destruct Hsame as (Hn & Ha & Ht).
    assert (Hnocalls : suspended a' ≠ AwaitCreateRoom → createRoomCalls w = []).
    { intros Hs. destruct Hcalls as [Hc | (_ & _ & Hall)]; [done |].
      rewrite Hr in Hall. apply Forall_inv in Hall. by destruct Hs. }
    destruct (suspended a') eqn:Hs.
    + specialize (Hnocalls ltac:(done)).
      destruct ok.
      * destruct (bool_decide (visibility (closure a') = Some Public)) eqn:Hpub;
          cbn [andb].
        -- destruct (aliasFieldMounted w); cbn [negb].
           ++ split; [right | left; exact Hnocalls].
              split; [exact Hbusy |]. by eexists.
           ++ split; [by left | left; exact Hnocalls].
        -- split.
           ++ right. split; [exact Hbusy |]. by eexists.
           ++ right. split; [exact Hbusy |]. split.
              ** exists (createOpts (closure a')).
                 cbn [createRoomCalls setRunning createRoom menu].
                 rewrite Hnocalls. split; [done |].
                 split; [exact Hn |]. split; [exact Ht |].
                 unfold createOpts. cbn [room_alias_name]. rewrite Hpub.
                 left. by destruct (alias (closure a')).
              ** by apply Forall_singleton.
      * destruct (formMounted w); cbn [negb].
        -- split; [by left | left; exact Hnocalls].
        -- split; [by left | left; exact Hnocalls].
    + specialize (Hnocalls ltac:(done)).
      destruct ok.
      * split.
        -- right. split; [exact Hbusy |]. by eexists.
        -- right. split; [exact Hbusy |]. split.
           ++ exists (createOpts (closure a')).
              cbn [createRoomCalls setRunning createRoom menu].
              rewrite Hnocalls. split; [done |].
              split; [exact Hn |]. split; [exact Ht |].
              unfold createOpts. cbn [room_alias_name]. rewrite Ha.
              destruct (alias (menu w)); [by left |].
              destruct (bool_decide _); [by right | by left].
           ++ by apply Forall_singleton.
      * destruct (aliasFieldMounted w); cbn [negb].
        -- split; [by left | left; exact Hnocalls].
        -- split; [by left | left; exact Hnocalls].
    + split; [by destruct ok; left |].
      destruct Hcalls as [Hc | (_ & Ho & _)]; [by destruct ok; left |].
      right. destruct ok; (split; [exact Hbusy |]); split; done.
  - destruct Hinv as [Hrun Hcalls]. split.
    + destruct Hrun as [Hr | (Hbusy & a & Hr & Hsame)]; [by left |].
      right. split; [exact Hbusy |]. by exists a.
    + destruct Hcalls as [Hc | (Hbusy & Ho & Hall)]; [by left |].
      right. done.
  - destruct (formMounted w); [| done].
    destruct (busy (menu w)) eqn:Hbusy; [done |]. by apply formInv_setMenu.
  - destruct (aliasFieldMounted w); [| done].
    destruct (busy (menu w)) eqn:Hbusy; [done |]. by apply formInv_setMenu.
  - destruct (formMounted w); [| done].
    destruct (busy (menu w)) eqn:Hbusy; [done |]. by apply formInv_setMenu.
Qed.

Lemma formInv_run (evs : list FormEvent) (w : World) :
  formInv w → formInv (formRun w evs).
Proof.
  revert w. induction evs as [| e evs IH]; intros w Hinv; [done |].
  apply (IH (formStep w e)), formInv_step, Hinv.
Qed.

Lemma created_step (w : World) (e : FormEvent) :
  formInv w → createRoomCalls w ≠ [] →
  createRoomCalls (formStep w e) = createRoomCalls w.
Proof.
  intros [_ [Hc | (Hbusy & _ & Hall)]] Hne; [done |].
  destruct e as [[| i ok | v] | n | a | t]; cbn [SpaceCreateForm.formStep].
  - unfold onSpaceCreateClick. rewrite Hbusy. by destruct (formMounted w).
  - unfold settle, throws, resume.
    destruct (running w !! i) as [a|] eqn:Hi; [| done].
    apply list_elem_of_lookup_2 in Hi.
    rewrite Forall_forall in Hall. rewrite (Hall a Hi). by destruct ok.
  - done.
  - rewrite Hbusy, andb_false_r. done.
  - rewrite Hbusy, andb_false_r. done.
  - rewrite Hbusy, andb_false_r. done.
Qed.

Lemma created_run (evs : list FormEvent) (w : World) :
  formInv w → createRoomCalls w ≠ [] →
  createRoomCalls (formRun w evs) = createRoomCalls w.
Proof.
  revert w. induction evs as [| e evs IH]; intros w Hinv Hne; [done |].
  cbn [SpaceCreateForm.formRun fold_left].
  pose proof (created_step w e Hinv Hne) as Hstep.
  rewrite <- Hstep. apply IH; [by apply formInv_step | by rewrite Hstep].
Qed.

(** [createRoom] is called at most once in the life of a menu.  Once it
    has been called the menu stays busy whatever happens next, also
    when the call fails, so that no click creates a second space or
    tries again. *)
Theorem space_created_at_most_once (evs : list FormEvent) :
  let w := formRun initial evs in
  (length (createRoomCalls w) ≤ 1)%nat
  ∧ (createRoomCalls w ≠ [] →
     ∀ more, createRoomCalls (formRun w more) = createRoomCalls w
             ∧ busy (menu (formRun w more)) = true).
Proof.
  intros w.
  assert (Hinv : formInv w) by apply formInv_run, formInv_initial.
  split.
  - destruct Hinv as [_ [-> | (_ & (o & -> & _) & _)]]; simpl; lia.
  - intros Hne more.
    pose proof (created_run more w Hinv Hne) as Hsame.
    split; [exact Hsame |].
    destruct (formInv_run more w Hinv) as [_ [Hc | (Hbusy & _)]]; [| done].
    by rewrite Hsame in Hc.
Qed.

(** Whenever [createRoom] has been called, it was called with the name
    and the description that the form shows, and with no alias name or
    with the one cut out of the address that the form shows: the fields
    cannot change between the click and the call. *)
Theorem space_created_with_the_fields_shown (evs : list FormEvent) :
  let w := formRun initial evs in
  Forall (λ o, createName o = name (menu w)
               ∧ createTopic o = topic (menu w)
               ∧ (room_alias_name o = JUndefined
                  ∨ room_alias_name o = JStr (aliasLocalpart (alias (menu w)))))
         (createRoomCalls w).
Proof.
  intros w.
  destruct (formInv_run evs initial formInv_initial)
    as [_ [Hc | (_ & (o' & Hc & Hfields) & _)]]; fold w in Hc; rewrite Hc.
  - constructor.
  - by apply Forall_singleton.
Qed.

(* ---------------------------------------------------------------- *)
(** ** A continuation that throws *)

Lemma stuck_step (w : World) (e : FormEvent) :
  busy (menu w) = true → running w = [] →
  busy (menu (formStep w e)) = true ∧ running (formStep w e) = []
  ∧ createRoomCalls (formStep w e) = createRoomCalls w
  ∧ finishedCalls (formStep w e) = finishedCalls w.
Proof.
  intros Hbusy Hr.
  destruct e as [[| i ok | v] | n | a | t]; cbn [SpaceCreateForm.formStep].
  - unfold onSpaceCreateClick. rewrite Hbusy. by destruct (formMounted w).
  - unfold settle, throws, resume. by rewrite Hr.
  - done.
  - by rewrite Hbusy, andb_false_r.
  - by rewrite Hbusy, andb_false_r.
  - by rewrite Hbusy, andb_false_r.
Qed.

Lemma stuck_run (evs : list FormEvent) (w : World) :
  busy (menu w) = true → running w = [] →
  busy (menu (formRun w evs)) = true ∧ running (formRun w evs) = []
  ∧ createRoomCalls (formRun w evs) = createRoomCalls w
  ∧ finishedCalls (formRun w evs) = finishedCalls w.
Proof.
  revert w. induction evs as [| e evs IH]; intros w Hbusy Hr; [done |].
  cbn [SpaceCreateForm.formRun fold_left].
  destruct (stuck_step w e Hbusy Hr) as (Hb & Hr' & Hc & Hf).
  destruct (IH (formStep w e) Hb Hr') as (Hb2 & Hr2 & Hc2 & Hf2).
  unfold SpaceCreateForm.formRun in Hb2, Hr2, Hc2, Hf2.
  repeat split; [done | done | congruence | congruence].
Qed.

(** When the continuation of a validation needs a field that is no
    longer rendered (the user went back, or changed a public space into
    a private one, while the validation was running), the call ends
    there: no space has been created, none will be, [onFinished] is
    never called, and the menu stays busy whatever happens next. *)
Theorem unrendered_field_blocks_the_menu (evs : list FormEvent) (i : nat)
    (ok : bool) :
  let w := formRun initial evs in
  throws i ok w = true →
  ∀ more,
    let w' := formRun (formStep w (EvMenu (EvSettle i ok))) more in
    busy (menu w') = true
    ∧ running w' = []
    ∧ createRoomCalls w' = []
    ∧ finishedCalls w' = finishedCalls w.
Proof.
  intros w Hthrows more w'.
  assert (Hinv : formInv w) by apply formInv_run, formInv_initial.
  assert (Hstep : busy (menu (settle i ok w)) = true
                  ∧ running (settle i ok w) = []
                  ∧ createRoomCalls (settle i ok w) = []
                  ∧ finishedCalls (settle i ok w) = finishedCalls w).
  { unfold settle. rewrite Hthrows. unfold throws in Hthrows.
    destruct (running w !! i) as [a|] eqn:Hi; [| done].
    destruct Hinv as [[Hr | (Hbusy & a' & Hr & _)] Hcalls];
      [by rewrite Hr in Hi |].
    rewrite Hr in Hi |- *. destruct i as [| i]; [| done].
    injection Hi as <-. cbn [setRunning menu running createRoomCalls
      finishedCalls delete list_delete].
    repeat split; try done.
    destruct Hcalls as [Hc | (_ & _ & Hall)]; [done |].
    rewrite Hr in Hall. apply Forall_inv in Hall. rewrite Hall in Hthrows.
    done. }
  destruct Hstep as (Hb & Hr & Hc & Hf).
  destruct (stuck_run more (settle i ok w) Hb Hr) as (Hb2 & Hr2 & Hc2 & Hf2).
  subst w'. cbn [SpaceCreateForm.formStep].
  repeat split; [done | done | congruence | congruence].
Qed.

(* ---------------------------------------------------------------- *)
(** ** From typing a name to the call of createRoom *)

Lemma formRun_names (names : list jsstring) (w : World) :
  formMounted w = true → busy (menu w) = false →
  formRun w (EvName <$> names) = setMenu (λ m, typeNames m names) w.
Proof.
  revert w. induction names as [| n names IH]; intros w Hm Hb.
  - by destruct w.
  - cbn [fmap list_fmap SpaceCreateForm.formRun fold_left
         SpaceCreateForm.formStep].
    rewrite Hm, Hb. cbn [andb negb].
    change (fold_left formStep (EvName <$> names) ?x)
      with (formRun x (EvName <$> names)).
    rewrite IH; [done | |].
    + unfold formMounted in *. done.
    + done.
Qed.

(** A user who chooses a public space, types a name (in any number of
    steps, leaving the address alone) and clicks Create, and whose name
    and address pass validation, has [createRoom] called exactly once:
    for a public, world-readable space with the name typed last, with
    nobody below power level 100 allowed to write, and with the alias
    name of the address derived from that name. *)
Theorem public_space_created_under_its_name (names : list jsstring)
    (n : jsstring) :
  let evs := [EvMenu (EvSetVisibility (Some Public))]
             ++ (EvName <$> names ++ [n])
             ++ [EvMenu EvClick; EvMenu (EvSettle 0 true);
                 EvMenu (EvSettle 0 true)] in
  createRoomCalls (formRun initial evs)
  = [ {| preset := PublicChat;
         createName := n;
         events_default := 100;
         invite := Some 0;
         room_alias_name := JStr (aliasLocalpart (derived n));
         createTopic := [];
         historyVisibility := WorldReadable |} ].
Proof.
  intros evs. subst evs. unfold SpaceCreateForm.formRun.
  rewrite !fold_left_app.
  set (w1 := fold_left formStep [EvMenu (EvSetVisibility (Some Public))] initial).
  set (w2 := fold_left formStep (EvName <$> names ++ [n]) w1).
  assert (Hw2 : w2 = setMenu (λ m, typeNames m (names ++ [n])) w1).
  { apply (formRun_names (names ++ [n]) w1); done. }
  pose proof (typeNames_name (menu w1) names n) as Hn.
  pose proof (typeNames_alias (menu w1) (names ++ [n])) as Ha.
  rewrite reverse_snoc in Ha.
  destruct (typeNames_frame (menu w1) (names ++ [n])) as (Hv & Hb & Ht).
  set (m := typeNames (menu w1) (names ++ [n])) in *.
  assert (Hfields : m = mkMenu (Some Public) false n (derived n) []).
  { destruct m. cbn in Hn, Ha, Hv, Hb, Ht. by subst. }
  unfold setMenu in Hw2. fold m in Hw2. rewrite Hfields in Hw2.
  clearbody w2. subst w2. reflexivity.
Qed.

End Form.

(* ---------------------------------------------------------------- *)
(** ** Concrete runs *)

(** The user names a public space "a" and clicks Create; the name
    passes, and the user goes back while the address is being checked;
    that check then fails. *)
Lemma unrendered_field_blocks_the_menu_witness :
  let formRun := formRun asciiToLowerCase (lit "example.org") in
  let formStep := formStep asciiToLowerCase (lit "example.org") in
  let w := formRun initial
             [EvMenu (EvSetVisibility (Some Public)); EvName (lit "a");
              EvMenu EvClick; EvMenu (EvSettle 0 true);
              EvMenu (EvSetVisibility None)] in
  throws 0 false w = true
  ∧ ∀ more,
      let w' := formRun (formStep w (EvMenu (EvSettle 0 false))) more in
      busy (menu w') = true
      ∧ running w' = []
      ∧ createRoomCalls w' = []
      ∧ finishedCalls w' = finishedCalls w.
Proof.
  intros formRun formStep w.
  assert (Hthrows : throws 0 false w = true) by (vm_compute; reflexivity).
  split; [exact Hthrows |].
  exact (unrendered_field_blocks_the_menu asciiToLowerCase (lit "example.org")
           _ 0%nat false Hthrows).
Defined.

End SpaceCreateFormFacts.
